(** * pigeon: the PEG virtual machine

    A shallow embedding of the VM runtime of pigeon (errors, matchers,
    opcodes, parser cursor, stacks and the dispatch loop of [vm.go]) and of
    the instruction blocks the generator emits for each expression, followed
    by the properties of the runtime that the specification states.

    Conventions.
    - Go [int] and [rune] are [Z]; [uint16] values (program counter,
      instruction arguments) are [Z] in [0, 65536), and the two places where
      the program counter is incremented or decremented wrap around.
    - Go byte slices are [list byte]; Go strings are [string].
    - A panic is an explicit result carrying the payload and the state of
      the machine at the time of the panic.
    - The debug option only writes to the standard error stream and is
      modelled switched off. *)

From Stdlib Require Import ZArith Lia Bool.
From Stdlib Require Strings.Byte.
From stdpp Require Import base tactics option list gmap strings pretty.

Set Warnings "-register-all".

Local Open Scope Z_scope.

Abbreviation byte := Byte.byte.

(** ** Functions of the Go standard library the runtime calls

    [unicode.ToLower], [strconv.Quote] and the [%c] and [%#U] verbs of
    [fmt.Sprintf] are not code of the repository; the development is
    parametric in them. *)
Record golib := {
  ToLower : Z → Z;
  Quote : string → string;
  fmt_c : Z → string;
  fmt_U : Z → string;
}.

(** [utf8.RuneError] *)
Definition RuneError : Z := 65533.

Definition byteZ (b : byte) : Z := Z.of_N (Byte.to_N b).

(** The first-byte table of [unicode/utf8]: the length of the sequence and
    the range accepted for its second byte. *)
Definition utf8_first (x : Z) : option (Z * Z * Z) :=
  if (194 <=? x) && (x <=? 223) then Some (2, 128, 191)
  else if x =? 224 then Some (3, 160, 191)
  else if (225 <=? x) && (x <=? 236) then Some (3, 128, 191)
  else if x =? 237 then Some (3, 128, 159)
  else if (238 <=? x) && (x <=? 239) then Some (3, 128, 191)
  else if x =? 240 then Some (4, 144, 191)
  else if (241 <=? x) && (x <=? 243) then Some (4, 128, 191)
  else if x =? 244 then Some (4, 128, 143)
  else None.

Definition utf8_cont (y : Z) : bool := (128 <=? y) && (y <=? 191).

(** [utf8.DecodeRune]: the first code point of [p] and its width in bytes;
    [(RuneError, 0)] on empty input, [(RuneError, 1)] on an invalid
    encoding. *)
Definition DecodeRune (p : list byte) : Z * Z :=
  match p with
  | [] => (RuneError, 0)
  | b0 :: t0 =>
    let x := byteZ b0 in
    if x <? 128 then (x, 1)
    else
      match utf8_first x, t0 with
      | Some (sz, lo, hi), b1 :: t1 =>
        let y := byteZ b1 in
        if (y <? lo) || (hi <? y) then (RuneError, 1)
        else if sz =? 2 then
          (Z.lor (Z.shiftl (Z.land x 31) 6) (Z.land y 63), 2)
        else
          match t1 with
          | b2 :: t2 =>
            let z := byteZ b2 in
            if negb (utf8_cont z) then (RuneError, 1)
            else if sz =? 3 then
              (Z.lor (Z.lor (Z.shiftl (Z.land x 15) 12)
                            (Z.shiftl (Z.land y 63) 6))
                     (Z.land z 63), 3)
            else
              match t2 with
              | b3 :: _ =>
                let u := byteZ b3 in
                if negb (utf8_cont u) then (RuneError, 1)
                else
                  (Z.lor (Z.lor (Z.lor (Z.shiftl (Z.land x 7) 18)
                                       (Z.shiftl (Z.land y 63) 12))
                                (Z.shiftl (Z.land z 63) 6))
                         (Z.land u 63), 4)
              | [] => (RuneError, 1)
              end
          | [] => (RuneError, 1)
          end
      | _, _ => (RuneError, 1)
      end
  end.

(** [for _, r := range s]: the code points of a Go string, an invalid byte
    giving [RuneError] and being skipped alone. *)
Fixpoint runes_fuel (n : nat) (p : list byte) : list Z :=
  match n, p with
  | S n', _ :: _ =>
    let '(r, k) := DecodeRune p in r :: runes_fuel n' (drop (Z.to_nat k) p)
  | _, _ => []
  end.

Definition string_runes (s : string) : list Z :=
  let p := String.list_byte_of_string s in runes_fuel (length p) p.

(** [unicode.RangeTable] as its list of [(Lo, Hi, Stride)] ranges, and
    [unicode.Is]. *)
Abbreviation RangeTable := (list (Z * Z * Z)).

Definition unicode_Is (tab : RangeTable) (r : Z) : bool :=
  existsb (λ '(lo, hi, stride),
             (lo <=? r) && (r <=? hi) &&
             ((stride =? 1) || ((r - lo) mod stride =? 0))) tab.

(** ** parser.go: positions and savepoints *)

Record position := { line : Z; col : Z; offset : Z }.

(** [ϡsvpt]: all the state required to go back to a point in the parser. *)
Record ϡsvpt := { pos : position; rn : Z; w : Z }.

(** [current]: the data of the current match handed to the code blocks;
    [text] is [None] for a nil slice. *)
Record current := { cur_pos : position; cur_text : option (list byte) }.

(** ** vm.go: values of the V stack

    [VNil] is Go's [nil], [VFailed] the sentinel [ϡmatchFailed], [VList] a
    [[]interface{}] (the empty-sequence special value is [VList []]),
    [VBytes] a matched byte slice and [VUser] any other value a code block
    returns. *)
Inductive value :=
| VNil
| VFailed
| VList (l : list value)
| VBytes (b : list byte)
| VUser (tag : Z).

Definition is_failed (v : value) : bool :=
  match v with VFailed => true | _ => false end.

(** [ϡffp]: the farthest failure position. *)
Record ϡffp := {
  ffp_pos : position;
  ffp_ruleNmIx : Z;
  ffp_rn : Z;
  ffp_want : string;
}.

(** ** err.go: errors

    The values of Go's [error] interface that occur: the two package-level
    errors, a farthest failure position, a runtime error raised by the Go
    runtime, and any other error (returned by a code block, or built by
    [fmt.Errorf]) given by its message. *)
Inductive error :=
| errInvalidEncoding
| errNoMatch
| ErrFfp (f : ϡffp)
| ErrRuntime (msg : string)
| ErrOther (msg : string).

(** The payload of a panic: an [error], or a value that is not an error,
    given by the text the [%v] verb prints for it. *)
Inductive panic_val :=
| PanicErr (e : error)
| PanicVal (shown : string).

Record parserError := {
  Inner : error;
  ϡpos : position;
  ϡprefix : string;
}.

Abbreviation errList := (list parserError).

Section Runtime.
Variable lib : golib.

(** [ffp.Error] and the [Error] methods of the other errors. *)
Definition error_Error (e : error) : string :=
  match e with
  | errInvalidEncoding => "invalid encoding"
  | errNoMatch => "no match found"
  | ErrFfp f =>
    "expected " +:+ Quote lib (ffp_want f) +:+ ", got " +:+ fmt_U lib (ffp_rn f)
  | ErrRuntime msg => msg
  | ErrOther msg => msg
  end.

(** [parserError.Error] *)
Definition Error (p : parserError) : string :=
  ϡprefix p +:+ ": " +:+ error_Error (Inner p).

(** [errList.ϡadd]; [None] is a nil error. *)
Definition ϡadd (e : errList) (err : option parserError) : errList :=
  match err with
  | Some pe => e ++ [pe]
  | None => e
  end.

(** One iteration of the loop of [ϡdedupe] on its two variables. *)
Definition dedupe_step (acc : errList * gset string) (err : parserError)
  : errList * gset string :=
  let '(cleaned, set) := acc in
  let msg := Error err in
  if decide (msg ∈ set) then (cleaned, set)
  else (cleaned ++ [err], {[msg]} ∪ set).

(** [errList.ϡdedupe] *)
Definition ϡdedupe (e : errList) : errList :=
  (foldl dedupe_step ([], ∅) e).1.

(** [errList.ϡerr]: [None] is the nil error. The receiver is a copy of the
    slice, which [ϡdedupe] replaces by the cleaned list before it is
    returned. *)
Definition ϡerr (e : errList) : option errList :=
  if decide (length e = 0%nat) then None else Some (ϡdedupe e).

(** [position.String] *)
Definition position_String (p : position) : string :=
  pretty (line p) +:+ ":" +:+ pretty (col p) +:+ " (" +:+ pretty (offset p) +:+ ")".

(** ** matchers.go *)

Inductive ϡmatcher :=
| ϡanyMatcher
| ϡstringMatcher (ignoreCase : bool) (value : string)
| ϡcharClassMatcher (chars ranges : list Z) (classes : list RangeTable)
                    (ignoreCase inverted : bool).

(** The loop of [String] over the ranges; [None] when [ranges[i+1]] is out
    of range. *)
Fixpoint ranges_String (rs : list Z) : option string :=
  match rs with
  | [] => Some ""
  | lo :: hi :: rest =>
    s ← ranges_String rest; Some (fmt_c lib lo +:+ "-" +:+ fmt_c lib hi +:+ s)
  | [_] => None
  end.

(** The [String] methods of the matchers; [None] is a panic of the Go
    runtime. *)
Definition matcher_String (m : ϡmatcher) : option string :=
  match m with
  | ϡanyMatcher => Some "."
  | ϡstringMatcher ic v => Some (Quote lib v +:+ (if ic then "i" else ""))
  | ϡcharClassMatcher chars ranges classes ic inv =>
    rs ← ranges_String ranges;
    Some ("[" +:+ (if inv then "^" else "")
          +:+ foldr (λ c s, fmt_c lib c +:+ s) "" chars
          +:+ rs
          +:+ (if decide (0 < length classes)%nat
               then "\p{" +:+ pretty (length classes) +:+ " classes}" else "")
          +:+ "]" +:+ (if ic then "i" else ""))
  end.

(** [ϡparser.read], on the input [data] and the savepoint [pt] of the parser.
    The savepoint at the time of a panic is kept. *)
Inductive read_result :=
| ReadOk (pt : ϡsvpt)
| ReadPanic (e : error) (pt : ϡsvpt).

Definition set_offset (p : position) (o : Z) : position :=
  {| line := line p; col := col p; offset := o |}.

Definition read (data : list byte) (pt : ϡsvpt) : read_result :=
  let off := offset (pos pt) + w pt in
  let pt0 := {| pos := set_offset (pos pt) off; rn := rn pt; w := w pt |} in
  if decide (0 ≤ off ≤ Z.of_nat (length data)) then
    let '(r, n) := DecodeRune (drop (Z.to_nat off) data) in
    let pt1 := {| pos := set_offset (pos pt) off; rn := r; w := n |} in
    if r =? RuneError then
      if 0 <? n then ReadPanic errInvalidEncoding pt1 else ReadOk pt1
    else if r =? 10 then
      ReadOk {| pos := {| line := line (pos pt) + 1; col := 0; offset := off |};
                rn := r; w := n |}
    else
      ReadOk {| pos := {| line := line (pos pt); col := col (pos pt) + 1;
                          offset := off |};
                rn := r; w := n |}
  else ReadPanic (ErrRuntime "runtime error: slice bounds out of range") pt0.

(** [ϡparser.sliceFrom]; [None] when the bounds are out of range. *)
Definition sliceFrom (data : list byte) (pt start : ϡsvpt) : option (list byte) :=
  let lo := offset (pos start) in
  let hi := offset (pos pt) in
  if decide (0 ≤ lo ∧ lo ≤ hi ∧ hi ≤ Z.of_nat (length data)) then
    Some (take (Z.to_nat (hi - lo)) (drop (Z.to_nat lo) data))
  else None.

(** The result of a [match] method: the boolean returned and the savepoint
    of the parser, or a panic. *)
Inductive match_result :=
| MatchRet (ok : bool) (pt : ϡsvpt)
| MatchPanic (e : error) (pt : ϡsvpt).

(** [ϡanyMatcher.match] *)
Definition any_match (data : list byte) (pt : ϡsvpt) : match_result :=
  let r := rn pt in
  match read data pt with
  | ReadOk pt' => MatchRet (negb (r =? RuneError)) pt'
  | ReadPanic e pt' => MatchPanic e pt'
  end.

(** [ϡstringMatcher.match], the loop over the code points of [value]. *)
Fixpoint string_match (ignoreCase : bool) (wants : list Z)
    (data : list byte) (pt : ϡsvpt) : match_result :=
  match wants with
  | [] => MatchRet true pt
  | want :: wants' =>
    let r := if ignoreCase then ToLower lib (rn pt) else rn pt in
    if negb (r =? want) then MatchRet false pt
    else
      match read data pt with
      | ReadOk pt' => string_match ignoreCase wants' data pt'
      | ReadPanic e pt' => MatchPanic e pt'
      end
  end.

(** The loop of [ϡcharClassMatcher.match] over the ranges; [None] when
    [ranges[i+1]] is out of range. *)
Fixpoint ranges_match (rs : list Z) (r : Z) : option bool :=
  match rs with
  | [] => Some false
  | [lo] => if lo <=? r then None else Some false
  | lo :: hi :: rest =>
    if (lo <=? r) && (r <=? hi) then Some true else ranges_match rest r
  end.

(** [ϡcharClassMatcher.match] *)
Definition charClass_match (chars ranges : list Z) (classes : list RangeTable)
    (ignoreCase inverted : bool) (data : list byte) (pt : ϡsvpt) : match_result :=
  let r0 := rn pt in
  match read data pt with
  | ReadPanic e pt' => MatchPanic e pt'
  | ReadOk pt' =>
    let r := if ignoreCase then ToLower lib r0 else r0 in
    if existsb (λ ch, r =? ch) chars then MatchRet (negb inverted) pt'
    else
      match ranges_match ranges r with
      | None => MatchPanic (ErrRuntime "runtime error: index out of range") pt'
      | Some true => MatchRet (negb inverted) pt'
      | Some false =>
        if existsb (λ cl, unicode_Is cl r) classes
        then MatchRet (negb inverted) pt'
        else MatchRet inverted pt'
      end
  end.

(** [ϡmatcher.match] *)
Definition matcher_match (m : ϡmatcher) (data : list byte) (pt : ϡsvpt)
  : match_result :=
  match m with
  | ϡanyMatcher => any_match data pt
  | ϡstringMatcher ic v => string_match ic (string_runes v) data pt
  | ϡcharClassMatcher chars ranges classes ic inv =>
    charClass_match chars ranges classes ic inv data pt
  end.

(** ** ops.go *)

Inductive ϡop :=
| ϡopExit | ϡopCall | ϡopCallA | ϡopCallB | ϡopCumulOrF | ϡopJump | ϡopJumpIfF
| ϡopJumpIfT | ϡopMatch | ϡopNilIfF | ϡopNilIfT | ϡopPop | ϡopPopVJumpIfF
| ϡopPush | ϡopRestore | ϡopRestoreIfF | ϡopReturn | ϡopStoreIfT
| ϡopTakeLOrJump | ϡopPlaceholder.

#[global] Instance ϡop_eq_dec : EqDecision ϡop.
Proof. solve_decision. Defined.

(** [ϡop.String] *)
Definition op_String (o : ϡop) : string :=
  match o with
  | ϡopExit => "exit" | ϡopCall => "call" | ϡopCallA => "callA"
  | ϡopCallB => "callB" | ϡopCumulOrF => "cumulOrF" | ϡopJump => "jump"
  | ϡopJumpIfF => "jumpIfF" | ϡopJumpIfT => "jumpIfT" | ϡopMatch => "match"
  | ϡopNilIfF => "nilIfF" | ϡopNilIfT => "nilIfT" | ϡopPop => "pop"
  | ϡopPopVJumpIfF => "popVJumpIfF" | ϡopPush => "push"
  | ϡopRestore => "restore" | ϡopRestoreIfF => "restoreIfF"
  | ϡopReturn => "return" | ϡopStoreIfT => "storeIfT"
  | ϡopTakeLOrJump => "takeLOrJump" | ϡopPlaceholder => "ϡop(20)"
  end.

(** [ϡinstr]: an opcode, the index of the name of its rule and its
    arguments. *)
Record ϡinstr := { op : ϡop; ruleNmIx : Z; args : list Z }.

(** ** vm.go *)

(** The stack identifiers, first argument of [push] and [pop]. *)
Definition ϡpstackID : Z := 1.
Definition ϡlstackID : Z := 2.
Definition ϡvstackID : Z := 3.
Definition ϡistackID : Z := 4.
Definition ϡastackID : Z := 5.

(** The special values of the V stack. *)
Definition ϡvValNil : Z := 0.
Definition ϡvValFailed : Z := 1.
Definition ϡvValEmpty : Z := 2.

Definition ϡvSpecialValues : list value := [VNil; VFailed; VList []].

(** [ϡargsSet]: the arguments (label and value) passed to the code blocks. *)
Abbreviation ϡargsSet := (gmap string value).

Record ϡmemoizedResult := { mr_v : value; mr_pt : ϡsvpt }.

(** Modelled from the spec: the code blocks. The generator that wraps the
    action and predicate code of a grammar into the functions of
    [ϡprogram.as] and [ϡprogram.bs] is not part of the sources. Following
    section 6 of the specification, a code block is a function of the
    current match data and of the label bindings (the A stack, top frame
    first); it returns a value and an optional error, or panics. *)
Inductive athunk_result :=
| ARet (val : value) (err : option error)
| APanic (pv : panic_val).

Inductive bthunk_result :=
| BRet (val : bool) (err : option error)
| BPanic (pv : panic_val).

Definition athunk := current → list ϡargsSet → athunk_result.
Definition bthunk := current → list ϡargsSet → bthunk_result.

(** [ϡprogram] *)
Record ϡprogram := {
  instrs : list ϡinstr;
  ms : list ϡmatcher;
  as_ : list athunk;
  bs : list bthunk;
  ss : list string;
}.

(** [ϡvm], with the fields of its parser inlined. The stacks are lists, top
    first. The A stack is never read below its stack pointer, but its [pop]
    decrements the pointer without looking at the array: [vm_a_neg] counts
    how far below zero the pointer is. *)
Record ϡvm := {
  filename : string;
  parser_data : list byte;
  parser_pt : ϡsvpt;
  memoize : bool;
  recover : bool;
  pc : Z;
  cur : current;
  vm_p : list ϡsvpt;
  vm_l : list (list Z);
  vm_v : list value;
  vm_i : list Z;
  vm_a : list ϡargsSet;
  vm_a_neg : nat;
  memo : gmap Z (gmap Z ϡmemoizedResult);
  ffp : ϡffp;
  matchCnt : Z;
  callCnt : Z;
  actionCnt : Z;
  codePredCnt : Z;
  errs : errList;
}.

Definition set_parser_pt (x : ϡsvpt) (st : ϡvm) : ϡvm :=
  {| filename := filename st; parser_data := parser_data st; parser_pt := x;
     memoize := memoize st; recover := recover st; pc := pc st;
     cur := cur st; vm_p := vm_p st; vm_l := vm_l st; vm_v := vm_v st;
     vm_i := vm_i st; vm_a := vm_a st; vm_a_neg := vm_a_neg st;
     memo := memo st; ffp := ffp st; matchCnt := matchCnt st;
     callCnt := callCnt st; actionCnt := actionCnt st;
     codePredCnt := codePredCnt st; errs := errs st |}.

Definition set_memoize (x : bool) (st : ϡvm) : ϡvm :=
  {| filename := filename st; parser_data := parser_data st;
     parser_pt := parser_pt st; memoize := x; recover := recover st;
     pc := pc st; cur := cur st; vm_p := vm_p st; vm_l := vm_l st;
     vm_v := vm_v st; vm_i := vm_i st; vm_a := vm_a st;
     vm_a_neg := vm_a_neg st; memo := memo st; ffp := ffp st;
     matchCnt := matchCnt st; callCnt := callCnt st;
     actionCnt := actionCnt st; codePredCnt := codePredCnt st;
     errs := errs st |}.

Definition set_pc (x : Z) (st : ϡvm) : ϡvm :=
  {| filename := filename st; parser_data := parser_data st;
     parser_pt := parser_pt st; memoize := memoize st; recover := recover st;
     pc := x; cur := cur st; vm_p := vm_p st; vm_l := vm_l st;
     vm_v := vm_v st; vm_i := vm_i st; vm_a := vm_a st;
     vm_a_neg := vm_a_neg st; memo := memo st; ffp := ffp st;
     matchCnt := matchCnt st; callCnt := callCnt st;
     actionCnt := actionCnt st; codePredCnt := codePredCnt st;
     errs := errs st |}.

Definition set_cur (x : current) (st : ϡvm) : ϡvm :=
  {| filename := filename st; parser_data := parser_data st;
     parser_pt := parser_pt st; memoize := memoize st; recover := recover st;
     pc := pc st; cur := x; vm_p := vm_p st; vm_l := vm_l st;
     vm_v := vm_v st; vm_i := vm_i st; vm_a := vm_a st;
     vm_a_neg := vm_a_neg st; memo := memo st; ffp := ffp st;
     matchCnt := matchCnt st; callCnt := callCnt st;
     actionCnt := actionCnt st; codePredCnt := codePredCnt st;
     errs := errs st |}.

Definition set_vm_p (x : list ϡsvpt) (st : ϡvm) : ϡvm :=
  {| filename := filename st; parser_data := parser_data st;
     parser_pt := parser_pt st; memoize := memoize st; recover := recover st;
     pc := pc st; cur := cur st; vm_p := x; vm_l := vm_l st; vm_v := vm_v st;
     vm_i := vm_i st; vm_a := vm_a st; vm_a_neg := vm_a_neg st;
     memo := memo st; ffp := ffp st; matchCnt := matchCnt st;
     callCnt := callCnt st; actionCnt := actionCnt st;
     codePredCnt := codePredCnt st; errs := errs st |}.

Definition set_vm_l (x : list (list Z)) (st : ϡvm) : ϡvm :=
  {| filename := filename st; parser_data := parser_data st;
     parser_pt := parser_pt st; memoize := memoize st; recover := recover st;
     pc := pc st; cur := cur st; vm_p := vm_p st; vm_l := x; vm_v := vm_v st;
     vm_i := vm_i st; vm_a := vm_a st; vm_a_neg := vm_a_neg st;
     memo := memo st; ffp := ffp st; matchCnt := matchCnt st;
     callCnt := callCnt st; actionCnt := actionCnt st;
     codePredCnt := codePredCnt st; errs := errs st |}.

Definition set_vm_v (x : list value) (st : ϡvm) : ϡvm :=
  {| filename := filename st; parser_data := parser_data st;
     parser_pt := parser_pt st; memoize := memoize st; recover := recover st;
     pc := pc st; cur := cur st; vm_p := vm_p st; vm_l := vm_l st; vm_v := x;
     vm_i := vm_i st; vm_a := vm_a st; vm_a_neg := vm_a_neg st;
     memo := memo st; ffp := ffp st; matchCnt := matchCnt st;
     callCnt := callCnt st; actionCnt := actionCnt st;
     codePredCnt := codePredCnt st; errs := errs st |}.

Definition set_vm_i (x : list Z) (st : ϡvm) : ϡvm :=
  {| filename := filename st; parser_data := parser_data st;
     parser_pt := parser_pt st; memoize := memoize st; recover := recover st;
     pc := pc st; cur := cur st; vm_p := vm_p st; vm_l := vm_l st;
     vm_v := vm_v st; vm_i := x; vm_a := vm_a st; vm_a_neg := vm_a_neg st;
     memo := memo st; ffp := ffp st; matchCnt := matchCnt st;
     callCnt := callCnt st; actionCnt := actionCnt st;
     codePredCnt := codePredCnt st; errs := errs st |}.

Definition set_vm_a (x : list ϡargsSet) (st : ϡvm) : ϡvm :=
  {| filename := filename st; parser_data := parser_data st;
     parser_pt := parser_pt st; memoize := memoize st; recover := recover st;
     pc := pc st; cur := cur st; vm_p := vm_p st; vm_l := vm_l st;
     vm_v := vm_v st; vm_i := vm_i st; vm_a := x; vm_a_neg := vm_a_neg st;
     memo := memo st; ffp := ffp st; matchCnt := matchCnt st;
     callCnt := callCnt st; actionCnt := actionCnt st;
     codePredCnt := codePredCnt st; errs := errs st |}.

Definition set_vm_a_neg (x : nat) (st : ϡvm) : ϡvm :=
  {| filename := filename st; parser_data := parser_data st;
     parser_pt := parser_pt st; memoize := memoize st; recover := recover st;
     pc := pc st; cur := cur st; vm_p := vm_p st; vm_l := vm_l st;
     vm_v := vm_v st; vm_i := vm_i st; vm_a := vm_a st; vm_a_neg := x;
     memo := memo st; ffp := ffp st; matchCnt := matchCnt st;
     callCnt := callCnt st; actionCnt := actionCnt st;
     codePredCnt := codePredCnt st; errs := errs st |}.

Definition set_memo (x : gmap Z (gmap Z ϡmemoizedResult)) (st : ϡvm) : ϡvm :=
  {| filename := filename st; parser_data := parser_data st;
     parser_pt := parser_pt st; memoize := memoize st; recover := recover st;
     pc := pc st; cur := cur st; vm_p := vm_p st; vm_l := vm_l st;
     vm_v := vm_v st; vm_i := vm_i st; vm_a := vm_a st;
     vm_a_neg := vm_a_neg st; memo := x; ffp := ffp st;
     matchCnt := matchCnt st; callCnt := callCnt st;
     actionCnt := actionCnt st; codePredCnt := codePredCnt st;
     errs := errs st |}.

Definition set_ffp (x : ϡffp) (st : ϡvm) : ϡvm :=
  {| filename := filename st; parser_data := parser_data st;
     parser_pt := parser_pt st; memoize := memoize st; recover := recover st;
     pc := pc st; cur := cur st; vm_p := vm_p st; vm_l := vm_l st;
     vm_v := vm_v st; vm_i := vm_i st; vm_a := vm_a st;
     vm_a_neg := vm_a_neg st; memo := memo st; ffp := x;
     matchCnt := matchCnt st; callCnt := callCnt st;
     actionCnt := actionCnt st; codePredCnt := codePredCnt st;
     errs := errs st |}.

Definition set_matchCnt (x : Z) (st : ϡvm) : ϡvm :=
  {| filename := filename st; parser_data := parser_data st;
     parser_pt := parser_pt st; memoize := memoize st; recover := recover st;
     pc := pc st; cur := cur st; vm_p := vm_p st; vm_l := vm_l st;
     vm_v := vm_v st; vm_i := vm_i st; vm_a := vm_a st;
     vm_a_neg := vm_a_neg st; memo := memo st; ffp := ffp st; matchCnt := x;
     callCnt := callCnt st; actionCnt := actionCnt st;
     codePredCnt := codePredCnt st; errs := errs st |}.

Definition set_callCnt (x : Z) (st : ϡvm) : ϡvm :=
  {| filename := filename st; parser_data := parser_data st;
     parser_pt := parser_pt st; memoize := memoize st; recover := recover st;
     pc := pc st; cur := cur st; vm_p := vm_p st; vm_l := vm_l st;
     vm_v := vm_v st; vm_i := vm_i st; vm_a := vm_a st;
     vm_a_neg := vm_a_neg st; memo := memo st; ffp := ffp st;
     matchCnt := matchCnt st; callCnt := x; actionCnt := actionCnt st;
     codePredCnt := codePredCnt st; errs := errs st |}.

Definition set_actionCnt (x : Z) (st : ϡvm) : ϡvm :=
  {| filename := filename st; parser_data := parser_data st;
     parser_pt := parser_pt st; memoize := memoize st; recover := recover st;
     pc := pc st; cur := cur st; vm_p := vm_p st; vm_l := vm_l st;
     vm_v := vm_v st; vm_i := vm_i st; vm_a := vm_a st;
     vm_a_neg := vm_a_neg st; memo := memo st; ffp := ffp st;
     matchCnt := matchCnt st; callCnt := callCnt st; actionCnt := x;
     codePredCnt := codePredCnt st; errs := errs st |}.

Definition set_codePredCnt (x : Z) (st : ϡvm) : ϡvm :=
  {| filename := filename st; parser_data := parser_data st;
     parser_pt := parser_pt st; memoize := memoize st; recover := recover st;
     pc := pc st; cur := cur st; vm_p := vm_p st; vm_l := vm_l st;
     vm_v := vm_v st; vm_i := vm_i st; vm_a := vm_a st;
     vm_a_neg := vm_a_neg st; memo := memo st; ffp := ffp st;
     matchCnt := matchCnt st; callCnt := callCnt st;
     actionCnt := actionCnt st; codePredCnt := x; errs := errs st |}.

Definition set_errs (x : errList) (st : ϡvm) : ϡvm :=
  {| filename := filename st; parser_data := parser_data st;
     parser_pt := parser_pt st; memoize := memoize st; recover := recover st;
     pc := pc st; cur := cur st; vm_p := vm_p st; vm_l := vm_l st;
     vm_v := vm_v st; vm_i := vm_i st; vm_a := vm_a st;
     vm_a_neg := vm_a_neg st; memo := memo st; ffp := ffp st;
     matchCnt := matchCnt st; callCnt := callCnt st;
     actionCnt := actionCnt st; codePredCnt := codePredCnt st; errs := x |}.

Definition set_recover (x : bool) (st : ϡvm) : ϡvm :=
  {| filename := filename st; parser_data := parser_data st;
     parser_pt := parser_pt st; memoize := memoize st; recover := x;
     pc := pc st; cur := cur st; vm_p := vm_p st; vm_l := vm_l st;
     vm_v := vm_v st; vm_i := vm_i st; vm_a := vm_a st;
     vm_a_neg := vm_a_neg st; memo := memo st; ffp := ffp st;
     matchCnt := matchCnt st; callCnt := callCnt st;
     actionCnt := actionCnt st; codePredCnt := codePredCnt st;
     errs := errs st |}.

(** Indexing a slice by a Go integer; [None] is out of range. *)
Definition lookupZ {A} (l : list A) (i : Z) : option A :=
  if decide (0 ≤ i) then l !! Z.to_nat i else None.

(** The runtime errors of Go that the machine can raise. *)
Definition rt_index : panic_val :=
  PanicErr (ErrRuntime "runtime error: index out of range").
Definition rt_slice : panic_val :=
  PanicErr (ErrRuntime "runtime error: slice bounds out of range").

(** The result of one instruction: the machine goes on, [Exit] returned a
    value, or the instruction panicked. *)
Inductive outcome :=
| Running (st : ϡvm)
| Exited (ret : value) (st : ϡvm)
| Panicked (pv : panic_val) (st : ϡvm).

(** [ϡprogram.ruleNameAt] *)
Definition ruleNameAt (pg : ϡprogram) (ix : Z) : string :=
  if decide (ix < 0 ∨ Z.of_nat (length (ss pg)) ≤ ix) then ""
  else default "" (ss pg !! Z.to_nat ix).

Definition zero_position : position := {| line := 0; col := 0; offset := 0 |}.

(** [ϡvm.addErrAt] *)
Definition addErrAt (pg : ϡprogram) (err : error) (ruleNmIx : Z)
    (pos : position) (st : ϡvm) : ϡvm :=
  let buf := (if decide (filename st = "") then "" else filename st +:+ ":")
             +:+ position_String pos in
  let ruleNm := ruleNameAt pg ruleNmIx in
  let buf := if decide (ruleNm = "") then buf
             else buf +:+ ": " +:+ "rule " +:+ ruleNm in
  set_errs (ϡadd (errs st)
              (Some {| Inner := err; ϡpos := zero_position; ϡprefix := buf |}))
           st.

(** [ϡvm.addErr] *)
Definition addErr (pg : ϡprogram) (err : error) (st : ϡvm) : ϡvm :=
  addErrAt pg err (-1) (pos (parser_pt st)) st.

(** [ϡvm.fromMemo]: [Some] is the machine after a hit, [None] a miss. *)
Definition fromMemo (ix : Z) (pt : ϡsvpt) (st : ϡvm) : option ϡvm :=
  m ← memo st !! ix;
  result ← m !! offset (pos pt);
  Some (set_vm_v (mr_v result :: vm_v st) (set_parser_pt (mr_pt result) st)).

(** [ϡvm.memoizeMatch]; [None] when [sliceFrom] panics. *)
Definition memoizeMatch (ix : Z) (pt : ϡsvpt) (match_ : bool) (st : ϡvm)
  : option ϡvm :=
  let m := default ∅ (memo st !! ix) in
  if match_ then
    b ← sliceFrom (parser_data st) (parser_pt st) pt;
    Some (set_memo
            (<[ix := <[offset (pos pt) :=
                         {| mr_v := VBytes b; mr_pt := parser_pt st |}]> m]>
               (memo st)) st)
  else
    Some (set_memo
            (<[ix := <[offset (pos pt) := {| mr_v := VFailed; mr_pt := pt |}]> m]>
               (memo st)) st).

(** [uint16] arithmetic on the program counter. *)
Definition pc_incr (x : Z) : Z := (x + 1) mod 65536.
Definition pc_decr (x : Z) : Z := (x - 1) mod 65536.

Definition invalid_arg (o : ϡop) (a : Z) : panic_val :=
  PanicVal ("invalid " +:+ op_String o +:+ " argument: " +:+ pretty a).

(** [thunk_at l a0]: the bounds check [int(instr.args[0]) >= len(l)] and the
    indexing that follows it. *)
Definition thunk_at {A} (l : list A) (a0 : Z) : option A :=
  if decide (Z.of_nat (length l) ≤ a0) then None else lookupZ l a0.

(** *** The cases of the switch of [dispatch]

    Each takes the instruction and the machine after the increment of the
    program counter. *)

Definition do_Call (st : ϡvm) : outcome :=
  match vm_i st with
  | [] => Panicked rt_index st
  | ix :: rest =>
    Running (set_callCnt (callCnt st + 1)
               (set_pc ix (set_vm_i (pc st :: rest) st)))
  end.

Definition do_CallA (pg : ϡprogram) (instr : ϡinstr) (st : ϡvm) : outcome :=
  match vm_v st with
  | [] => Panicked rt_index st
  | _ :: vs =>
    let st := set_vm_v vs st in
    match vm_p st with
    | [] => Panicked rt_index st
    | start :: ps =>
      let st := set_vm_p ps st in
      let st := set_cur {| cur_pos := pos start; cur_text := cur_text (cur st) |} st in
      match sliceFrom (parser_data st) (parser_pt st) start with
      | None => Panicked rt_slice st
      | Some txt =>
        let st := set_cur {| cur_pos := pos start; cur_text := Some txt |} st in
        match args instr !! 0%nat with
        | None => Panicked rt_index st
        | Some a0 =>
          match thunk_at (as_ pg) a0 with
          | None => Panicked (invalid_arg (op instr) a0) st
          | Some fn =>
            match fn (cur st) (vm_a st) with
            | APanic pv => Panicked pv st
            | ARet val err =>
              let st := match err with
                        | Some e => addErrAt pg e (ruleNmIx instr) (pos start) st
                        | None => st
                        end in
              Running (set_actionCnt (actionCnt st + 1)
                         (set_vm_v (val :: vm_v st) st))
            end
          end
        end
      end
    end
  end.

Definition do_CallB (pg : ϡprogram) (instr : ϡinstr) (st : ϡvm) : outcome :=
  let st := set_cur {| cur_pos := pos (parser_pt st); cur_text := None |} st in
  match args instr !! 0%nat with
  | None => Panicked rt_index st
  | Some a0 =>
    match thunk_at (bs pg) a0 with
    | None => Panicked (invalid_arg (op instr) a0) st
    | Some fn =>
      match fn (cur st) (vm_a st) with
      | BPanic pv => Panicked pv st
      | BRet val err =>
        let st := match err with
                  | Some e => addErrAt pg e (ruleNmIx instr) (pos (parser_pt st)) st
                  | None => st
                  end in
        let st := set_codePredCnt (codePredCnt st + 1) st in
        if negb val then Running (set_vm_v (VFailed :: vm_v st) st)
        else Running (set_vm_v (VNil :: vm_v st) st)
      end
    end
  end.

(** The message of the panic of the default case leaves out the name of
    the type, which [%T] prints. *)
Definition do_CumulOrF (instr : ϡinstr) (st : ϡvm) : outcome :=
  match vm_v st with
  | [] => Panicked rt_index st
  | va :: vs1 =>
    match vs1 with
    | [] => Panicked rt_index (set_vm_v vs1 st)
    | vb :: vs =>
      if is_failed va then Running (set_vm_v (VFailed :: vs) st)
      else
        match vb with
        | VList lb => Running (set_vm_v (VList (lb ++ [va]) :: vs) st)
        | VFailed => Running (set_vm_v (VList [va] :: vs) st)
        | _ =>
          Panicked (PanicVal ("invalid " +:+ op_String (op instr)
                              +:+ " value type on the V stack"))
                   (set_vm_v vs st)
        end
    end
  end.

Definition do_Exit (st : ϡvm) : outcome :=
  match vm_v st with
  | [] => Panicked rt_index st
  | top :: vs => Exited top (set_vm_v vs st)
  end.

Definition do_Jump (instr : ϡinstr) (st : ϡvm) : outcome :=
  match args instr !! 0%nat with
  | None => Panicked rt_index st
  | Some a0 => Running (set_pc a0 st)
  end.

Definition do_JumpIfF (instr : ϡinstr) (st : ϡvm) : outcome :=
  match vm_v st with
  | [] => Panicked rt_index st
  | top :: _ => if is_failed top then do_Jump instr st else Running st
  end.

Definition do_JumpIfT (instr : ϡinstr) (st : ϡvm) : outcome :=
  match vm_v st with
  | [] => Panicked rt_index st
  | top :: _ => if negb (is_failed top) then do_Jump instr st else Running st
  end.

(** The text [fmt.Sprintf("%s", m)] gives for a matcher: [fmt] catches a
    panic of the [String] method and prints it. *)
Definition matcher_Sprintf (m : ϡmatcher) : string :=
  default "%!s(PANIC=String method: runtime error: index out of range)"
          (matcher_String m).

(** The update of the farthest failure position after a failed match that
    started at [start]. *)
Definition ffp_update (instr : ϡinstr) (m : ϡmatcher) (start : ϡsvpt)
    (f : ϡffp) : ϡffp :=
  if decide (offset (pos start) > offset (ffp_pos f)) then
    {| ffp_pos := pos start; ffp_ruleNmIx := ruleNmIx instr;
       ffp_rn := rn start; ffp_want := matcher_Sprintf m |}
  else f.

Definition do_Match (pg : ϡprogram) (instr : ϡinstr) (st : ϡvm) : outcome :=
  let start := parser_pt st in
  let ix := pc_decr (pc st) in
  match (if memoize st then fromMemo ix start st else None) with
  | Some st' => Running st'
  | None =>
    match args instr !! 0%nat with
    | None => Panicked rt_index st
    | Some a0 =>
      match thunk_at (ms pg) a0 with
      | None => Panicked (invalid_arg (op instr) a0) st
      | Some m =>
        match matcher_match m (parser_data st) start with
        | MatchPanic e pt' => Panicked (PanicErr e) (set_parser_pt pt' st)
        | MatchRet ok pt' =>
          let st := set_parser_pt pt' st in
          match (if memoize st then memoizeMatch ix start ok st else Some st) with
          | None => Panicked rt_slice st
          | Some st =>
            let st := set_matchCnt (matchCnt st + 1) st in
            if ok then
              match sliceFrom (parser_data st) (parser_pt st) start with
              | None => Panicked rt_slice st
              | Some b => Running (set_vm_v (VBytes b :: vm_v st) st)
              end
            else
              let st := set_ffp (ffp_update instr m start (ffp st)) st in
              Running (set_parser_pt start (set_vm_v (VFailed :: vm_v st) st))
          end
        end
      end
    end
  end.

Definition do_NilIfF (st : ϡvm) : outcome :=
  match vm_v st with
  | [] => Panicked rt_index st
  | top :: vs =>
    if is_failed top then Running (set_vm_v (VNil :: vs) st)
    else Running (set_vm_v (VFailed :: vs) st)
  end.

Definition do_NilIfT (st : ϡvm) : outcome :=
  match vm_v st with
  | [] => Panicked rt_index st
  | top :: vs =>
    if negb (is_failed top) then Running (set_vm_v (VNil :: vs) st)
    else Running (set_vm_v (VFailed :: vs) st)
  end.

(** [ϡastack.pop]: only the stack pointer moves. *)
Definition astack_pop (st : ϡvm) : ϡvm :=
  match vm_a st with
  | _ :: fs => set_vm_a fs st
  | [] => set_vm_a_neg (S (vm_a_neg st)) st
  end.

(** [ϡastack.push]; [None] when the stack pointer is negative. *)
Definition astack_push (st : ϡvm) : option ϡvm :=
  if decide (vm_a_neg st = 0%nat) then Some (set_vm_a (∅ :: vm_a st) st)
  else None.

Definition do_Pop (instr : ϡinstr) (st : ϡvm) : outcome :=
  match args instr !! 0%nat with
  | None => Panicked rt_index st
  | Some a0 =>
    if decide (a0 = ϡlstackID) then
      match vm_l st with
      | [] => Panicked rt_index st
      | _ :: ls => Running (set_vm_l ls st)
      end
    else if decide (a0 = ϡpstackID) then
      match vm_p st with
      | [] => Panicked rt_index st
      | _ :: ps => Running (set_vm_p ps st)
      end
    else if decide (a0 = ϡastackID) then Running (astack_pop st)
    else if decide (a0 = ϡvstackID) then
      match vm_v st with
      | [] => Panicked rt_index st
      | _ :: vs => Running (set_vm_v vs st)
      end
    else Panicked (invalid_arg (op instr) a0) st
  end.

Definition do_PopVJumpIfF (instr : ϡinstr) (st : ϡvm) : outcome :=
  match vm_v st with
  | [] => Panicked rt_index st
  | top :: vs =>
    if is_failed top then do_Jump instr (set_vm_v vs st) else Running st
  end.

Definition do_Push (instr : ϡinstr) (st : ϡvm) : outcome :=
  match args instr !! 0%nat with
  | None => Panicked rt_index st
  | Some a0 =>
    if decide (a0 = ϡpstackID) then
      Running (set_vm_p (parser_pt st :: vm_p st) st)
    else if decide (a0 = ϡistackID) then
      match args instr !! 1%nat with
      | None => Panicked rt_index st
      | Some a1 => Running (set_vm_i (a1 :: vm_i st) st)
      end
    else if decide (a0 = ϡvstackID) then
      match args instr !! 1%nat with
      | None => Panicked rt_index st
      | Some a1 =>
        match thunk_at ϡvSpecialValues a1 with
        | None =>
          Panicked (PanicVal ("invalid " +:+ op_String (op instr)
                              +:+ " V stack argument: " +:+ pretty a1)) st
        | Some val => Running (set_vm_v (val :: vm_v st) st)
        end
      end
    else if decide (a0 = ϡastackID) then
      match astack_push st with
      | None => Panicked rt_index st
      | Some st' => Running st'
      end
    else if decide (a0 = ϡlstackID) then
      Running (set_vm_l (drop 1 (args instr) :: vm_l st) st)
    else Panicked (invalid_arg (op instr) a0) st
  end.

Definition do_Restore (st : ϡvm) : outcome :=
  match vm_p st with
  | [] => Panicked rt_index st
  | pt :: ps => Running (set_parser_pt pt (set_vm_p ps st))
  end.

Definition do_RestoreIfF (st : ϡvm) : outcome :=
  match vm_p st with
  | [] => Panicked rt_index st
  | pt :: ps =>
    let st := set_vm_p ps st in
    match vm_v st with
    | [] => Panicked rt_index st
    | top :: _ =>
      if is_failed top then Running (set_parser_pt pt st) else Running st
    end
  end.

Definition do_Return (st : ϡvm) : outcome :=
  match vm_i st with
  | [] => Panicked rt_index st
  | ix :: rest => Running (set_pc ix (set_vm_i rest st))
  end.

Definition do_StoreIfT (pg : ϡprogram) (instr : ϡinstr) (st : ϡvm) : outcome :=
  match vm_v st with
  | [] => Panicked rt_index st
  | top :: _ =>
    if negb (is_failed top) then
      match args instr !! 0%nat with
      | None => Panicked rt_index st
      | Some a0 =>
        match thunk_at (ss pg) a0 with
        | None => Panicked (invalid_arg (op instr) a0) st
        | Some lbl =>
          match vm_a st with
          | [] => Panicked rt_index st
          | frame :: fs => Running (set_vm_a (<[lbl := top]> frame :: fs) st)
          end
        end
      end
    else Running st
  end.

(** [ϡlstack.take] followed by the rest of the [takeLOrJump] case. *)
Definition do_TakeLOrJump (instr : ϡinstr) (st : ϡvm) : outcome :=
  match vm_l st with
  | [] => Panicked rt_index st
  | [] :: _ => do_Jump instr st
  | (ix :: rest) :: ls =>
    Running (set_vm_i (ix :: vm_i st) (set_vm_l (rest :: ls) st))
  end.

(** One turn of the loop of [dispatch]: fetch, increment the program
    counter, execute. *)
Definition step (pg : ϡprogram) (st : ϡvm) : outcome :=
  match lookupZ (instrs pg) (pc st) with
  | None => Panicked rt_index st
  | Some instr =>
    let st := set_pc (pc_incr (pc st)) st in
    match op instr with
    | ϡopCall => do_Call st
    | ϡopCallA => do_CallA pg instr st
    | ϡopCallB => do_CallB pg instr st
    | ϡopCumulOrF => do_CumulOrF instr st
    | ϡopExit => do_Exit st
    | ϡopJump => do_Jump instr st
    | ϡopJumpIfF => do_JumpIfF instr st
    | ϡopJumpIfT => do_JumpIfT instr st
    | ϡopMatch => do_Match pg instr st
    | ϡopNilIfF => do_NilIfF st
    | ϡopNilIfT => do_NilIfT st
    | ϡopPop => do_Pop instr st
    | ϡopPopVJumpIfF => do_PopVJumpIfF instr st
    | ϡopPush => do_Push instr st
    | ϡopRestore => do_Restore st
    | ϡopRestoreIfF => do_RestoreIfF st
    | ϡopReturn => do_Return st
    | ϡopStoreIfT => do_StoreIfT pg instr st
    | ϡopTakeLOrJump => do_TakeLOrJump instr st
    | ϡopPlaceholder =>
      Panicked (PanicVal ("unknown opcode " +:+ op_String (op instr))) st
    end
  end.

(** The loop of [dispatch], for at most [fuel] instructions. *)
Inductive loop_result :=
| LoopExit (ret : value) (st : ϡvm)
| LoopPanic (pv : panic_val) (st : ϡvm)
| LoopFuel (st : ϡvm).

Fixpoint loop (pg : ϡprogram) (fuel : nat) (st : ϡvm) : loop_result :=
  match fuel with
  | O => LoopFuel st
  | S fuel' =>
    match step pg st with
    | Running st' => loop pg fuel' st'
    | Exited ret st' => LoopExit ret st'
    | Panicked pv st' => LoopPanic pv st'
    end
  end.

(** The function deferred by [dispatch] when [recover] is set, run on a
    panic with payload [pv]; [None] when it panics itself, on
    [v.pg.instrs[v.pc-1]]. *)
Definition recover_handler (pg : ϡprogram) (pv : panic_val) (st : ϡvm)
  : option ϡvm :=
  ruleIx ← (if decide (pc st > 0)
            then ruleNmIx <$> lookupZ (instrs pg) (pc st - 1)
            else Some (-1));
  match pv with
  | PanicErr e => Some (addErrAt pg e ruleIx (pos (parser_pt st)) st)
  | PanicVal shown =>
    Some (addErrAt pg (ErrOther shown) ruleIx (pos (parser_pt st)) st)
  end.

(** The result of [dispatch]: it returns a value (Go's nil after a
    recovered panic), a panic leaves it, or the fuel of the model ran out. *)
Inductive dispatch_result :=
| DReturn (ret : value) (st : ϡvm)
| DPanic (pv : panic_val) (st : ϡvm)
| DFuel (st : ϡvm).

(** [ϡvm.dispatch] *)
Definition dispatch (pg : ϡprogram) (fuel : nat) (st : ϡvm) : dispatch_result :=
  let r := match read (parser_data st) (parser_pt st) with
           | ReadPanic e pt' => LoopPanic (PanicErr e) (set_parser_pt pt' st)
           | ReadOk pt' => loop pg fuel (set_parser_pt pt' st)
           end in
  match r with
  | LoopExit ret st' => DReturn ret st'
  | LoopFuel st' => DFuel st'
  | LoopPanic pv st' =>
    if recover st' then
      match recover_handler pg pv st' with
      | Some st'' => DReturn VNil st''
      | None => DPanic rt_index st'
      end
    else DPanic pv st'
  end.

(** [ϡffp.err] *)
Definition ffp_err (f : ϡffp) : option error :=
  if decide (0 ≤ offset (ffp_pos f)) then Some (ErrFfp f) else None.

(** The first lines of [run]: fresh stacks and no farthest failure. *)
Definition run_init (st : ϡvm) : ϡvm :=
  set_ffp {| ffp_pos := set_offset (ffp_pos (ffp st)) (-1);
             ffp_ruleNmIx := ffp_ruleNmIx (ffp st);
             ffp_rn := ffp_rn (ffp st); ffp_want := ffp_want (ffp st) |}
    (set_vm_p [] (set_vm_l [] (set_vm_v [] (set_vm_i []
       (set_vm_a_neg 0%nat (set_vm_a [] st)))))).

(** The lines of [run] after [dispatch] returned [ret]: a failed match
    becomes nil, with an error when none was recorded. *)
Definition run_finish (pg : ϡprogram) (ret : value) (st : ϡvm) : value * ϡvm :=
  if is_failed ret then
    (VNil,
     if decide (length (errs st) = 0%nat) then
       match ffp_err (ffp st) with
       | Some err => addErrAt pg err (ffp_ruleNmIx (ffp st)) (ffp_pos (ffp st)) st
       | None => addErr pg errNoMatch st
       end
     else st)
  else (ret, st).

(** What a call of [run] or [Parse] does: return a value and an error,
    panic, or exhaust the fuel of the model. *)
Inductive run_result :=
| Returned (ret : value) (err : option errList)
| Crashed (pv : panic_val)
| Timeout.

(** [ϡvm.run] *)
Definition run (pg : ϡprogram) (fuel : nat) (st : ϡvm) : run_result :=
  match dispatch pg fuel (run_init st) with
  | DReturn ret st' =>
    let '(ret', st'') := run_finish pg ret st' in
    Returned ret' (ϡerr (errs st''))
  | DPanic pv _ => Crashed pv
  | DFuel _ => Timeout
  end.

(** ** pub.go *)

Inductive ParseOption :=
| Debug (b : bool)
| Memoize (b : bool)
| Recover (b : bool).

Definition apply_option (st : ϡvm) (o : ParseOption) : ϡvm :=
  match o with
  | Debug _ => st
  | Memoize b => set_memoize b st
  | Recover b => set_recover b st
  end.

(** [ϡvm.setOptions] *)
Definition setOptions (opts : list ParseOption) (st : ϡvm) : ϡvm :=
  foldl apply_option st opts.

Definition zero_ffp : ϡffp :=
  {| ffp_pos := zero_position; ffp_ruleNmIx := 0; ffp_rn := 0; ffp_want := "" |}.

(** The machine [Parse] builds before it applies the options. *)
Definition new_vm (filename : string) (b : list byte) : ϡvm :=
  {| filename := filename; parser_data := b;
     parser_pt := {| pos := {| line := 1; col := 0; offset := 0 |};
                     rn := 0; w := 0 |};
     memoize := false; recover := true; pc := 0;
     cur := {| cur_pos := zero_position; cur_text := None |};
     vm_p := []; vm_l := []; vm_v := []; vm_i := []; vm_a := [];
     vm_a_neg := 0%nat; memo := ∅; ffp := zero_ffp;
     matchCnt := 0; callCnt := 0; actionCnt := 0; codePredCnt := 0;
     errs := [] |}.

(** [Parse], on the program [ϡtheProgram]. *)
Definition Parse (ϡtheProgram : ϡprogram) (fuel : nat) (filename : string)
    (b : list byte) (opts : list ParseOption) : run_result :=
  run ϡtheProgram fuel (setOptions opts (new_vm filename b)).

End Runtime.

(** ** The instruction blocks of the generator

    The blocks the generator emits for an expression, as the helpers of its
    tests build them ([encodeBootstrap], [encodeMatcher], ...). A block is a
    list of opcodes with their arguments, one element for each instruction
    of [ϡvm]; [with_rule] attaches the index of the rule name the
    generator records for each instruction. *)
Abbreviation code := (list (ϡop * list Z)).

Definition mustEncodeInstr (o : ϡop) (args : list Z) : code := [(o, args)].

Definition combineInstrs (instrs : list code) : code := concat instrs.

Definition with_rule (rule : Z) (c : code) : list ϡinstr :=
  map (λ '(o, a), {| op := o; ruleNmIx := rule; args := a |}) c.

Definition encodeBootstrap (start : Z) : code :=
  combineInstrs [
    mustEncodeInstr ϡopPush [ϡistackID; start];
    mustEncodeInstr ϡopPush [ϡastackID];
    mustEncodeInstr ϡopCall [];
    mustEncodeInstr ϡopExit []
  ].

Definition encodeMatcher (mIx : Z) : code :=
  combineInstrs [
    mustEncodeInstr ϡopPush [ϡpstackID];
    mustEncodeInstr ϡopMatch [mIx];
    mustEncodeInstr ϡopRestoreIfF [];
    mustEncodeInstr ϡopReturn []
  ].

Definition encodeChoice (start : Z) (ls : list Z) : code :=
  combineInstrs [
    mustEncodeInstr ϡopPush (ϡlstackID :: ls);
    mustEncodeInstr ϡopTakeLOrJump [start + 7];
    mustEncodeInstr ϡopPush [ϡastackID];
    mustEncodeInstr ϡopCall [];
    mustEncodeInstr ϡopPop [ϡastackID];
    mustEncodeInstr ϡopJumpIfT [start + 7];
    mustEncodeInstr ϡopJump [start + 1];
    mustEncodeInstr ϡopPop [ϡlstackID];
    mustEncodeInstr ϡopReturn []
  ].

Definition encodeRepetition (start : Z) (vVal : Z) (ix : Z) : code :=
  combineInstrs [
    mustEncodeInstr ϡopPush [ϡvstackID; vVal];
    mustEncodeInstr ϡopPush [ϡistackID; ix];
    mustEncodeInstr ϡopPush [ϡastackID];
    mustEncodeInstr ϡopCall [];
    mustEncodeInstr ϡopPop [ϡastackID];
    mustEncodeInstr ϡopPopVJumpIfF [start + 8];
    mustEncodeInstr ϡopCumulOrF [];
    mustEncodeInstr ϡopJump [start + 1];
    mustEncodeInstr ϡopReturn []
  ].

Definition encodeCodePredicate (and : bool) (bIx : Z) : code :=
  let o := if and then ϡopNilIfT else ϡopNilIfF in
  combineInstrs [
    mustEncodeInstr ϡopCallB [bIx];
    mustEncodeInstr o [];
    mustEncodeInstr ϡopReturn []
  ].

Definition encodeAction (start actIx ix : Z) : code :=
  combineInstrs [
    mustEncodeInstr ϡopPush [ϡpstackID];
    mustEncodeInstr ϡopPush [ϡistackID; ix];
    mustEncodeInstr ϡopCall [];
    mustEncodeInstr ϡopJumpIfF [start + 6];
    mustEncodeInstr ϡopCallA [actIx];
    mustEncodeInstr ϡopReturn [];
    mustEncodeInstr ϡopPop [ϡpstackID];
    mustEncodeInstr ϡopReturn []
  ].

(** ** Concrete programs and inputs used to run the model *)

Definition hex_digit (n : Z) : string :=
  default "?" (["0";"1";"2";"3";"4";"5";"6";"7";"8";"9";"A";"B";"C";"D";"E";"F"]
               !! Z.to_nat n).

Definition char_string (r : Z) : string :=
  String (Ascii.ascii_of_N (Z.to_N r)) EmptyString.

(** The library functions on ASCII, where the examples stay. *)
Definition ascii_lib : golib := {|
  ToLower := λ r, if (65 <=? r) && (r <=? 90) then r + 32 else r;
  Quote := λ s, char_string 34 +:+ s +:+ char_string 34;
  fmt_c := char_string;
  fmt_U := λ r, "U+00" +:+ hex_digit (r / 16) +:+ hex_digit (r mod 16)
                +:+ " '" +:+ char_string r +:+ "'";
|}.

Definition bytes (s : string) : list byte := String.list_byte_of_string s.

(** The program of the grammar [A = 'a']. *)
Definition prog_lit_a : ϡprogram := {|
  instrs := with_rule (-1) (encodeBootstrap 4) ++ with_rule 0 (encodeMatcher 0);
  ms := [ϡstringMatcher false "a"];
  as_ := []; bs := []; ss := ["A"];
|}.


(** The program of the grammar [A = ('a' / 'b')+]: the two literals at 4
    and 8, the choice at 12 and the repetition, the body of the rule, at
    21. *)
Definition prog_rep_choice : ϡprogram := {|
  instrs := with_rule (-1) (encodeBootstrap 21)
            ++ with_rule 0 (encodeMatcher 0)
            ++ with_rule 0 (encodeMatcher 1)
            ++ with_rule 0 (encodeChoice 12 [4; 8])
            ++ with_rule 0 (encodeRepetition 21 ϡvValFailed 12);
  ms := [ϡstringMatcher false "a"; ϡstringMatcher false "b"];
  as_ := []; bs := []; ss := ["A"];
|}.

(** The program of the grammar [A = 'a' / 'b']: the literals at 4 and 8, the
    choice at 12. *)
Definition prog_choice : ϡprogram := {|
  instrs := with_rule (-1) (encodeBootstrap 12)
            ++ with_rule 0 (encodeMatcher 0)
            ++ with_rule 0 (encodeMatcher 1)
            ++ with_rule 0 (encodeChoice 12 [4; 8]);
  ms := [ϡstringMatcher false "a"; ϡstringMatcher false "b"];
  as_ := []; bs := []; ss := ["A"];
|}.

(** The program of the grammar [A = 'a' { x }], whose action returns a
    value together with an error. *)
Definition prog_action : ϡprogram := {|
  instrs := with_rule (-1) (encodeBootstrap 8)
            ++ with_rule 0 (encodeMatcher 0)
            ++ with_rule 0 (encodeAction 8 0 4);
  ms := [ϡstringMatcher false "a"];
  as_ := [λ _ _, ARet (VUser 42) (Some (ErrOther "boom"))];
  bs := []; ss := ["A"];
|}.


(** A program whose choice runs the same block twice: the literal ['a'] at
    4 is both alternatives of the choice at 8, so with memoization the
    second call finds the result of the first in the table. *)
Definition prog_twice : ϡprogram := {|
  instrs := with_rule (-1) (encodeBootstrap 8)
            ++ with_rule 0 (encodeMatcher 0)
            ++ with_rule 0 (encodeChoice 8 [4; 4]);
  ms := [ϡstringMatcher false "a"];
  as_ := []; bs := []; ss := ["A"];
|}.

(** [steps pg n st]: the machine after [n] instructions, when none of them
    exits or panics. *)
Fixpoint steps (lib : golib) (pg : ϡprogram) (n : nat) (st : ϡvm) : option ϡvm :=
  match n with
  | O => Some st
  | S n' =>
    match step lib pg st with
    | Running st' => steps lib pg n' st'
    | _ => None
    end
  end.

(** [instrPath] of [dispatch]: the indices of the instructions that [n]
    turns of the loop execute, while none of them exits or panics. *)
Fixpoint instrPath (lib : golib) (pg : ϡprogram) (n : nat) (st : ϡvm) : list Z :=
  match n with
  | O => []
  | S n' =>
    pc st :: match step lib pg st with
             | Running st' => instrPath lib pg n' st'
             | _ => []
             end
  end.

(** The machine [run] hands to the loop of [dispatch]: after the first
    lines of [run] and the first [read]. *)
Definition primed (st : ϡvm) : option ϡvm :=
  match read (parser_data st) (parser_pt (run_init st)) with
  | ReadOk pt' => Some (set_parser_pt pt' (run_init st))
  | ReadPanic _ _ => None
  end.

(** The machine after [n] instructions of [pg] on the input [s], started as
    [Parse] starts it without options; the machine [Parse] builds when the
    run does not get that far. *)
Definition machine_after (pg : ϡprogram) (s : string) (n : nat) : ϡvm :=
  default (new_vm "" (bytes s))
          (primed (new_vm "" (bytes s)) ≫= steps ascii_lib pg n).

(** The program of the grammar [A = !{ q } / !{ q }]: the code predicates at
    4 and 7, the choice at 10. Both predicates are true and return the same
    error. *)
Definition prog_twice_error : ϡprogram := {|
  instrs := with_rule (-1) (encodeBootstrap 10)
            ++ with_rule 0 (encodeCodePredicate false 0)
            ++ with_rule 0 (encodeCodePredicate false 1)
            ++ with_rule 0 (encodeChoice 10 [4; 7]);
  ms := []; as_ := [];
  bs := [λ _ _, BRet true (Some (ErrOther "bad"));
         λ _ _, BRet true (Some (ErrOther "bad"))];
  ss := ["A"];
|}.

(** The machine [dispatch] returns with, for [pg] on the input [s]. *)
Definition machine_returned (pg : ϡprogram) (s : string) (fuel : nat) : ϡvm :=
  match dispatch ascii_lib pg fuel (run_init (new_vm "" (bytes s))) with
  | DReturn _ st => st
  | DPanic _ st => st
  | DFuel st => st
  end.

(** The savepoint of the parser at the end of the empty input. *)
Definition eof_pt : ϡsvpt :=
  {| pos := {| line := 1; col := 0; offset := 0 |}; rn := RuneError; w := 0 |}.

(** ** Notions used to state the properties *)

Section Notions.
Variable lib : golib.

(** The elements of an error list whose message occurs for the first time,
    in the order of the list. *)
Definition first_occurrences (e : errList) : errList :=
  omap (λ i, x ← e !! i;
             if decide (Error lib x ∈ Error lib <$> take i e) then None
             else Some x)
       (seq 0 (length e)).

(** The code points seen by [n] successive [peek]s, each followed by a
    [read], and the savepoint after them; [None] when a [read] panics. *)
Fixpoint read_runes (n : nat) (data : list byte) (pt : ϡsvpt)
  : option (list Z * ϡsvpt) :=
  match n with
  | O => Some ([], pt)
  | S n' =>
    match read data pt with
    | ReadOk pt' =>
      '(rs, pt'') ← read_runes n' data pt'; Some (rn pt :: rs, pt'')
    | ReadPanic _ _ => None
    end
  end.

(** The ranges of a character class as pairs of end points. *)
Fixpoint range_pairs (rs : list Z) : list (Z * Z) :=
  match rs with
  | lo :: hi :: rest => (lo, hi) :: range_pairs rest
  | _ => []
  end.

(** The parser is at the end of the input: nothing is left after the
    cursor, and the current code point is the decoding error of width 0. *)
Definition at_eof (data : list byte) (pt : ϡsvpt) : Prop :=
  offset (pos pt) = Z.of_nat (length data) ∧ rn pt = RuneError ∧ w pt = 0.

(** The values of Go's type [uint16]. *)
Definition uint16 (x : Z) : Prop := 0 ≤ x < 65536.

(** The arguments of the instructions of a program are of type [uint16]. *)
Definition uint16_program (pg : ϡprogram) : Prop :=
  Forall (λ ins, Forall uint16 (args ins)) (instrs pg).

(** The savepoint of the parser [Parse] starts from. *)
Definition start_pt : ϡsvpt :=
  {| pos := {| line := 1; col := 0; offset := 0 |}; rn := 0; w := 0 |}.

(** The savepoints the parser goes through when it reads the input from its
    start. *)
Inductive canon (data : list byte) : ϡsvpt → Prop :=
| canon_first pt : read data start_pt = ReadOk pt → canon data pt
| canon_next pt pt' :
    canon data pt → read data pt = ReadOk pt' → canon data pt'.

(** [reads data pt pt']: some number of [read]s lead from [pt] to [pt']. *)
Inductive reads (data : list byte) : ϡsvpt → ϡsvpt → Prop :=
| reads_refl pt : reads data pt pt
| reads_step pt pt1 pt' :
    read data pt = ReadOk pt1 → reads data pt1 pt' → reads data pt pt'.

(** The machine without memoization that corresponds to [st]: no table,
    the option off, and its own count [c] of executed matches. *)
Definition plain (c : Z) (st : ϡvm) : ϡvm :=
  {| filename := filename st; parser_data := parser_data st;
     parser_pt := parser_pt st; memoize := false; recover := recover st;
     pc := pc st; cur := cur st; vm_p := vm_p st; vm_l := vm_l st;
     vm_v := vm_v st; vm_i := vm_i st; vm_a := vm_a st;
     vm_a_neg := vm_a_neg st; memo := ∅; ffp := ffp st;
     matchCnt := c; callCnt := callCnt st; actionCnt := actionCnt st;
     codePredCnt := codePredCnt st; errs := errs st |}.

(** The program counter and the indices on the I and L stacks are of type
    [uint16]. *)
Record inv_uint16 (st : ϡvm) : Prop := {
  inv_pc : uint16 (pc st);
  inv_i : Forall uint16 (vm_i st);
  inv_l : Forall (Forall uint16) (vm_l st);
}.

(** The savepoint of the parser and those of the P stack were reached by
    reading the input from its start. *)
Record inv_canon (st : ϡvm) : Prop := {
  inv_pt : canon (parser_data st) (parser_pt st);
  inv_p : Forall (canon (parser_data st)) (vm_p st);
}.

(** The entry [r] of the memoization table for the instruction [ix] and the
    offset [off] is what the match instruction at [ix] yields at the
    savepoint of that offset, and a recorded failure is not farther than the
    farthest failure position. *)
Definition memo_entry_ok (pg : ϡprogram) (st : ϡvm) (ix off : Z)
    (r : ϡmemoizedResult) : Prop :=
  ∃ instr a0 m s,
    lookupZ (instrs pg) ix = Some instr ∧ op instr = ϡopMatch ∧
    args instr !! 0%nat = Some a0 ∧ thunk_at (ms pg) a0 = Some m ∧
    canon (parser_data st) s ∧ offset (pos s) = off ∧
    match matcher_match lib m (parser_data st) s with
    | MatchRet true pt' =>
      ∃ b, sliceFrom (parser_data st) pt' s = Some b ∧
           r = {| mr_v := VBytes b; mr_pt := pt' |}
    | MatchRet false _ =>
      r = {| mr_v := VFailed; mr_pt := s |} ∧ off ≤ offset (ffp_pos (ffp st))
    | MatchPanic _ _ => False
    end.

Definition inv_memo (pg : ϡprogram) (st : ϡvm) : Prop :=
  ∀ ix m off r,
    memo st !! ix = Some m → m !! off = Some r → memo_entry_ok pg st ix off r.

Definition map_outcome (f : ϡvm → ϡvm) (o : outcome) : outcome :=
  match o with
  | Running st => Running (f st)
  | Exited ret st => Exited ret (f st)
  | Panicked pv st => Panicked pv (f st)
  end.

(** A savepoint holds the code point decoded at its offset. *)
Definition decoded (data : list byte) (pt : ϡsvpt) : Prop :=
  0 ≤ offset (pos pt) ≤ Z.of_nat (length data) ∧
  DecodeRune (drop (Z.to_nat (offset (pos pt))) data) = (rn pt, w pt).

(** The machine without memoization goes the way of the machine with it:
    the results of the two agree. *)
Definition outcome_sim (o_plain o_memo : outcome) : Prop :=
  match o_plain, o_memo with
  | Running sp, Running sm => ∃ c, sp = plain c sm
  | Exited rp sp, Exited rm sm => rp = rm ∧ ∃ c, sp = plain c sm
  | Panicked pp sp, Panicked pm sm => pp = pm ∧ ∃ c, sp = plain c sm
  | _, _ => False
  end.

(** A machine as [run] hands it to [dispatch]: empty stacks, an empty
    table, the parser at its start. *)
Record at_start (st : ϡvm) : Prop := {
  start_pc : uint16 (pc st);
  start_i : vm_i st = [];
  start_l : vm_l st = [];
  start_p : vm_p st = [];
  start_memo : memo st = ∅;
  start_parser : parser_pt st = start_pt;
}.

(** The machine [Parse] builds, with nothing but the two options set. *)
Definition fresh (f : string) (b : list byte) (mz rc : bool) : ϡvm :=
  set_memoize mz (set_recover rc (new_vm f b)).

(** The block [c], with the rule index [rule], is in the program at
    [start]. *)
Definition block_at (pg : ϡprogram) (start : Z) (rule : Z) (c : code) : Prop :=
  ∀ (k : nat) instr,
    with_rule rule c !! k = Some instr →
    lookupZ (instrs pg) (start + Z.of_nat k) = Some instr.

Definition outcome_state (o : outcome) : ϡvm :=
  match o with Running st | Exited _ st | Panicked _ st => st end.


End Notions.

#[global] Instance uint16_dec (x : Z) : Decision (uint16 x).
Proof. unfold uint16. apply _. Defined.

#[global] Instance uint16_program_dec (pg : ϡprogram) : Decision (uint16_program pg).
Proof. unfold uint16_program. apply _. Defined.


(** * The encoding of instructions in 64-bit words

    The file of the opcodes that packs an instruction into values of type
    [uint64]: [ϡencodeInstr], [decode] and [decodeLs]. A word is a [Z]; the
    conversion to [uint64] and the truncation of a shift are written out
    with [to_uint64]. An opcode is a byte, given by its number. *)

Definition ϡopMax : Z := 20.

Definition ϡiBits : Z := 64.
Definition ϡlBits : Z := 16.
Definition ϡnBits : Z := 10.
Definition ϡoBits : Z := 6.
Definition ϡlPerI : Z := ϡiBits / ϡlBits.

Definition ϡlMask : Z := Z.shiftl 1 ϡlBits - 1.
Definition ϡnMask : Z := Z.shiftl 1 ϡnBits - 1.
Definition ϡoMask : Z := Z.shiftl 1 ϡoBits - 1.

(** The conversion of an integer to [uint64]. *)
Definition to_uint64 (x : Z) : Z := x mod 2 ^ 64.

(** [ϡinstr.decode]: the opcode, the number of arguments and the first
    three arguments. *)
Definition decode (i : Z) : Z * Z * Z * Z * Z :=
  let ix2 := Z.land i ϡlMask in
  let i := Z.shiftr i ϡlBits in
  let ix1 := Z.land i ϡlMask in
  let i := Z.shiftr i ϡlBits in
  let ix0 := Z.land i ϡlMask in
  let i := Z.shiftr i ϡlBits in
  let n := Z.land i ϡnMask in
  let i := Z.shiftr i ϡnBits in
  let op := Z.land i ϡoMask in
  (op, n, ix0, ix1, ix2).

(** [ϡinstr.decodeLs]: the four arguments of a follow-up word. *)
Definition decodeLs (i : Z) : Z * Z * Z * Z :=
  let ix3 := Z.land i ϡlMask in
  let i := Z.shiftr i ϡlBits in
  let ix2 := Z.land i ϡlMask in
  let i := Z.shiftr i ϡlBits in
  let ix1 := Z.land i ϡlMask in
  let i := Z.shiftr i ϡlBits in
  let ix0 := Z.land i ϡlMask in
  (ix0, ix1, ix2, ix3).

(** What [ϡencodeInstr] does: it returns the words, returns an error, or
    panics on an index out of range. *)
Inductive encode_result :=
| EncOk (words : list Z)
| EncErr (msg : string)
| EncPanic.

(** The loop of [ϡencodeInstr] over the arguments, from the argument of
    index [i] on; [ix] is the index of the word being filled. *)
Fixpoint encode_args (off : Z) (i : Z) (args : list Z) (words : list Z)
    (ix : nat) : encode_result :=
  match args with
  | [] => EncOk words
  | arg :: rest =>
    if ϡlMask <? arg then EncErr "argument value too big"
    else
      let md := (i + 1) mod ϡlPerI in
      let '(words, ix) :=
        if md =? 0 then (words ++ [0], S ix) else (words, ix) in
      match words !! ix with
      | None => EncPanic
      | Some w =>
        encode_args off (i + 1) rest
          (<[ix := Z.lor w (to_uint64 (Z.shiftl (to_uint64 arg)
                                         (off - md * ϡlBits)))]> words)
          ix
      end
  end.

(** [ϡencodeInstr] *)
Definition ϡencodeInstr (op : Z) (args : list Z) : encode_result :=
  if ϡopMax <=? op then EncErr "invalid op value"
  else if ϡnMask <? Z.of_nat (length args) then EncErr "too many arguments"
  else
    let w0 := to_uint64 (Z.shiftl op (ϡiBits - ϡoBits)) in
    let n := Z.of_nat (length args) in
    if n =? 0 then EncOk [w0]
    else
      let off := ϡiBits - ϡoBits - ϡnBits in
      encode_args off 0 args [Z.lor w0 (to_uint64 (Z.shiftl n off))] 0.

(** The number of words [encodeSequence] adds to its jump targets for the
    instruction that pushes its [ls] on the L stack:
    [math.Ceil(float64(len(ls)-2) / 4.0)] when [len(ls) > 2]. The division
    by four and the ceiling are exact on the floating-point numbers for a
    length of this size. *)
Definition encodeSequence_delta (ls : list Z) : Z :=
  let n := Z.of_nat (length ls) in
  if 2 <? n then - ((- (n - 2)) / 4) else 0.

(** The bits of the word of index [k] that hold the argument slot [j], 0
    for the leftmost of the four. *)
Definition slot_field (words : list Z) (k : nat) (j : Z) : Z :=
  Z.land (Z.shiftr (default 0 (words !! k)) (48 - 16 * j)) 65535.

(** * stacks.go

    The stacks of the machine as the code has them: an array and a stack
    pointer. The P, I, V and L stacks have the same [push], [pop] and
    [len]; [ϡstack A] is their common form, for the type [A] of their
    values. The array below the stack pointer holds the values of the
    stack; above it, what earlier values left. *)
Record ϡstack (A : Type) := { ar : list A; sp : Z }.
Arguments ar {A} _.
Arguments sp {A} _.
Arguments Build_ϡstack {A} _ _.

(** [newPstack], [newIstack], [newVstack], [newLstack], [newAstack]: an
    array of [cap] zero values, for a capacity that is not negative. *)
Definition newstack {A} (zero : A) (cap : nat) : ϡstack A :=
  {| ar := replicate cap zero; sp := 0 |}.

(** [push]; [None] is the panic of an index out of range. *)
Definition stack_push {A} (x : A) (s : ϡstack A) : option (ϡstack A) :=
  if decide (Z.of_nat (length (ar s)) ≤ sp s) then
    Some {| ar := ar s ++ [x]; sp := sp s + 1 |}
  else if decide (0 ≤ sp s) then
    Some {| ar := <[Z.to_nat (sp s) := x]> (ar s); sp := sp s + 1 |}
  else None.

(** [pop]: the stack pointer is decremented first; the value is [None]
    when the index is then out of range and the function panics. *)
Definition stack_pop {A} (s : ϡstack A) : option A * ϡstack A :=
  let s := {| ar := ar s; sp := sp s - 1 |} in
  (lookupZ (ar s) (sp s), s).

(** [ϡvstack.peek] *)
Definition stack_peek {A} (s : ϡstack A) : option A :=
  lookupZ (ar s) (sp s - 1).

(** [len] *)
Definition stack_len {A} (s : ϡstack A) : Z := sp s.

(** [ϡlstack.take]; [None] is the panic of an index out of range. *)
Definition lstack_take (l : ϡstack (list Z)) : option (Z * ϡstack (list Z)) :=
  a ← lookupZ (ar l) (sp l - 1);
  match a with
  | [] => Some (-1, l)
  | a0 :: rest =>
    Some (a0, {| ar := <[Z.to_nat (sp l - 1) := rest]> (ar l); sp := sp l |})
  end.

(** The A stack: a frame of the array, a [ϡargsSet], is nil, [None], until
    [peek] makes its map. *)
Abbreviation ϡastack := (ϡstack (option (gmap string value))).

Definition astack_push_ar (a : ϡastack)
  : option ϡastack :=
  stack_push None a.

(** [ϡastack.pop] *)
Definition astack_pop_ar (a : ϡastack)
  : ϡastack :=
  {| ar := ar a; sp := sp a - 1 |}.

(** [ϡastack.peek]: the map of the top frame and the stack, in which the
    frame now holds that map; [None] is the panic of an index out of
    range. *)
Definition astack_peek (a : ϡastack)
  : option (gmap string value * ϡastack) :=
  as_ ← lookupZ (ar a) (sp a - 1);
  match as_ with
  | None => Some (∅, {| ar := <[Z.to_nat (sp a - 1) := Some ∅]> (ar a);
                        sp := sp a |})
  | Some m => Some (m, a)
  end.

(** The values of a stack, top first. *)
Definition stack_items {A} (s : ϡstack A) : list A :=
  reverse (take (Z.to_nat (sp s)) (ar s)).

(** The stack pointer is within the array. *)
Definition stack_wf {A} (s : ϡstack A) : Prop :=
  0 ≤ sp s ≤ Z.of_nat (length (ar s)).

(** The frames of the A stack, top first, a nil frame being empty. *)
Definition astack_frames (a : ϡastack) : list (gmap string value) :=
  default ∅ <$> stack_items a.

(** The savepoint of the parser after [n] calls of [read] on the input
    [s], from the savepoint [Parse] starts from. *)
Definition savepoint_after (s : string) (n : nat) : ϡsvpt :=
  match read_runes n (bytes s) start_pt with
  | Some (_, pt) => pt
  | None => start_pt
  end.

(** * More blocks of the generator *)

Definition encodeOption (start : Z) (ix : Z) : code :=
  combineInstrs [
    mustEncodeInstr ϡopPush [ϡistackID; ix];
    mustEncodeInstr ϡopPush [ϡastackID];
    mustEncodeInstr ϡopCall [];
    mustEncodeInstr ϡopPop [ϡastackID];
    mustEncodeInstr ϡopPopVJumpIfF [start + 6];
    mustEncodeInstr ϡopReturn [];
    mustEncodeInstr ϡopPush [ϡvstackID; ϡvValNil];
    mustEncodeInstr ϡopReturn []
  ].

Definition encodeRuleRef (ix : Z) : code :=
  combineInstrs [
    mustEncodeInstr ϡopPush [ϡistackID; ix];
    mustEncodeInstr ϡopPush [ϡastackID];
    mustEncodeInstr ϡopCall [];
    mustEncodeInstr ϡopPop [ϡastackID];
    mustEncodeInstr ϡopReturn []
  ].

Definition encodePredicate (and : bool) (ix : Z) : code :=
  let o := if and then ϡopNilIfT else ϡopNilIfF in
  combineInstrs [
    mustEncodeInstr ϡopPush [ϡpstackID];
    mustEncodeInstr ϡopPush [ϡistackID; ix];
    mustEncodeInstr ϡopPush [ϡastackID];
    mustEncodeInstr ϡopCall [];
    mustEncodeInstr ϡopPop [ϡastackID];
    mustEncodeInstr o [];
    mustEncodeInstr ϡopRestore [];
    mustEncodeInstr ϡopReturn []
  ].

Definition encodeLabel (lblIx ix : Z) : code :=
  combineInstrs [
    mustEncodeInstr ϡopPush [ϡistackID; ix];
    mustEncodeInstr ϡopPush [ϡastackID];
    mustEncodeInstr ϡopCall [];
    mustEncodeInstr ϡopPop [ϡastackID];
    mustEncodeInstr ϡopStoreIfT [lblIx];
    mustEncodeInstr ϡopReturn []
  ].

(** The program of the grammar [A = 'a'?]: the literal at 4, the option at
    8. *)
Definition prog_option : ϡprogram := {|
  instrs := with_rule (-1) (encodeBootstrap 8)
            ++ with_rule 0 (encodeMatcher 0)
            ++ with_rule 0 (encodeOption 8 4);
  ms := [ϡstringMatcher false "a"];
  as_ := []; bs := []; ss := ["A"];
|}.

(** The program of the grammar [A = &'a']: the literal at 4, the predicate
    at 8. *)
Definition prog_and : ϡprogram := {|
  instrs := with_rule (-1) (encodeBootstrap 8)
            ++ with_rule 0 (encodeMatcher 0)
            ++ with_rule 0 (encodePredicate true 4);
  ms := [ϡstringMatcher false "a"];
  as_ := []; bs := []; ss := ["A"];
|}.

(** The program of the grammar [A = x:'a']: the literal at 4, the label at
    8, its name at the index 1 of the strings. *)
Definition prog_label : ϡprogram := {|
  instrs := with_rule (-1) (encodeBootstrap 8)
            ++ with_rule 0 (encodeMatcher 0)
            ++ with_rule 0 (encodeLabel 1 4);
  ms := [ϡstringMatcher false "a"];
  as_ := []; bs := []; ss := ["A"; "x"];
|}.

(** The program of the grammar [A = 'a'*]: the literal at 4, the
    repetition at 8. *)
Definition prog_star : ϡprogram := {|
  instrs := with_rule (-1) (encodeBootstrap 8)
            ++ with_rule 0 (encodeMatcher 0)
            ++ with_rule 0 (encodeRepetition 8 ϡvValEmpty 4);
  ms := [ϡstringMatcher false "a"];
  as_ := []; bs := []; ss := ["A"];
|}.


(** * Properties of the runtime *)

(** ** The error list *)


Section ErrList.
Variable lib : golib.

Lemma first_occurrences_snoc (e : errList) (x : parserError) :
  first_occurrences lib (e ++ [x]) =
  first_occurrences lib e ++
    (if decide (Error lib x ∈ Error lib <$> e) then [] else [x]).
Proof.
  unfold first_occurrences.
  rewrite length_app, Nat.add_comm. simpl length. simpl Nat.add.
  rewrite seq_S, omap_app. simpl. f_equal.
  - apply list_omap_ext, Forall_Forall2_diag, Forall_forall.
    intros i Hi. apply elem_of_seq in Hi. cbv beta.
    rewrite lookup_app_l by lia.
    rewrite take_app_le by lia. done.
  - rewrite lookup_app_r by lia. rewrite Nat.sub_diag. simpl.
    rewrite take_app_le by lia. rewrite firstn_all.
    by case_decide.
Qed.

Lemma dedupe_fold (e : errList) :
  foldl (dedupe_step lib) ([], ∅) e =
  (first_occurrences lib e, list_to_set (Error lib <$> e)).
Proof.
  induction e as [|x e IH] using rev_ind; [done|].
  rewrite foldl_app, IH. simpl.
  rewrite first_occurrences_snoc, fmap_app, list_to_set_app_L. simpl.
  rewrite union_empty_r_L.
  destruct (decide (Error lib x ∈ Error lib <$> e)) as [Hin|Hin].
  - rewrite decide_True by (by apply elem_of_list_to_set).
    rewrite app_nil_r. f_equal. symmetry. rewrite (comm_L (∪)).
    apply subseteq_union_1_L, elem_of_subseteq_singleton.
    by apply elem_of_list_to_set.
  - rewrite decide_False by (by rewrite elem_of_list_to_set).
    f_equal. apply (comm_L (∪)).
Qed.

Lemma dedupe_first_occurrences (e : errList) :
  ϡdedupe lib e = first_occurrences lib e.
Proof. unfold ϡdedupe. by rewrite dedupe_fold. Qed.

Lemma first_occurrences_msgs (e : errList) (m : string) :
  m ∈ Error lib <$> first_occurrences lib e ↔ m ∈ Error lib <$> e.
Proof.
  induction e as [|x e IH] using rev_ind; [done|].
  rewrite first_occurrences_snoc, !fmap_app, !elem_of_app, IH.
  case_decide as Hin; simpl; [|done].
  rewrite elem_of_nil, list_elem_of_singleton.
  split; [tauto|]. intros [?| ->]; auto.
Qed.

Lemma first_occurrences_NoDup (e : errList) :
  NoDup (Error lib <$> first_occurrences lib e).
Proof.
  induction e as [|x e IH] using rev_ind; [constructor|].
  rewrite first_occurrences_snoc, fmap_app.
  case_decide as Hin; simpl.
  - by rewrite app_nil_r.
  - apply NoDup_app. split_and!; [done| |apply NoDup_singleton].
    intros m Hm Hx. apply list_elem_of_singleton in Hx. subst m.
    exact (Hin (proj1 (first_occurrences_msgs _ _) Hm)).
Qed.

Lemma ϡerr_first_occurrences (e el : errList) :
  ϡerr lib e = Some el →
  NoDup (Error lib <$> el) ∧ el = first_occurrences lib e.
Proof.
  unfold ϡerr. case_decide; [done|]. intros [= <-].
  rewrite dedupe_first_occurrences. split; [apply first_occurrences_NoDup|done].
Qed.

(** C7: the error list [run] returns to the caller of [Parse] holds no two
    errors with the same message, and it is the list of the errors
    accumulated by the machine whose message occurs for the first time, in
    their order. *)
Theorem C7_error_list_deduplicated (pg : ϡprogram) (fuel : nat) (st : ϡvm)
    (ret : value) (el : errList) :
  run lib pg fuel st = Returned ret (Some el) →
  ∃ ret0 st0,
    dispatch lib pg fuel (run_init st) = DReturn ret0 st0 ∧
    NoDup (Error lib <$> el) ∧
    el = first_occurrences lib (errs (run_finish pg ret0 st0).2).
Proof.
  unfold run. destruct (dispatch lib pg fuel (run_init st)) as [ret0 st0| |];
    [|done..].
  destruct (run_finish pg ret0 st0) as [ret' st''] eqn:Hfin.
  intros [= <- Herr]. exists ret0, st0. split; [done|].
  rewrite Hfin. by apply ϡerr_first_occurrences.
Qed.

End ErrList.


(** ** Literal matchers *)


Section Matchers.
Variable lib : golib.




End Matchers.


(** ** Character classes at the end of the input *)


Section CharClass.
Variable lib : golib.

Lemma read_at_eof (data : list byte) (pt : ϡsvpt) :
  at_eof data pt → read data pt = ReadOk pt.
Proof.
  intros (Hoff & Hrn & Hw). unfold read.
  rewrite Hw, Z.add_0_r, Hoff, Nat2Z.id.
  rewrite decide_True by lia.
  rewrite drop_all. simpl.
  destruct pt as [[ln cl off] r wd]; simpl in *. by subst.
Qed.

Lemma ranges_match_not_covered (rs : list Z) (r : Z) :
  Nat.even (length rs) = true →
  Forall (λ '(lo, hi), ¬ (lo ≤ r ≤ hi)) (range_pairs rs) →
  ranges_match rs r = Some false.
Proof.
  induction rs as [rs IH] using (induction_ltof1 _ (@length Z)).
  unfold ltof in IH.
  destruct rs as [|lo [|hi rest]]; simpl; [done..|].
  intros Hev Hall. apply Forall_cons in Hall as [Hlo Hall].
  destruct ((lo <=? r) && (r <=? hi)) eqn:Hb.
  - exfalso. apply Hlo. lia.
  - apply IH; [simpl; lia|done..].
Qed.

(** C10: at the end of the input, where the current code point is the
    decoding error of width 0, an inverted character class whose characters,
    ranges and Unicode classes do not cover that code point matches and
    leaves the parser where it is, while the any matcher fails there. *)
Theorem C10_inverted_class_at_eof (chars ranges : list Z)
    (classes : list RangeTable) (ignoreCase : bool)
    (data : list byte) (pt : ϡsvpt) :
  at_eof data pt →
  (ignoreCase = true → ToLower lib RuneError = RuneError) →
  RuneError ∉ chars →
  Nat.even (length ranges) = true →
  Forall (λ '(lo, hi), ¬ (lo ≤ RuneError ≤ hi)) (range_pairs ranges) →
  Forall (λ cl, unicode_Is cl RuneError = false) classes →
  matcher_match lib (ϡcharClassMatcher chars ranges classes ignoreCase true)
                data pt = MatchRet true pt
  ∧ matcher_match lib ϡanyMatcher data pt = MatchRet false pt.
Proof.
  intros Heof Hlow Hch Hev Hrg Hcl. simpl.
  unfold charClass_match, any_match. rewrite (read_at_eof _ _ Heof).
  destruct Heof as (_ & Hrn & _). rewrite Hrn. split; [|done].
  replace (if ignoreCase then ToLower lib RuneError else RuneError)
    with RuneError by (destruct ignoreCase; [by rewrite Hlow|done]).
  replace (existsb (λ ch, RuneError =? ch) chars) with false.
  2:{ symmetry. apply not_true_is_false. rewrite existsb_exists.
      intros (ch & Hin & Heq). apply Z.eqb_eq in Heq as <-.
      by apply Hch, list_elem_of_In. }
  rewrite (ranges_match_not_covered _ _ Hev Hrg).
  replace (existsb _ classes) with false; [done|].
  symmetry. apply not_true_is_false. rewrite existsb_exists.
  intros (cl & Hin & Heq). rewrite Forall_forall in Hcl.
  apply list_elem_of_In in Hin. specialize (Hcl _ Hin). congruence.
Qed.

End CharClass.


(** ** The savepoints of the parser *)


(** [utf8.DecodeRune] consumes no more than it is given, and nothing only
    at the end of the input. *)
Lemma DecodeRune_width (p : list byte) (r n : Z) :
  DecodeRune p = (r, n) →
  0 ≤ n ≤ Z.of_nat (length p) ∧ (n = 0 → p = [] ∧ r = RuneError).
Proof.
  unfold DecodeRune. intros H.
  repeat case_match; simplify_eq; simpl length; split; (lia || (intros; lia) || done).
Qed.

Section Canon.
Variable data : list byte.

Lemma read_decoded (pt pt' : ϡsvpt) : read data pt = ReadOk pt' → decoded data pt'.
Proof.
  unfold read, decoded. intros H.
  repeat case_match; simplify_eq; simpl; done.
Qed.

Lemma canon_decoded (pt : ϡsvpt) : canon data pt → decoded data pt.
Proof. destruct 1; eauto using read_decoded. Qed.

Lemma read_offset (pt pt' : ϡsvpt) :
  read data pt = ReadOk pt' → offset (pos pt') = offset (pos pt) + w pt.
Proof.
  unfold read. intros H. repeat case_match; simplify_eq; done.
Qed.

(** At the end of the input [read] stays where it is. *)
Lemma read_stuck (pt pt' : ϡsvpt) :
  decoded data pt → read data pt = ReadOk pt' → w pt = 0 → pt' = pt.
Proof.
  intros [Hr Hd] H Hw. apply DecodeRune_width in Hd as Hwd.
  destruct Hwd as [_ Hz]. destruct (Hz Hw) as [Hnil Hrn].
  unfold read in H. rewrite Hw, Z.add_0_r in H.
  rewrite decide_True in H by done. rewrite Hd, Hrn, Hw in H. simpl in H.
  destruct pt as [[ln cl off] r wd]; simpl in *. by simplify_eq.
Qed.

Lemma reads_offset (pt pt' : ϡsvpt) :
  decoded data pt → reads data pt pt' →
  offset (pos pt) ≤ offset (pos pt') ∧
  (offset (pos pt) = offset (pos pt') → pt = pt') ∧ decoded data pt'.
Proof.
  intros Hd Hr. induction Hr as [pt|pt pt1 pt' H1 Hr IH]; [done|].
  pose proof (read_decoded _ _ H1) as Hd1.
  destruct (IH Hd1) as (Hle & Heq & Hd').
  pose proof (read_offset _ _ H1) as Hoff.
  destruct Hd as [Hrange Hdec]. pose proof (DecodeRune_width _ _ _ Hdec) as [Hw _].
  split_and!; [lia| |done].
  intros Hsame. assert (w pt = 0) as Hw0 by lia.
  pose proof (read_stuck _ _ (conj Hrange Hdec) H1 Hw0) as ->.
  apply Heq. lia.
Qed.

Lemma reads_trans (a b c : ϡsvpt) : reads data a b → reads data b c → reads data a c.
Proof. induction 1; eauto using reads. Qed.

Lemma reads_linear (a b c : ϡsvpt) :
  reads data a b → reads data a c → reads data b c ∨ reads data c b.
Proof.
  intros Hab. revert c. induction Hab as [a|a a1 b H1 Hab IH]; intros c Hac.
  - by left.
  - inversion Hac as [|? c1 ? H1' Hc]; subst.
    + right. eauto using reads.
    + rewrite H1 in H1'. simplify_eq. by apply IH.
Qed.

Lemma canon_reads (pt : ϡsvpt) :
  canon data pt ↔ ∃ pt1, read data start_pt = ReadOk pt1 ∧ reads data pt1 pt.
Proof.
  split.
  - induction 1 as [pt H|pt pt' _ (pt1 & H1 & Hr) H].
    + exists pt. eauto using reads.
    + exists pt1. split; [done|]. eapply reads_trans; eauto using reads.
  - intros (pt1 & H1 & Hr). apply canon_first in H1.
    induction Hr; eauto using canon.
Qed.

Lemma canon_reads_canon (pt pt' : ϡsvpt) :
  canon data pt → reads data pt pt' → canon data pt'.
Proof. intros Hc Hr. induction Hr; eauto using canon. Qed.

(** A savepoint the parser reaches is determined by its offset. *)
Lemma canon_unique (s t : ϡsvpt) :
  canon data s → canon data t → offset (pos s) = offset (pos t) → s = t.
Proof.
  intros Hs Ht Hoff.
  pose proof (canon_decoded _ Hs) as Hds. pose proof (canon_decoded _ Ht) as Hdt.
  apply canon_reads in Hs as (s1 & Hs1 & Hrs).
  apply canon_reads in Ht as (t1 & Ht1 & Hrt).
  rewrite Hs1 in Ht1. simplify_eq.
  destruct (reads_linear _ _ _ Hrs Hrt) as [H|H].
  - by apply (reads_offset _ _ Hds H).
  - symmetry. by apply (reads_offset _ _ Hdt H).
Qed.

Lemma sliceFrom_reads (s pt' : ϡsvpt) :
  decoded data s → reads data s pt' → is_Some (sliceFrom data pt' s).
Proof.
  intros Hd Hr. destruct (reads_offset _ _ Hd Hr) as (Hle & _ & [Hr' _]).
  destruct Hd as [Hrs _]. unfold sliceFrom. rewrite decide_True by lia. eauto.
Qed.

End Canon.

Section MatchReads.
Variable lib : golib.
Variable data : list byte.

Lemma string_match_reads ic wants pt ok pt' :
  string_match lib ic wants data pt = MatchRet ok pt' → reads data pt pt'.
Proof.
  revert pt. induction wants as [|want wants IH]; intros pt; simpl.
  - intros [= <- <-]. constructor.
  - destruct (negb _); [intros [= <- <-]; constructor|].
    destruct (read data pt) eqn:Hr; [|done].
    intros Hm. eapply reads_step; eauto.
Qed.

Lemma matcher_match_reads m pt ok pt' :
  matcher_match lib m data pt = MatchRet ok pt' → reads data pt pt'.
Proof.
  destruct m; simpl.
  - unfold any_match. destruct (read data pt) eqn:Hr; [|done].
    intros [= <- <-]. eauto using reads.
  - apply string_match_reads.
  - unfold charClass_match. destruct (read data pt) eqn:Hr; [|done].
    intros Hm. assert (pt' = pt0) as ->; [|eauto using reads].
    repeat case_match; by simplify_eq.
Qed.

End MatchReads.


(** ** Memoization: the machine without table *)


(** Unfold the cases of [dispatch], and split on every [match] of the
    goal. *)
Ltac unfold_ops :=
  unfold do_Call, do_CallA, do_CallB, do_CumulOrF, do_Exit, do_JumpIfF,
    do_JumpIfT, do_NilIfF, do_NilIfT, do_Pop, do_PopVJumpIfF, do_Push,
    do_Restore, do_RestoreIfF, do_Return, do_StoreIfT, do_TakeLOrJump,
    do_Jump, astack_pop, astack_push, addErrAt in *.

Ltac crunch := repeat (case_match; simplify_eq/=; try done).

Section PlainOther.
Variable lib : golib.

(** An instruction that is not a match does on the machine without
    memoization what it does on the machine with it. *)
Lemma step_plain_other (pg : ϡprogram) (c : Z) (st : ϡvm) (instr : ϡinstr) :
  lookupZ (instrs pg) (pc st) = Some instr →
  op instr ≠ ϡopMatch →
  step lib pg (plain c st) = map_outcome (plain c) (step lib pg st).
Proof.
  intros Hf Hop. unfold step. simpl. rewrite Hf.
  destruct (op instr) eqn:Ho; try done; clear Hop Ho Hf;
    unfold_ops; destruct st; simpl; crunch.
Qed.

End PlainOther.



Section PlainMatch.
Variable lib : golib.
Variable pg : ϡprogram.

Lemma ffp_update_mono instr m start f :
  offset (ffp_pos f) ≤ offset (ffp_pos (ffp_update lib instr m start f)) ∧
  offset (pos start) ≤ offset (ffp_pos (ffp_update lib instr m start f)).
Proof. unfold ffp_update. case_decide; simpl; lia. Qed.

Lemma memo_entry_ok_mono st st1 ix off r :
  parser_data st1 = parser_data st →
  offset (ffp_pos (ffp st)) ≤ offset (ffp_pos (ffp st1)) →
  memo_entry_ok lib pg st ix off r → memo_entry_ok lib pg st1 ix off r.
Proof.
  intros Hd Hf (instr & a0 & m & s & H1 & H2 & H3 & H4 & H5 & H6 & H7).
  exists instr, a0, m, s. rewrite Hd. split_and!; try done.
  destruct (matcher_match _ _ _ _) as [[|] pt'|]; [done| |done].
  destruct H7; split; [done|lia].
Qed.

Lemma inv_memo_mono st st1 :
  parser_data st1 = parser_data st →
  memo st1 = memo st →
  offset (ffp_pos (ffp st)) ≤ offset (ffp_pos (ffp st1)) →
  inv_memo lib pg st → inv_memo lib pg st1.
Proof.
  intros Hd Hm Hf Hinv ix m off r H1 H2. rewrite Hm in H1.
  eapply memo_entry_ok_mono; eauto.
Qed.

(** The match instruction, on the machine [st] whose program counter has
    been incremented past it: the machine without memoization follows, a
    hit of the table included, and the invariants are kept. *)
Lemma do_Match_sim (c : Z) (instr : ϡinstr) (st : ϡvm) :
  lookupZ (instrs pg) (pc_decr (pc st)) = Some instr →
  op instr = ϡopMatch →
  inv_canon st → inv_memo lib pg st →
  outcome_sim (do_Match lib pg instr (plain c st)) (do_Match lib pg instr st) ∧
  ∀ st1, do_Match lib pg instr st = Running st1 →
    inv_canon st1 ∧ inv_memo lib pg st1 ∧
    pc st1 = pc st ∧ vm_i st1 = vm_i st ∧ vm_l st1 = vm_l st.
Proof.
  intros Hix Hop [Hpt Hp] Hmemo.
  unfold do_Match. simpl memoize at 1. cbv iota.
  destruct (memoize st) eqn:Hmz.
  - (* memoization on *)
    destruct (fromMemo (pc_decr (pc st)) (parser_pt st) st) as [st1|] eqn:Hfrom.
    + (* hit *)
      unfold fromMemo in Hfrom.
      destruct (memo st !! pc_decr (pc st)) as [mm|] eqn:Hmm; [|done].
      simpl in Hfrom.
      destruct (mm !! offset (pos (parser_pt st))) as [r|] eqn:Hr; [|done].
      simpl in Hfrom. injection Hfrom as <-.
      destruct (Hmemo _ _ _ _ Hmm Hr)
        as (instr' & a0 & m & s & H1 & H2 & H3 & H4 & H5 & H6 & H7).
      rewrite Hix in H1. injection H1 as <-.
      assert (s = parser_pt st) as -> by (by apply (canon_unique (parser_data st))).
      simpl. rewrite H3, H4.
      destruct (matcher_match lib m (parser_data st) (parser_pt st))
        as [[|] pt'|] eqn:Hmt; [| |done].
      * destruct H7 as (b & Hb & ->). simpl. rewrite Hb. split.
        -- exists (c + 1). by destruct st.
        -- intros ? [= <-]. split_and!; try done.
           split; simpl; [|done].
           eapply canon_reads_canon; eauto using matcher_match_reads.
      * destruct H7 as [-> Hle]. simpl. split.
        -- exists (c + 1). unfold ffp_update.
           rewrite decide_False by lia. by destruct st.
        -- intros ? [= <-]. split_and!; done.
    + (* miss *)
      simpl. destruct (args instr !! 0%nat) as [a0|] eqn:Ha0.
      2:{ split; [|done]. split; [done|]. by exists c. }
      destruct (thunk_at (ms pg) a0) as [m|] eqn:Hm.
      2:{ split; [|done]. split; [done|]. by exists c. }
      destruct (matcher_match lib m (parser_data st) (parser_pt st))
        as [ok pt'|e pt'] eqn:Hmt.
      2:{ split; [|done]. split; [done|]. exists c. by destruct st. }
      assert (canon (parser_data st) pt') as Hpt'
        by (eapply canon_reads_canon; eauto using matcher_match_reads).
      unfold memoizeMatch. simpl.
      assert (∀ st', parser_data st' = parser_data st →
                ffp st' = ffp st ∨ ffp st' = ffp_update lib instr m (parser_pt st) (ffp st) →
                (ok = false → ffp st' = ffp_update lib instr m (parser_pt st) (ffp st)) →
                ∀ b, (ok = true → sliceFrom (parser_data st) pt' (parser_pt st) = Some b) →
                memo st' =
                  <[pc_decr (pc st) :=
                      <[offset (pos (parser_pt st)) :=
                          if ok then {| mr_v := VBytes b; mr_pt := pt' |}
                          else {| mr_v := VFailed; mr_pt := parser_pt st |}]>
                        (default ∅ (memo st !! pc_decr (pc st)))]> (memo st) →
                inv_memo lib pg st') as Hnew.
      { intros st' Hd Hf Hf' b Hb Hm' ix mm off r H1 H2.
        assert (offset (ffp_pos (ffp st)) ≤ offset (ffp_pos (ffp st'))) as Hmono.
        { destruct Hf as [-> | ->]; [lia|apply ffp_update_mono]. }
        assert (∀ mm0, memo st !! ix = Some mm0 → mm0 !! off = Some r →
                       memo_entry_ok lib pg st' ix off r) as Hold.
        { intros mm0 Ha Hb'. eapply memo_entry_ok_mono; eauto. }
        rewrite Hm' in H1. apply lookup_insert_Some in H1 as [[<- <-]|[Hne H1]].
        - apply lookup_insert_Some in H2 as [[<- <-]|[Hne H2]].
          + exists instr, a0, m, (parser_pt st). rewrite Hd, Hmt.
            split_and!; try done. destruct ok.
            * exists b. split; [by apply Hb|done].
            * split; [done|]. rewrite Hf' by done. apply ffp_update_mono.
          + destruct (memo st !! pc_decr (pc st)) as [mm0|] eqn:Hmm0;
              simpl in H2; [by eapply Hold|done].
        - by eapply Hold. }
      destruct ok.
      * destruct (sliceFrom (parser_data st) pt' (parser_pt st)) as [b|] eqn:Hb;
          simpl; rewrite ?Hmz; simpl; rewrite ?Hb; simpl.
        2:{ split; [|done]. split; [done|]. exists (c + 1). by destruct st. }
        split.
        -- exists (c + 1). by destruct st.
        -- intros ? [= <-]. split_and!; try done.
           apply Hnew with (b := b); simpl; [done|by left|done|done|done].
      * simpl; rewrite ?Hmz; simpl. split.
        -- exists (c + 1). by destruct st.
        -- intros ? [= <-]. split_and!; try done.
           apply Hnew with (b := []); simpl; [done|by right|done|done|done].
  - (* memoization off *)
    destruct (args instr !! 0%nat) as [a0|] eqn:Ha0.
    2:{ split; [|done]. split; [done|]. by exists c. }
    destruct (thunk_at (ms pg) a0) as [m|] eqn:Hm.
    2:{ split; [|done]. split; [done|]. by exists c. }
    simpl parser_data. simpl parser_pt.
    destruct (matcher_match lib m (parser_data st) (parser_pt st))
      as [ok pt'|e pt'] eqn:Hmt.
    2:{ split; [|done]. split; [done|]. exists c. by destruct st. }
    assert (canon (parser_data st) pt') as Hpt'
      by (eapply canon_reads_canon; eauto using matcher_match_reads).
    simpl. rewrite Hmz. destruct ok.
    + simpl. destruct (sliceFrom (parser_data st) pt' (parser_pt st)) as [b|] eqn:Hb.
      2:{ split; [|done]. split; [done|]. exists (c + 1). by destruct st. }
      split.
      * exists (c + 1). by destruct st.
      * intros ? [= <-]. split_and!; done.
    + split.
      * exists (c + 1). by destruct st.
      * intros ? [= <-]. split_and!; try done.
        eapply inv_memo_mono; [..|exact Hmemo]; simpl; try done.
        apply ffp_update_mono.
Qed.

End PlainMatch.



Section PlainStep.
Variable lib : golib.
Variable pg : ϡprogram.

Lemma pc_incr_uint16 x : uint16 (pc_incr x).
Proof. unfold uint16, pc_incr. apply Z.mod_pos_bound. lia. Qed.

Lemma pc_decr_incr x : uint16 x → pc_decr (pc_incr x) = x.
Proof.
  unfold uint16, pc_decr, pc_incr. intros Hx.
  destruct (decide (x = 65535)) as [->|Hne]; [done|].
  rewrite (Z.mod_small (x + 1)) by lia. rewrite Z.mod_small; lia.
Qed.

Lemma lookupZ_Some {A} (l : list A) (i : Z) (x : A) :
  lookupZ l i = Some x → 0 ≤ i ∧ l !! Z.to_nat i = Some x.
Proof. unfold lookupZ. case_decide; [done|done]. Qed.

Lemma fetch_args_uint16 (i : Z) (instr : ϡinstr) :
  uint16_program pg → lookupZ (instrs pg) i = Some instr →
  Forall uint16 (args instr).
Proof.
  intros Hpg [_ Hl]%lookupZ_Some.
  by apply (Forall_lookup_1 _ _ _ _ Hpg Hl).
Qed.

Ltac inv_Forall :=
  repeat match goal with
         | H : Forall _ (_ :: _) |- _ => apply Forall_cons in H as [? ?]
         end.

Lemma step_inv_uint16 (st st1 : ϡvm) :
  uint16_program pg → inv_uint16 st → step lib pg st = Running st1 →
  inv_uint16 st1.
Proof.
  intros Hpg [Hpc Hi Hl]. unfold step.
  destruct (lookupZ (instrs pg) (pc st)) as [instr|] eqn:Hf; [|done].
  pose proof (fetch_args_uint16 _ _ Hpg Hf) as Hargs.
  pose proof (pc_incr_uint16 (pc st)) as Hpc'.
  assert (∀ a0, args instr !! 0%nat = Some a0 → uint16 a0) as Ha0
    by (intros; by eapply Forall_lookup_1).
  assert (∀ a1, args instr !! 1%nat = Some a1 → uint16 a1) as Ha1
    by (intros; by eapply Forall_lookup_1).
  assert (Forall uint16 (drop 1 (args instr))) as Hdrop by by apply Forall_drop.
  clear Hf Hpg Hargs.
  destruct (op instr); unfold_ops; unfold do_Match, fromMemo, memoizeMatch;
    destruct st; simpl in *; intros Hs; try done;
    repeat (case_match; simplify_option_eq; try done);
    inv_Forall; split; simpl; eauto.
Qed.

(** An instruction that is not a match leaves the table and the farthest
    failure alone, and takes the savepoints of the parser and of the P
    stack from those it finds. *)
Lemma step_frame (st st1 : ϡvm) (instr : ϡinstr) :
  lookupZ (instrs pg) (pc st) = Some instr → op instr ≠ ϡopMatch →
  step lib pg st = Running st1 →
  memo st1 = memo st ∧ ffp st1 = ffp st ∧ parser_data st1 = parser_data st ∧
  (parser_pt st1 = parser_pt st ∨ parser_pt st1 ∈ vm_p st) ∧
  (∀ pt, pt ∈ vm_p st1 → pt = parser_pt st ∨ pt ∈ vm_p st).
Proof.
  intros Hf Hop. unfold step. rewrite Hf.
  destruct (op instr); try done; clear Hf Hop; unfold_ops;
    destruct st; simpl in *; intros Hs; try done;
    repeat (case_match; simplify_eq/=; try done);
    split_and!; try done; eauto;
    try (right; apply list_elem_of_here);
    try (intros ? ?; right; by apply list_elem_of_further);
    try (intros ? [->|?]%elem_of_cons; eauto).
Qed.

(** One instruction: the machine without memoization follows the machine
    with it, and the invariants are kept. *)
Lemma step_sim (c : Z) (st : ϡvm) :
  uint16_program pg → inv_uint16 st → inv_canon st → inv_memo lib pg st →
  outcome_sim (step lib pg (plain c st)) (step lib pg st) ∧
  ∀ st1, step lib pg st = Running st1 →
    inv_uint16 st1 ∧ inv_canon st1 ∧ inv_memo lib pg st1.
Proof.
  intros Hpg Hu Hc Hm.
  destruct (lookupZ (instrs pg) (pc st)) as [instr|] eqn:Hf.
  2:{ unfold step. simpl. rewrite Hf. split; [|done]. split; [done|]. by exists c. }
  destruct (decide (op instr = ϡopMatch)) as [Hop|Hop].
  - assert (step lib pg (plain c st) =
            do_Match lib pg instr (plain c (set_pc (pc_incr (pc st)) st))) as ->.
    { unfold step. simpl. rewrite Hf, Hop. by destruct st. }
    assert (step lib pg st = do_Match lib pg instr (set_pc (pc_incr (pc st)) st)) as ->.
    { unfold step. by rewrite Hf, Hop. }
    destruct (do_Match_sim lib pg c instr (set_pc (pc_incr (pc st)) st))
      as [Hsim Hinv]; try done.
    + simpl. rewrite pc_decr_incr; [done|apply Hu].
    + by destruct Hc.
    + split; [done|]. intros st1 Hs.
      destruct (Hinv _ Hs) as (H1 & H2 & H3 & H4 & H5). split_and!; try done.
      destruct Hu. split; rewrite ?H3, ?H4, ?H5; simpl; try done.
      apply pc_incr_uint16.
  - rewrite (step_plain_other lib pg c st instr Hf Hop). split.
    + destruct (step lib pg st); simpl; eauto.
    + intros st1 Hs. split; [by eapply step_inv_uint16|].
      destruct (step_frame _ _ _ Hf Hop Hs) as (H1 & H2 & H3 & H4 & H5).
      destruct Hc as [Hpt Hp]. rewrite Forall_forall in Hp. split.
      * split; rewrite H3.
        -- destruct H4 as [-> | Hin]; eauto.
        -- apply Forall_forall. intros pt Hin. destruct (H5 _ Hin) as [->|?]; eauto.
      * eapply inv_memo_mono; [..|exact Hm]; try done. rewrite H2. lia.
Qed.

End PlainStep.



Section PlainRun.
Variable lib : golib.
Variable pg : ϡprogram.
Hypothesis Hpg : uint16_program pg.

Lemma loop_sim (fuel : nat) (c : Z) (st : ϡvm) :
  inv_uint16 st → inv_canon st → inv_memo lib pg st →
  match loop lib pg fuel (plain c st), loop lib pg fuel st with
  | LoopExit rp sp, LoopExit rm sm => rp = rm ∧ ∃ c', sp = plain c' sm
  | LoopPanic pp sp, LoopPanic pm sm => pp = pm ∧ ∃ c', sp = plain c' sm
  | LoopFuel sp, LoopFuel sm => ∃ c', sp = plain c' sm
  | _, _ => False
  end.
Proof.
  revert c st. induction fuel as [|fuel IH]; intros c st Hu Hc Hm; simpl.
  - by exists c.
  - destruct (step_sim lib pg c st Hpg Hu Hc Hm) as [Hsim Hinv].
    destruct (step lib pg (plain c st)) as [sp|rp sp|pp sp],
             (step lib pg st) as [sm|rm sm|pm sm]; simpl in Hsim; try done.
    destruct Hsim as [c' ->].
    destruct (Hinv _ eq_refl) as (Hu' & Hc' & Hm'). by apply IH.
Qed.

Lemma recover_handler_plain (c : Z) (pv : panic_val) (st : ϡvm) :
  recover_handler pg pv (plain c st) = plain c <$> recover_handler pg pv st.
Proof.
  unfold recover_handler. simpl.
  destruct (if decide (pc st > 0) then _ else _) as [ruleIx|]; [|done].
  simpl. destruct pv; by destruct st.
Qed.

Lemma run_finish_plain (c : Z) (ret : value) (st : ϡvm) :
  run_finish pg ret (plain c st) =
  ((run_finish pg ret st).1, plain c (run_finish pg ret st).2).
Proof.
  unfold run_finish, addErr, addErrAt. simpl.
  destruct (is_failed ret); [|done].
  destruct (decide (length (errs st) = 0%nat)); [|done].
  destruct (ffp_err (ffp st)); done.
Qed.

Lemma setOptions_fresh (opts : list ParseOption) f b mz rc :
  ∃ mz' rc', setOptions opts (fresh f b mz rc) = fresh f b mz' rc'.
Proof.
  revert mz rc. induction opts as [|o opts IH]; intros mz rc; simpl.
  - by exists mz, rc.
  - destruct o as [d|m|r]; simpl.
    + apply IH.
    + apply (IH m rc).
    + apply (IH mz r).
Qed.

Lemma set_parser_pt_plain c pt st :
  set_parser_pt pt (plain c st) = plain c (set_parser_pt pt st).
Proof. done. Qed.

Lemma dispatch_sim (fuel : nat) (c : Z) (st : ϡvm) :
  at_start st →
  match dispatch lib pg fuel (plain c st), dispatch lib pg fuel st with
  | DReturn rp sp, DReturn rm sm => rp = rm ∧ ∃ c', sp = plain c' sm
  | DPanic pp sp, DPanic pm sm => pp = pm
  | DFuel sp, DFuel sm => True
  | _, _ => False
  end.
Proof.
  intros [Hpc Hi Hl Hp Hmemo Hpt]. unfold dispatch.
  change (parser_data (plain c st)) with (parser_data st).
  change (parser_pt (plain c st)) with (parser_pt st).
  destruct (read (parser_data st) (parser_pt st)) as [pt'|e pt'] eqn:Hr;
    rewrite set_parser_pt_plain.
  - assert (inv_uint16 (set_parser_pt pt' st)) as Hu.
    { split; cbn [pc vm_i vm_l set_parser_pt]; rewrite ?Hi, ?Hl; [done|constructor..]. }
    assert (inv_canon (set_parser_pt pt' st)) as Hc.
    { split; cbn [parser_data parser_pt vm_p set_parser_pt]; rewrite ?Hp; [|constructor].
      apply canon_first. by rewrite <- Hpt. }
    assert (inv_memo lib pg (set_parser_pt pt' st)) as Hm.
    { intros ix m off r H. cbn [memo set_parser_pt] in H.
      by rewrite Hmemo, lookup_empty in H. }
    pose proof (loop_sim fuel c _ Hu Hc Hm) as Hsim.
    destruct (loop lib pg fuel (plain c (set_parser_pt pt' st))) as [rp sp|pp sp|sp],
             (loop lib pg fuel (set_parser_pt pt' st)) as [rm sm|pm sm|sm];
      try (exfalso; exact Hsim); try exact I.
    + exact Hsim.
    + destruct Hsim as [-> [c' ->]].
      change (recover (plain c' sm)) with (recover sm).
      destruct (recover sm); [|reflexivity].
      rewrite recover_handler_plain.
      destruct (recover_handler pg pm sm); cbn [fmap option_fmap option_map];
        [|reflexivity].
      split; [reflexivity|]. by exists c'.
  - change (recover (plain c (set_parser_pt pt' st)))
      with (recover (set_parser_pt pt' st)).
    destruct (recover (set_parser_pt pt' st)); [|reflexivity].
    rewrite recover_handler_plain.
    destruct (recover_handler pg _ _); cbn [fmap option_fmap option_map];
      [|reflexivity].
    split; [reflexivity|]. by exists c.
Qed.

Lemma run_init_plain c st : run_init (plain c st) = plain c (run_init st).
Proof. done. Qed.

Lemma run_init_at_start st :
  uint16 (pc st) → memo st = ∅ → parser_pt st = start_pt → at_start (run_init st).
Proof. intros. by split. Qed.

Lemma run_plain (fuel : nat) (c : Z) (st : ϡvm) :
  uint16 (pc st) → memo st = ∅ → parser_pt st = start_pt →
  run lib pg fuel (plain c st) = run lib pg fuel st.
Proof.
  intros H1 H2 H3. unfold run. rewrite run_init_plain.
  pose proof (dispatch_sim fuel c _ (run_init_at_start _ H1 H2 H3)) as Hs.
  destruct (dispatch lib pg fuel (plain c (run_init st))) as [rp sp|pp sp|sp],
           (dispatch lib pg fuel (run_init st)) as [rm sm|pm sm|sm];
    try (exfalso; exact Hs); [|by rewrite Hs|reflexivity].
  destruct Hs as [-> [c' ->]]. rewrite run_finish_plain.
  by destruct (run_finish pg rm sm).
Qed.

Lemma run_memoize (fuel : nat) f b rc :
  run lib pg fuel (fresh f b true rc) = run lib pg fuel (fresh f b false rc).
Proof.
  change (fresh f b false rc) with (plain 0 (fresh f b true rc)).
  symmetry. apply run_plain; [|reflexivity..]. done.
Qed.

(** C2: for every program, input, file name and list of options, [Parse]
    with memoization switched on returns what it returns with memoization
    switched off: the same value and the same error list, the same panic,
    or neither within the same number of instructions. *)
Theorem C2_memoize_transparent (fuel : nat) (filename : string)
    (b : list byte) (opts : list ParseOption) :
  Parse lib pg fuel filename b (opts ++ [Memoize true]) =
  Parse lib pg fuel filename b (opts ++ [Memoize false]).
Proof.
  unfold Parse, setOptions. rewrite !foldl_app.
  change (new_vm filename b) with (fresh filename b false true).
  destruct (setOptions_fresh opts filename b false true) as (mz & rc & Heq).
  unfold setOptions in Heq. rewrite Heq.
  apply (run_memoize fuel filename b rc).
Qed.

End PlainRun.


(** ** The result of run, and the states a parse reaches *)


Section Run.
Variable lib : golib.
Variable pg : ϡprogram.

(** C1, amended: when [dispatch] returns a value that is not
    [ϡmatchFailed], [run] returns that value; with no error recorded the
    error is nil, and otherwise the error is the deduplicated list, next to
    the value and not next to nil. *)
Theorem C1_run_returns_value_and_errors (fuel : nat) (st st' : ϡvm) (ret : value) :
  dispatch lib pg fuel (run_init st) = DReturn ret st' →
  ret ≠ VFailed →
  (errs st' = [] → run lib pg fuel st = Returned ret None) ∧
  (errs st' ≠ [] →
   run lib pg fuel st = Returned ret (Some (ϡdedupe lib (errs st')))).
Proof.
  intros Hd Hret. unfold run. rewrite Hd. unfold run_finish.
  replace (is_failed ret) with false by (by destruct ret).
  cbv iota beta. unfold ϡerr. split; intros He.
  - by rewrite He.
  - rewrite decide_False; [done|]. by destruct (errs st').
Qed.


Lemma steps_inv (n : nat) (s0 st : ϡvm) :
  uint16_program pg →
  inv_uint16 s0 → inv_canon s0 → inv_memo lib pg s0 →
  steps lib pg n s0 = Some st →
  inv_uint16 st ∧ inv_canon st ∧ inv_memo lib pg st.
Proof.
  intros Hpg. revert s0. induction n as [|n IH]; intros s0 Hu Hc Hm; simpl.
  - by intros [= <-].
  - destruct (step_sim lib pg 0 s0 Hpg Hu Hc Hm) as [_ Hinv].
    destruct (step lib pg s0) as [s1| |]; [|done..].
    destruct (Hinv _ eq_refl) as (? & ? & ?). by apply IH.
Qed.

Lemma primed_inv (st s0 : ϡvm) :
  uint16 (pc st) → memo st = ∅ → parser_pt st = start_pt →
  primed st = Some s0 →
  inv_uint16 s0 ∧ inv_canon s0 ∧ inv_memo lib pg s0 ∧
  offset (ffp_pos (ffp s0)) = -1 ∧
  recover s0 = recover st ∧ filename s0 = filename st.
Proof.
  intros Hpc Hmemo Hpt. unfold primed.
  change (parser_pt (run_init st)) with (parser_pt st).
  destruct (read (parser_data st) (parser_pt st)) as [pt'|] eqn:Hr; [|done].
  intros [= <-]. split_and!; try done.
  - split; simpl; [|constructor]. apply canon_first. by rewrite <- Hpt.
  - intros ix m off r H. simpl in H. by rewrite Hmemo, lookup_empty in H.
Qed.

Lemma fresh_setOptions (opts : list ParseOption) f b :
  ∃ mz rc, setOptions opts (new_vm f b) = fresh f b mz rc.
Proof. apply (setOptions_fresh opts f b false true). Qed.

End Run.


(** ** The farthest failure position *)


Section Ffp.
Variable lib : golib.
Variable pg : ϡprogram.

(** A match instruction of the machine without memoization that pushes
    [ϡmatchFailed]. *)
Lemma do_Match_plain_failed (c : Z) (instr : ϡinstr) (st sp : ϡvm) :
  do_Match lib pg instr (plain c st) = Running sp →
  vm_v sp = VFailed :: vm_v st →
  ∃ a0 m, args instr !! 0%nat = Some a0 ∧ thunk_at (ms pg) a0 = Some m ∧
          ffp sp = ffp_update lib instr m (parser_pt st) (ffp st).
Proof.
  unfold do_Match. cbn [memoize plain].
  destruct (args instr !! 0%nat) as [a0|] eqn:Ha0; [|done].
  destruct (thunk_at (ms pg) a0) as [m|] eqn:Hm; [|done].
  cbn [parser_data parser_pt plain].
  destruct (matcher_match lib m (parser_data st) (parser_pt st)) as [ok pt'|];
    [|done].
  cbn [memoize set_parser_pt plain]. destruct ok.
  - cbn [parser_data parser_pt set_matchCnt set_parser_pt plain].
    destruct (sliceFrom _ _ _); [|done].
    intros [= <-]. cbn [vm_v set_vm_v set_matchCnt set_parser_pt plain].
    intros [= ].
  - intros [= <-] _. exists a0, m. split_and!; [reflexivity|done|reflexivity].
Qed.

(** C5: the farthest failure position starts with the offset -1, and a
    match instruction that fails, in any state a parse reaches, replaces it
    by the position at which the match started, the rule of the
    instruction, the code point at that position and the description of the
    matcher when the offset of that position is strictly greater than the
    recorded one, and leaves it as it is otherwise. *)
Theorem C5_farthest_failure (f : string) (b : list byte)
    (opts : list ParseOption) (n : nat) (s0 st st' : ϡvm) (instr : ϡinstr) :
  uint16_program pg →
  primed (setOptions opts (new_vm f b)) = Some s0 →
  steps lib pg n s0 = Some st →
  lookupZ (instrs pg) (pc st) = Some instr → op instr = ϡopMatch →
  step lib pg st = Running st' → vm_v st' = VFailed :: vm_v st →
  offset (ffp_pos (ffp s0)) = -1 ∧
  ∃ a0 m, args instr !! 0%nat = Some a0 ∧ thunk_at (ms pg) a0 = Some m ∧
    ffp st' =
      if decide (offset (pos (parser_pt st)) > offset (ffp_pos (ffp st)))
      then {| ffp_pos := pos (parser_pt st); ffp_ruleNmIx := ruleNmIx instr;
              ffp_rn := rn (parser_pt st); ffp_want := matcher_Sprintf lib m |}
      else ffp st.
Proof.
  intros Hpg Hprimed Hsteps Hf Hop Hstep Hv.
  destruct (fresh_setOptions opts f b) as (mz & rc & Hfresh).
  rewrite Hfresh in Hprimed.
  assert (uint16 (pc (fresh f b mz rc))) as Hpc0 by done.
  destruct (primed_inv lib pg _ _ Hpc0 eq_refl eq_refl Hprimed)
    as (Hu & Hc & Hm & Hffp & _).
  split; [done|].
  destruct (steps_inv lib pg _ _ _ Hpg Hu Hc Hm Hsteps) as (Hu' & Hc' & Hm').
  assert (step lib pg st = do_Match lib pg instr (set_pc (pc_incr (pc st)) st))
    as Hs by (unfold step; by rewrite Hf, Hop).
  destruct (do_Match_sim lib pg 0 instr (set_pc (pc_incr (pc st)) st))
    as [Hsim _]; try done.
  { cbn [pc set_pc]. rewrite pc_decr_incr; [done|apply Hu']. }
  { by destruct Hc'. }
  rewrite <- Hs, Hstep in Hsim.
  destruct (do_Match lib pg instr (plain 0 (set_pc (pc_incr (pc st)) st)))
    as [sp| |] eqn:Hplain; try done.
  destruct Hsim as [c' ->].
  apply do_Match_plain_failed in Hplain as (a0 & m & Ha0 & Hm0 & Hffp'); [|done].
  exists a0, m. split_and!; [done..|]. exact Hffp'.
Qed.

End Ffp.


(** ** Panics and the recover option *)


Section Recover.
Variable lib : golib.
Variable pg : ϡprogram.

Lemma step_options (st : ϡvm) :
  recover (outcome_state (step lib pg st)) = recover st ∧
  filename (outcome_state (step lib pg st)) = filename st.
Proof.
  unfold step. destruct (lookupZ (instrs pg) (pc st)) as [instr|]; [|done].
  destruct (op instr); unfold_ops; unfold do_Match, fromMemo, memoizeMatch;
    destruct st; simpl; try done;
    repeat (case_match; simplify_option_eq; try done).
Qed.




End Recover.


(** ** The block of an ordered choice *)


Lemma pc_incr_small (x : Z) : 0 ≤ x → x + 1 < 65536 → pc_incr x = x + 1.
Proof. intros. unfold pc_incr. apply Z.mod_small. lia. Qed.

Lemma steps_S (lib : golib) (pg : ϡprogram) (n : nat) (st st1 : ϡvm) :
  step lib pg st = Running st1 →
  steps lib pg (S n) st = steps lib pg n st1.
Proof. intros H. simpl. by rewrite H. Qed.

Lemma instrPath_S (lib : golib) (pg : ϡprogram) (n : nat) (st st1 : ϡvm) :
  step lib pg st = Running st1 →
  instrPath lib pg (S n) st = pc st :: instrPath lib pg n st1.
Proof. intros H. simpl. by rewrite H. Qed.

(** [vm_step I]: rewrite the first of the [steps] of the goal with the
    instruction fetched by the equation [I]. *)
Ltac vm_norm :=
  cbn [pc vm_p vm_l vm_v vm_i vm_a vm_a_neg parser_pt callCnt
       set_pc set_vm_p set_vm_l set_vm_v set_vm_i set_vm_a set_vm_a_neg
       set_parser_pt set_callCnt].

Ltac vm_step I :=
  erewrite steps_S;
  [| unfold step; vm_norm; rewrite I; cbn [op]; unfold_ops;
     cbn [args lookup list_lookup]; repeat (simpl decide); vm_norm;
     rewrite ?pc_incr_small by lia; reflexivity ];
  vm_norm.

Ltac vm_path I :=
  erewrite instrPath_S;
  [| unfold step; vm_norm; rewrite I; cbn [op]; unfold_ops;
     cbn [args lookup list_lookup]; repeat (simpl decide); vm_norm;
     rewrite ?pc_incr_small by lia; reflexivity ];
  vm_norm.

Section ChoiceBlock.
Variable lib : golib.
Variable pg : ϡprogram.
Variables (start rule : Z) (ls : list Z).
Hypothesis Hblk : block_at pg start rule (encodeChoice start ls).
Hypothesis H0 : 0 ≤ start.
Hypothesis H8 : start + 8 < 65536.

(** The block takes the next alternative from the L stack and calls it
    under a fresh frame of labels. *)
Lemma choice_block_calls_next (st : ϡvm) (a : Z) (rest : list Z)
    (lstk : list (list Z)) :
  pc st = start + 1 →
  vm_l st = (a :: rest) :: lstk →
  vm_a_neg st = 0%nat →
  ∃ st', steps lib pg 3 st = Some st' ∧
         pc st' = a ∧ vm_i st' = (start + 4) :: vm_i st ∧
         vm_l st' = rest :: lstk ∧ vm_a st' = ∅ :: vm_a st ∧
         vm_v st' = vm_v st ∧ callCnt st' = callCnt st + 1.
Proof.
  intros Hpc Hl Hneg.
  pose proof (Hblk 1%nat _ eq_refl) as I1.
  pose proof (Hblk 2%nat _ eq_refl) as I2.
  pose proof (Hblk 3%nat _ eq_refl) as I3.
  change (Z.of_nat 1) with 1 in I1. change (Z.of_nat 2) with 2 in I2.
  change (Z.of_nat 3) with 3 in I3.
  destruct st as [fn pd ppt mz rc pc0 cu sp sl sv si sa san mm ff mc cc ac pc1 er].
  vm_norm. cbn [pc vm_l vm_a_neg] in Hpc, Hl, Hneg. subst pc0 sl san.
  eexists. split.
  { vm_step I1. replace (start + 1 + 1) with (start + 2) by lia.
    vm_step I2. replace (start + 2 + 1) with (start + 3) by lia.
    vm_step I3. replace (start + 3 + 1) with (start + 4) by lia.
    reflexivity. }
  by split_and!.
Qed.

(** X29: in the block of an ordered choice, after an alternative that
    failed the block goes back to take the next one, and the
    [ϡmatchFailed] of the alternative stays on the V stack: [jumpIfT] only
    looks at it. *)
Lemma choice_block_after_failure (st : ϡvm) (vs : list value) :
  pc st = start + 4 →
  vm_v st = VFailed :: vs →
  ∃ st', steps lib pg 3 st = Some st' ∧
         pc st' = start + 1 ∧ vm_i st' = vm_i st ∧ vm_l st' = vm_l st ∧
         vm_v st' = VFailed :: vs ∧ callCnt st' = callCnt st ∧
         parser_pt st' = parser_pt st.
Proof.
  intros Hpc Hv.
  pose proof (Hblk 4%nat _ eq_refl) as I4.
  pose proof (Hblk 5%nat _ eq_refl) as I5.
  pose proof (Hblk 6%nat _ eq_refl) as I6.
  change (Z.of_nat 4) with 4 in I4. change (Z.of_nat 5) with 5 in I5.
  change (Z.of_nat 6) with 6 in I6.
  destruct st as [fn pd ppt mz rc pc0 cu sp sl sv si sa san mm ff mc cc ac pc1 er].
  vm_norm. cbn [pc vm_v] in Hpc, Hv. subst pc0 sv.
  destruct sa as [|fr sa].
  - eexists. split.
    { vm_step I4. replace (start + 4 + 1) with (start + 5) by lia.
      vm_step I5. replace (start + 5 + 1) with (start + 6) by lia.
      vm_step I6. reflexivity. }
    by split_and!.
  - eexists. split.
    { vm_step I4. replace (start + 4 + 1) with (start + 5) by lia.
      vm_step I5. replace (start + 5 + 1) with (start + 6) by lia.
      vm_step I6. reflexivity. }
    by split_and!.
Qed.

(** With no alternative left the block returns to its caller and pushes
    nothing. *)
Lemma choice_block_exhausted (st : ϡvm) (lstk : list (list Z)) (ret : Z)
    (istk : list Z) :
  pc st = start + 1 →
  vm_l st = [] :: lstk →
  vm_i st = ret :: istk →
  ∃ st', steps lib pg 3 st = Some st' ∧
         pc st' = ret ∧ vm_i st' = istk ∧ vm_l st' = lstk ∧
         vm_v st' = vm_v st ∧ callCnt st' = callCnt st ∧
         parser_pt st' = parser_pt st.
Proof.
  intros Hpc Hl Hi.
  pose proof (Hblk 1%nat _ eq_refl) as I1.
  pose proof (Hblk 7%nat _ eq_refl) as I7.
  pose proof (Hblk 8%nat _ eq_refl) as I8.
  change (Z.of_nat 1) with 1 in I1. change (Z.of_nat 7) with 7 in I7.
  change (Z.of_nat 8) with 8 in I8.
  destruct st as [fn pd ppt mz rc pc0 cu sp sl sv si sa san mm ff mc cc ac pc1 er].
  vm_norm. cbn [pc vm_l vm_i] in Hpc, Hl, Hi. subst pc0 sl si.
  eexists. split.
  { vm_step I1. vm_step I7. replace (start + 7 + 1) with (start + 8) by lia.
    vm_step I8. reflexivity. }
  by split_and!.
Qed.


End ChoiceBlock.


(** ** The block of a matcher *)


Section MatcherBlock.
Variable lib : golib.
Variable pg : ϡprogram.

Lemma do_Match_frame (instr : ϡinstr) (st st2 : ϡvm) :
  do_Match lib pg instr st = Running st2 →
  pc st2 = pc st ∧ vm_p st2 = vm_p st ∧ vm_i st2 = vm_i st ∧
  ∃ v, vm_v st2 = v :: vm_v st.
Proof.
  unfold do_Match, fromMemo, memoizeMatch. destruct st; simpl.
  intros H. repeat (case_match; simplify_option_eq; try done); eauto.
Qed.

(** X30: the block of a matcher, entered at [start]: when it returns with
    [ϡmatchFailed] on top of the V stack, the parser is where it was, and
    so is the P stack. *)
Lemma matcher_block_failed_restores (start rule mIx : Z) (st st' : ϡvm) :
  block_at pg start rule (encodeMatcher mIx) →
  0 ≤ start → start + 3 < 65536 →
  pc st = start →
  steps lib pg 4 st = Some st' →
  head (vm_v st') = Some VFailed →
  parser_pt st' = parser_pt st ∧ vm_p st' = vm_p st.
Proof.
  intros Hblk H0 H3 Hpc Hsteps Htop.
  pose proof (Hblk 0%nat _ eq_refl) as I0.
  pose proof (Hblk 1%nat _ eq_refl) as I1.
  pose proof (Hblk 2%nat _ eq_refl) as I2.
  pose proof (Hblk 3%nat _ eq_refl) as I3.
  change (Z.of_nat 0) with 0 in I0. change (Z.of_nat 1) with 1 in I1.
  change (Z.of_nat 2) with 2 in I2. change (Z.of_nat 3) with 3 in I3.
  rewrite Z.add_0_r in I0. rewrite <- Hpc in *.
  (* push P *)
  assert (step lib pg st =
          Running (set_vm_p (parser_pt st :: vm_p st) (set_pc (pc st + 1) st))) as S0.
  { unfold step. rewrite I0. cbn [op]. unfold do_Push.
    cbn [args lookup list_lookup]. simpl decide. cbn [parser_pt vm_p set_pc].
    by rewrite pc_incr_small by lia. }
  rewrite (steps_S _ _ _ _ _ S0) in Hsteps.
  (* match *)
  set (st1 := set_vm_p _ _) in *.
  assert (step lib pg st1 =
          do_Match lib pg {| op := ϡopMatch; ruleNmIx := rule; args := [mIx] |}
                   (set_pc (pc st + 2) st1)) as S1.
  { unfold step. cbn [pc st1 set_vm_p set_pc]. rewrite I1. cbn [op].
    rewrite pc_incr_small by lia. by replace (pc st + 1 + 1) with (pc st + 2) by lia. }
  cbn [steps] in Hsteps. rewrite S1 in Hsteps.
  destruct (do_Match lib pg _ _) as [st2| |] eqn:Hm; [|done..].
  apply do_Match_frame in Hm as (Hpc2 & Hp2 & Hi2 & v & Hv2).
  cbn [pc vm_p vm_i vm_v st1 set_vm_p set_pc] in Hpc2, Hp2, Hi2, Hv2.
  (* restoreIfF and return *)
  unfold step at 1 in Hsteps. rewrite Hpc2, I2 in Hsteps. cbn [op] in Hsteps.
  unfold do_RestoreIfF in Hsteps.
  cbn [vm_p vm_v set_pc set_vm_p] in Hsteps. rewrite Hp2, Hv2 in Hsteps.
  rewrite pc_incr_small in Hsteps by lia.
  replace (pc st + 2 + 1) with (pc st + 3) in Hsteps by lia.
  destruct (is_failed v) eqn:Hf;
    (unfold step in Hsteps;
     cbn [pc set_parser_pt set_vm_p set_pc] in Hsteps; rewrite I3 in Hsteps;
     cbn [op] in Hsteps; unfold do_Return in Hsteps;
     cbn [vm_i set_parser_pt set_vm_p set_pc] in Hsteps;
     destruct (vm_i st2); [done|]; injection Hsteps as <-;
     cbn [vm_v parser_pt vm_p set_pc set_vm_i set_parser_pt set_vm_p] in *).
  - done.
  - rewrite Hv2 in Htop. simpl in Htop. injection Htop as ->. done.
Qed.

End MatcherBlock.


(** ** Runs of the model *)


(** The grammars [A = 'a'] and [A = 'a' / 'b'] on small inputs. *)
Example parse_lit_a :
  Parse ascii_lib prog_lit_a 100 "" (bytes "a") []
  = Returned (VBytes (bytes "a")) None.
Proof. vm_compute. reflexivity. Qed.

Example parse_lit_a_no_match :
  Parse ascii_lib prog_lit_a 100 "" (bytes "b") []
  = Returned VNil
      (Some [ {| Inner := ErrFfp {| ffp_pos := {| line := 1; col := 1; offset := 0 |};
                                    ffp_ruleNmIx := 0; ffp_rn := 98;
                                    ffp_want := Quote ascii_lib "a" |};
                 ϡpos := zero_position; ϡprefix := "1:1 (0): rule A" |} ]).
Proof. vm_compute. reflexivity. Qed.

Example parse_choice_b :
  Parse ascii_lib prog_choice 100 "" (bytes "b") []
  = Returned (VBytes (bytes "b")) None.
Proof. vm_compute. reflexivity. Qed.

(** A literal with the case-fold flag, on upper case input. *)
Example casefold_literal_AB :
  matcher_match ascii_lib (ϡstringMatcher true "ab") (bytes "ABc")
    {| pos := {| line := 1; col := 1; offset := 0 |}; rn := 65; w := 1 |}
  = MatchRet true
      {| pos := {| line := 1; col := 3; offset := 2 |}; rn := 99; w := 1 |}.
Proof. vm_compute. reflexivity. Qed.

(** C1 does not hold as stated: for the grammar [A = 'a' { x }] whose
    action returns 42 with an error, on the input "a", the match succeeds,
    an error is recorded, and [Parse] returns 42 with the error list, not
    nil. *)
Lemma C1_counterexample :
  dispatch ascii_lib prog_action 100 (run_init (new_vm "" (bytes "a")))
    = DReturn (VUser 42) (machine_returned prog_action "a" 100)
  ∧ VUser 42 ≠ VFailed
  ∧ errs (machine_returned prog_action "a" 100) ≠ []
  ∧ Parse ascii_lib prog_action 100 "" (bytes "a") []
    = Returned (VUser 42)
        (Some [ {| Inner := ErrOther "boom"; ϡpos := zero_position;
                   ϡprefix := "1:1 (0): rule A" |} ])
  ∧ VUser 42 ≠ VNil.
Proof. vm_compute. split_and!; done. Qed.

Lemma C1_witness :
  (errs (machine_returned prog_action "a" 100) = [] →
   run ascii_lib prog_action 100 (new_vm "" (bytes "a"))
   = Returned (VUser 42) None) ∧
  (errs (machine_returned prog_action "a" 100) ≠ [] →
   run ascii_lib prog_action 100 (new_vm "" (bytes "a"))
   = Returned (VUser 42)
       (Some (ϡdedupe ascii_lib (errs (machine_returned prog_action "a" 100))))).
Proof.
  apply (C1_run_returns_value_and_errors ascii_lib prog_action 100
           (new_vm "" (bytes "a")) (machine_returned prog_action "a" 100)
           (VUser 42)).
  - vm_compute. reflexivity.
  - discriminate.
Defined.

Lemma C2_witness :
  uint16_program prog_twice ∧
  Parse ascii_lib prog_twice 100 "in" (bytes "b") ([] ++ [Memoize true]) =
  Parse ascii_lib prog_twice 100 "in" (bytes "b") ([] ++ [Memoize false]).
Proof.
  assert (uint16_program prog_twice) as H
    by (apply (bool_decide_unpack _); vm_compute; exact I).
  split; [exact H|].
  apply (C2_memoize_transparent ascii_lib prog_twice H).
Defined.

(** With memoization the second alternative is served from the table: the
    count of executed matches is one, against two without. *)
Example prog_twice_memo_hit :
  matchCnt (machine_returned prog_twice "b" 100) = 2 ∧
  match dispatch ascii_lib prog_twice 100
          (run_init (set_memoize true (new_vm "" (bytes "b")))) with
  | DReturn _ st => matchCnt st = 1
  | _ => False
  end.
Proof. vm_compute. done. Qed.

(** C3 on the grammar [A = ('a' / 'b')+] and the input "a": the block of
    the repetition, entered at 21 with the parser at offset 0, returns to
    its caller with [ϡmatchFailed] on top of the V stack and the parser at
    offset 1. *)
Theorem C3_repetition_over_choice_moves_cursor :
  let entry := machine_after prog_rep_choice "a" 3 in
  let exit := machine_after prog_rep_choice "a" 53 in
  steps ascii_lib prog_rep_choice 50 entry = Some exit
  ∧ pc entry = 21 ∧ vm_i entry = [3] ∧ vm_v entry = []
  ∧ pc exit = 3 ∧ vm_i exit = []
  ∧ head (vm_v exit) = Some VFailed
  ∧ offset (pos (parser_pt entry)) = 0
  ∧ offset (pos (parser_pt exit)) = 1
  ∧ parser_pt exit ≠ parser_pt entry.
Proof. vm_compute. split_and!; done. Qed.

(** C9 on the grammar [A = ('a' / 'b')+] and the input "a": the child of
    the repetition, the choice at 12, returns the match of "a" to the
    repetition at 25, and still the repetition returns to its caller with
    [ϡmatchFailed] on top of the V stack, so that [Parse] reports an
    error. *)
Theorem C9_one_or_more_over_choice_fails_after_a_match :
  let entry := machine_after prog_rep_choice "a" 3 in
  let first := machine_after prog_rep_choice "a" 19 in
  let exit := machine_after prog_rep_choice "a" 53 in
  steps ascii_lib prog_rep_choice 16 entry = Some first
  ∧ steps ascii_lib prog_rep_choice 34 first = Some exit
  ∧ pc entry = 21 ∧ vm_i entry = [3]
  ∧ pc first = 25 ∧ vm_i first = [3]
  ∧ head (vm_v first) = Some (VBytes (bytes "a"))
  ∧ pc exit = 3 ∧ vm_i exit = []
  ∧ head (vm_v exit) = Some VFailed
  ∧ ∃ errors, Parse ascii_lib prog_rep_choice 100 "" (bytes "a") []
              = Returned VNil (Some errors).
Proof. vm_compute. split_and!; try done. eexists. reflexivity. Qed.


Lemma C5_witness :
  offset (ffp_pos (ffp (machine_after prog_lit_a "b" 0))) = -1 ∧
  ∃ a0 m,
    args {| op := ϡopMatch; ruleNmIx := 0; args := [0] |} !! 0%nat = Some a0 ∧
    thunk_at (ms prog_lit_a) a0 = Some m ∧
    ffp (machine_after prog_lit_a "b" 5) =
      if decide (offset (pos (parser_pt (machine_after prog_lit_a "b" 4)))
                 > offset (ffp_pos (ffp (machine_after prog_lit_a "b" 4))))
      then {| ffp_pos := pos (parser_pt (machine_after prog_lit_a "b" 4));
              ffp_ruleNmIx := 0;
              ffp_rn := rn (parser_pt (machine_after prog_lit_a "b" 4));
              ffp_want := matcher_Sprintf ascii_lib m |}
      else ffp (machine_after prog_lit_a "b" 4).
Proof.
  apply (C5_farthest_failure ascii_lib prog_lit_a "" (bytes "b") [] 4
           (machine_after prog_lit_a "b" 0) (machine_after prog_lit_a "b" 4)
           (machine_after prog_lit_a "b" 5)
           {| op := ϡopMatch; ruleNmIx := 0; args := [0] |}).
  - apply (bool_decide_unpack _). vm_compute. exact I.
  - vm_compute. reflexivity.
  - vm_compute. reflexivity.
  - vm_compute. reflexivity.
  - reflexivity.
  - vm_compute. reflexivity.
  - vm_compute. reflexivity.
Defined.



Lemma C7_witness :
  let e := {| Inner := ErrOther "bad"; ϡpos := zero_position;
              ϡprefix := "1:1 (0): rule A" |} in
  ∃ ret0 st0,
    dispatch ascii_lib prog_twice_error 100 (run_init (new_vm "" (bytes "a")))
      = DReturn ret0 st0 ∧
    NoDup (Error ascii_lib <$> [e]) ∧
    [e] = first_occurrences ascii_lib (errs (run_finish prog_twice_error ret0 st0).2).
Proof.
  apply (C7_error_list_deduplicated ascii_lib prog_twice_error 100
           (new_vm "" (bytes "a")) VNil).
  vm_compute. reflexivity.
Defined.

(** The machine of that run has recorded the error twice. *)
Example prog_twice_error_accumulated :
  Error ascii_lib <$> errs (machine_returned prog_twice_error "a" 100)
  = ["1:1 (0): rule A: bad"; "1:1 (0): rule A: bad"].
Proof. vm_compute. reflexivity. Qed.



Lemma C10_witness :
  matcher_match ascii_lib (ϡcharClassMatcher [] [97; 122] [] true true) [] eof_pt
    = MatchRet true eof_pt
  ∧ matcher_match ascii_lib ϡanyMatcher [] eof_pt = MatchRet false eof_pt.
Proof.
  apply (C10_inverted_class_at_eof ascii_lib [] [97; 122] [] true [] eof_pt).
  - vm_compute. split_and!; reflexivity.
  - reflexivity.
  - apply not_elem_of_nil.
  - reflexivity.
  - repeat constructor. vm_compute. intros [_ H]. apply H. reflexivity.
  - constructor.
Defined.


(** ** The encoding of instructions in words *)


Section Encoding.

Lemma field_of_shifted (a md j : Z) :
  0 ≤ a ≤ 65535 → 0 ≤ md < 4 → 0 ≤ j < 4 →
  Z.land (Z.shiftr (to_uint64 (Z.shiftl (to_uint64 a) (48 - md * 16)))
                   (48 - 16 * j)) 65535
  = if decide (j = md) then a else 0.
Proof.
  intros Ha Hmd Hj. unfold to_uint64.
  rewrite (Z.mod_small a) by lia.
  change 65535 with (Z.ones 16). rewrite Z.land_ones by lia.
  rewrite Z.shiftl_mul_pow2 by lia. rewrite Z.shiftr_div_pow2 by lia.
  assert (md = 0 ∨ md = 1 ∨ md = 2 ∨ md = 3) as Hm by lia.
  assert (j = 0 ∨ j = 1 ∨ j = 2 ∨ j = 3) as Hjj by lia.
  destruct Hm as [->|[->|[->| ->]]]; destruct Hjj as [->|[->|[->| ->]]];
    match goal with
    | |- context [2 ^ ?e] => let v := eval vm_compute in (2 ^ e) in
                             change (2 ^ e) with v
    end.
  all: repeat match goal with
    | |- context [2 ^ ?e] => let v := eval vm_compute in (2 ^ e) in
                             change (2 ^ e) with v
    end.
  all: destruct (decide _); try lia; Z.div_mod_to_equations; lia.
Qed.


Lemma slot_field_app0 (words : list Z) (k : nat) (j : Z) :
  slot_field (words ++ [0]) k j = slot_field words k j.
Proof.
  unfold slot_field. destruct (decide (k < length words)%nat).
  - by rewrite lookup_app_l by done.
  - rewrite lookup_app_r by lia. rewrite (lookup_ge_None_2 words k) by lia.
    by destruct (k - length words)%nat.
Qed.

Lemma slot_field_insert (words : list Z) (ix : nat) (w v : Z) (k : nat) (j : Z) :
  words !! ix = Some w →
  slot_field (<[ix := Z.lor w v]> words) k j
  = Z.lor (slot_field words k j)
          (if decide (k = ix) then Z.land (Z.shiftr v (48 - 16 * j)) 65535
           else 0).
Proof.
  intros Hw. unfold slot_field. destruct (decide (k = ix)) as [->|Hne].
  - rewrite list_lookup_insert_eq by (by eapply lookup_lt_Some).
    rewrite Hw. simpl. by rewrite Z.shiftr_lor, Z.land_lor_distr_l.
  - rewrite list_lookup_insert_ne by done. by rewrite Z.lor_0_r.
Qed.

(** The loop of [ϡencodeInstr] on arguments that fit in 16 bits: it fills
    the slot of each argument and leaves the others as they are. *)
Lemma encode_args_spec (rest : list Z) : ∀ (i : Z) (words : list Z) (ix : nat),
  Forall (λ a, 0 ≤ a ≤ 65535) rest →
  0 ≤ i → ix = Z.to_nat (i / 4) → length words = S ix →
  ∃ out, encode_args 48 i rest words ix = EncOk out ∧
    length out = S (Z.to_nat ((i + Z.of_nat (length rest)) / 4)) ∧
    ∀ (k : nat) (j : Z), 0 ≤ j < 4 →
      slot_field out k j
      = Z.lor (slot_field words k j)
          (if decide (i ≤ 4 * Z.of_nat k + j - 1)
           then default 0 (rest !! Z.to_nat (4 * Z.of_nat k + j - 1 - i))
           else 0).
Proof.
  induction rest as [|a rest IH]; intros i words ix Hall Hi Hix Hlen.
  - exists words. split; [done|]. split.
    + simpl. rewrite Z.add_0_r. by rewrite <- Hix.
    + intros k j Hj. destruct (decide _); simpl; by rewrite Z.lor_0_r.
  - apply Forall_cons in Hall as [Ha Hall]. cbn [encode_args].
    change ϡlMask with 65535. change ϡlPerI with 4. change ϡlBits with 16.
    destruct (65535 <? a) eqn:Hlt; [lia|].
    set (md := (i + 1) mod 4).
    assert (0 ≤ md < 4) as Hmd by (subst md; apply Z.mod_pos_bound; lia).
    assert ((i + 1) / 4 = if md =? 0 then i / 4 + 1 else i / 4) as Hdiv.
    { subst md. destruct (_ =? 0) eqn:E; Z.div_mod_to_equations; lia. }
    set (p := if md =? 0 then (words ++ [0], S ix) else (words, ix)).
    assert (length p.1 = S p.2 ∧ p.2 = Z.to_nat ((i + 1) / 4) ∧
            ∀ k j, slot_field p.1 k j = slot_field words k j) as (Hl1 & Hix1 & Hf1).
    { subst p. rewrite Hdiv. destruct (md =? 0); simpl.
      - split_and!; [rewrite length_app; simpl; lia| |apply slot_field_app0].
        rewrite Z2Nat.inj_add by (try apply Z.div_pos; lia). simpl. lia.
      - done. }
    destruct p as [words1 ix1]. simpl in Hl1, Hix1, Hf1.
    destruct (words1 !! ix1) as [w|] eqn:Hw;
      [|apply lookup_ge_None_1 in Hw; lia].
    edestruct (IH (i + 1) (<[ix1 := Z.lor w (to_uint64 (Z.shiftl (to_uint64 a)
                                               (48 - md * 16)))]> words1) ix1)
      as (out & Hout & Hlo & Hfo); [done|lia|done|by rewrite length_insert|].
    exists out. split; [done|]. split.
    + rewrite Hlo. simpl length. do 3 f_equal. lia.
    + intros k j Hj. rewrite Hfo by done.
      rewrite (slot_field_insert _ _ _ _ _ _ Hw), Hf1.
      rewrite <- Z.lor_assoc. f_equal.
      destruct (decide (k = ix1)) as [->|Hk].
      * rewrite field_of_shifted by lia.
        destruct (decide (j = md)) as [->|Hjm].
        -- assert (4 * Z.of_nat ix1 + md - 1 = i) as ->.
           { rewrite Hix1. rewrite Z2Nat.id by (apply Z.div_pos; lia).
             subst md. Z.div_mod_to_equations. lia. }
           rewrite decide_False by lia. rewrite decide_True by lia.
           by rewrite Z.sub_diag, Z.lor_0_r.
        -- rewrite Z.lor_0_l.
           assert (4 * Z.of_nat ix1 + j - 1 ≠ i) as Hne.
           { rewrite Hix1. rewrite Z2Nat.id by (apply Z.div_pos; lia).
             subst md. Z.div_mod_to_equations. lia. }
           destruct (decide (i + 1 ≤ _)), (decide (i ≤ _)); try lia.
           replace (Z.to_nat (4 * Z.of_nat ix1 + j - 1 - i))
             with (S (Z.to_nat (4 * Z.of_nat ix1 + j - 1 - (i + 1)))) by lia.
           done.
      * rewrite Z.lor_0_l.
        assert (4 * Z.of_nat k + j - 1 ≠ i) as Hne.
        { intros E. apply Hk. rewrite Hix1. subst md.
          apply Nat2Z.inj. rewrite Z2Nat.id by (apply Z.div_pos; lia).
          Z.div_mod_to_equations. lia. }
        destruct (decide (i + 1 ≤ _)), (decide (i ≤ _)); try lia.
        replace (Z.to_nat (4 * Z.of_nat k + j - 1 - i))
          with (S (Z.to_nat (4 * Z.of_nat k + j - 1 - (i + 1)))) by lia.
        done.
Qed.


(** The loop of [ϡencodeInstr] on any arguments: it stops at the first
    argument above [ϡlMask], and never indexes out of range. *)
Lemma encode_args_result (rest : list Z) : ∀ (i : Z) (words : list Z) (ix : nat),
  0 ≤ i → ix = Z.to_nat (i / 4) → length words = S ix →
  match encode_args 48 i rest words ix with
  | EncOk out =>
    Forall (λ a, a ≤ ϡlMask) rest ∧
    length out = S (Z.to_nat ((i + Z.of_nat (length rest)) / 4))
  | EncErr msg =>
    Exists (λ a, ϡlMask < a) rest ∧ msg = "argument value too big"
  | EncPanic => False
  end.
Proof.
  induction rest as [|a rest IH]; intros i words ix Hi Hix Hlen.
  - simpl. rewrite Z.add_0_r. by rewrite <- Hix.
  - cbn [encode_args]. destruct (ϡlMask <? a) eqn:Hlt.
    { split; [|done]. left. lia. }
    change ϡlPerI with 4. set (md := (i + 1) mod 4).
    assert ((i + 1) / 4 = if md =? 0 then i / 4 + 1 else i / 4) as Hdiv.
    { subst md. destruct (_ =? 0) eqn:E; Z.div_mod_to_equations; lia. }
    set (p := if md =? 0 then (words ++ [0], S ix) else (words, ix)).
    assert (length p.1 = S p.2 ∧ p.2 = Z.to_nat ((i + 1) / 4)) as (Hl1 & Hix1).
    { subst p. rewrite Hdiv. destruct (md =? 0); simpl; [|done].
      split; [rewrite length_app; simpl; lia|].
      rewrite Z2Nat.inj_add by (try apply Z.div_pos; lia). simpl. lia. }
    destruct p as [words1 ix1]. simpl in Hl1, Hix1.
    destruct (words1 !! ix1) as [w|] eqn:Hw;
      [|apply lookup_ge_None_1 in Hw; lia].
    match goal with
    | |- match encode_args _ _ _ ?ws _ with _ => _ end =>
      specialize (IH (i + 1) ws ix1)
    end.
    destruct (encode_args _ _ _ _ _) as [out|msg|].
    + destruct IH as [Hall Hlo]; [lia|done|by rewrite length_insert|].
      split; [constructor; [lia|done]|].
      rewrite Hlo. simpl length. do 3 f_equal. lia.
    + destruct IH as [Hex ->]; [lia|done|by rewrite length_insert|].
      split; [by right|done].
    + apply IH; [lia|done|by rewrite length_insert].
Qed.

Lemma encodeInstr_length (op : Z) (args words : list Z) :
  ϡencodeInstr op args = EncOk words →
  Z.of_nat (length words) = 1 + Z.of_nat (length args) / 4.
Proof.
  unfold ϡencodeInstr. destruct (ϡopMax <=? op); [done|].
  destruct (ϡnMask <? _); [done|]. destruct (_ =? 0) eqn:Hn.
  - intros [= <-]. apply Z.eqb_eq in Hn. rewrite Hn. done.
  - intros H.
    pose proof (encode_args_result args 0 [Z.lor (to_uint64 (Z.shiftl op (ϡiBits - ϡoBits)))
                  (to_uint64 (Z.shiftl (Z.of_nat (length args)) (ϡiBits - ϡoBits - ϡnBits)))] 0%nat) as Hr.
    change (ϡiBits - ϡoBits - ϡnBits) with 48 in *. rewrite H in Hr.
    destruct Hr as [_ ->]; [done..|]. rewrite Z.add_0_l.
    rewrite Nat2Z.inj_succ, Z2Nat.id by (apply Z.div_pos; lia). lia.
Qed.

Lemma decode_slots (w : Z) :
  decode w = (Z.land (Z.shiftr (Z.land (Z.shiftr w 48) 65535) 10) 63,
              Z.land (Z.land (Z.shiftr w 48) 65535) 1023,
              slot_field [w] 0 1, slot_field [w] 0 2, slot_field [w] 0 3).
Proof.
  unfold decode, slot_field. simpl default.
  change ϡlMask with 65535. change ϡnMask with 1023. change ϡoMask with 63.
  change ϡlBits with 16. change ϡnBits with 10.
  rewrite !Z.shiftr_shiftr by lia.
  change (16 + (16 + (16 + 10))) with 58. change (16 + (16 + 16)) with 48.
  change (16 + 16) with 32. change (48 - 16 * 1) with 32.
  change (48 - 16 * 2) with 16. change (48 - 16 * 3) with 0.
  rewrite Z.shiftr_0_r.
  do 4 f_equal.
  - change 65535 with (Z.ones 16). change 63 with (Z.ones 6).
    rewrite !Z.land_ones, !Z.shiftr_div_pow2 by lia.
    change (2 ^ 58) with 288230376151711744. change (2 ^ 48) with 281474976710656.
    change (2 ^ 16) with 65536. change (2 ^ 10) with 1024. change (2 ^ 6) with 64.
    Z.div_mod_to_equations. lia.
  - change 65535 with (Z.ones 16). change 1023 with (Z.ones 10).
    rewrite !Z.land_ones, !Z.shiftr_div_pow2 by lia.
    change (2 ^ 48) with 281474976710656.
    change (2 ^ 16) with 65536. change (2 ^ 10) with 1024.
    Z.div_mod_to_equations. lia.
Qed.

Lemma decodeLs_slots (w : Z) :
  decodeLs w = (slot_field [w] 0 0, slot_field [w] 0 1,
                slot_field [w] 0 2, slot_field [w] 0 3).
Proof.
  unfold decodeLs, slot_field. simpl default.
  change ϡlMask with 65535. change ϡlBits with 16.
  rewrite !Z.shiftr_shiftr by lia. simpl Z.add. simpl Z.sub.
  by rewrite Z.shiftr_0_r.
Qed.

Lemma testbit_small (n k b : Z) :
  0 ≤ n < 2 ^ b → 0 ≤ b ≤ k → Z.testbit n k = false.
Proof.
  intros Hn Hk. destruct (decide (n = 0)) as [->|]; [apply Z.bits_0|].
  apply Z.bits_above_log2; [lia|].
  apply Z.lt_le_trans with b; [|lia]. apply Z.log2_lt_pow2; lia.
Qed.

Lemma first_word_sum (op n : Z) :
  0 ≤ op < 64 → 0 ≤ n < 1024 →
  Z.lor (to_uint64 (Z.shiftl op 58)) (to_uint64 (Z.shiftl n 48))
  = op * 288230376151711744 + n * 281474976710656.
Proof.
  intros Hop Hn. unfold to_uint64.
  rewrite !Z.mod_small by (rewrite Z.shiftl_mul_pow2 by lia; lia).
  rewrite <- Z.lxor_lor, <- Z.add_nocarry_lxor.
  - by rewrite !Z.shiftl_mul_pow2 by lia.
  - apply Z.bits_inj'; intros k Hk. rewrite Z.land_spec, Z.bits_0.
    destruct (decide (k < 58)).
    + by rewrite Z.shiftl_spec_low by lia.
    + rewrite (Z.shiftl_spec n) by lia.
      rewrite (testbit_small n (k - 48) 10), andb_false_r; [done|lia|lia].
  - apply Z.bits_inj'; intros k Hk. rewrite Z.land_spec, Z.bits_0.
    destruct (decide (k < 58)).
    + by rewrite Z.shiftl_spec_low by lia.
    + rewrite (Z.shiftl_spec n) by lia.
      rewrite (testbit_small n (k - 48) 10), andb_false_r; [done|lia|lia].
Qed.

(** The first word before the loop: the opcode and the count in its
    leftmost 16 bits, nothing in the three slots of the arguments. *)
Lemma first_word_slots (op n : Z) :
  0 ≤ op < 64 → 0 ≤ n < 1024 →
  let w := Z.lor (to_uint64 (Z.shiftl op 58)) (to_uint64 (Z.shiftl n 48)) in
  Z.land (Z.shiftr w 48) 65535 = op * 1024 + n ∧
  slot_field [w] 0 1 = 0 ∧ slot_field [w] 0 2 = 0 ∧ slot_field [w] 0 3 = 0.
Proof.
  intros Hop Hn w. subst w. rewrite first_word_sum by done.
  unfold slot_field. simpl default.
  change 65535 with (Z.ones 16).
  rewrite !Z.land_ones, !Z.shiftr_div_pow2 by lia.
  change (48 - 16 * 1) with 32.
  change (48 - 16 * 2) with 16. change (48 - 16 * 3) with 0.
  change (2 ^ 48) with 281474976710656. change (2 ^ 32) with 4294967296.
  change (2 ^ 16) with 65536. change (2 ^ 0) with 1.
  split_and!; Z.div_mod_to_equations; lia.
Qed.

Lemma top_field_split (op n : Z) :
  0 ≤ op < 64 → 0 ≤ n < 1024 →
  Z.land (Z.shiftr (op * 1024 + n) 10) 63 = op ∧
  Z.land (op * 1024 + n) 1023 = n.
Proof.
  intros Hop Hn. change 63 with (Z.ones 6). change 1023 with (Z.ones 10).
  rewrite !Z.land_ones, !Z.shiftr_div_pow2 by lia.
  change (2 ^ 10) with 1024. change (2 ^ 6) with 64.
  split; Z.div_mod_to_equations; lia.
Qed.

Lemma slot_field_head (w : Z) (rest : list Z) (j : Z) :
  slot_field (w :: rest) 0 j = slot_field [w] 0 j.
Proof. done. Qed.

Lemma slot_field_beyond (w : Z) (k : nat) (j : Z) :
  (0 < k)%nat → slot_field [w] k j = 0.
Proof.
  intros Hk. unfold slot_field. destruct k as [|k]; [lia|]. simpl.
  by rewrite Z.shiftr_0_l.
Qed.

(** What [ϡencodeInstr] returns for an opcode, a count and arguments that
    fit in their fields: the words, whose slots hold the opcode with the
    count and then the arguments, four to a word. *)
Lemma encodeInstr_slots (op : Z) (args : list Z) :
  0 ≤ op < ϡopMax → Z.of_nat (length args) ≤ ϡnMask →
  Forall (λ a, 0 ≤ a ≤ ϡlMask) args →
  ∃ w rest, ϡencodeInstr op args = EncOk (w :: rest) ∧
    Z.land (Z.shiftr w 48) 65535 = op * 1024 + Z.of_nat (length args) ∧
    ∀ (k : nat) (j : Z), 0 ≤ j < 4 → (k, j) ≠ (0%nat, 0) →
      slot_field (w :: rest) k j
      = default 0 (args !! Z.to_nat (4 * Z.of_nat k + j - 1)).
Proof.
  change ϡopMax with 20. change ϡnMask with 1023. change ϡlMask with 65535.
  intros Hop Hn Hall. unfold ϡencodeInstr.
  change ϡopMax with 20. change ϡnMask with 1023.
  change (ϡiBits - ϡoBits - ϡnBits) with 48. change (ϡiBits - ϡoBits) with 58.
  destruct (20 <=? op) eqn:E1; [lia|]. destruct (1023 <? _) eqn:E2; [lia|].
  pose proof (first_word_slots op (Z.of_nat (length args)) ltac:(lia) ltac:(lia))
    as (Hf0 & Hf1 & Hf2 & Hf3). cbv zeta in Hf0, Hf1, Hf2, Hf3.
  assert (∀ j, 0 ≤ j < 4 → j ≠ 0 →
            slot_field [Z.lor (to_uint64 (Z.shiftl op 58))
                          (to_uint64 (Z.shiftl (Z.of_nat (length args)) 48))]
                       0 j = 0) as Hfj.
  { intros j Hj Hj0.
    assert (j = 1 ∨ j = 2 ∨ j = 3) as [->|[->| ->]] by lia; done. }
  destruct (_ =? 0) eqn:E3.
  - apply Z.eqb_eq in E3. destruct args; [|simpl in E3; lia].
    simpl length in *. change (Z.of_nat 0) with 0 in *.
    assert (Z.lor (to_uint64 (Z.shiftl op 58)) (to_uint64 (Z.shiftl 0 48))
            = to_uint64 (Z.shiftl op 58)) as Hw.
    { rewrite Z.shiftl_0_l. unfold to_uint64. rewrite Z.mod_0_l by lia.
      by rewrite Z.lor_0_r. }
    rewrite Hw in *. eexists _, []. split; [done|]. split; [done|].
    intros k j Hj Hkj. rewrite lookup_nil. simpl.
    destruct k as [|k].
    + apply Hfj; [done|]. intros ->. done.
    + by apply slot_field_beyond; lia.
  - destruct (encode_args_spec args 0
                [Z.lor (to_uint64 (Z.shiftl op 58))
                   (to_uint64 (Z.shiftl (Z.of_nat (length args)) 48))] 0%nat)
      as (out & Hout & Hlen & Hslots); [done|lia|done|done|].
    destruct out as [|w rest]; [done|].
    exists w, rest. split; [done|]. split.
    + change (Z.land (Z.shiftr w 48) 65535) with (slot_field (w :: rest) 0 0).
      rewrite Hslots by lia. rewrite decide_False by lia.
      rewrite Z.lor_0_r. exact Hf0.
    + intros k j Hj Hkj. rewrite Hslots by done.
      assert (0 ≤ 4 * Z.of_nat k + j - 1).
      { destruct k; [|lia]. destruct (decide (j = 0)) as [->|]; [done|lia]. }
      rewrite decide_True by lia. rewrite Z.sub_0_r.
      destruct k as [|k].
      * rewrite Hfj; [by rewrite Z.lor_0_l|done|]. by intros ->.
      * rewrite slot_field_beyond by lia. by rewrite Z.lor_0_l.
Qed.

(** X1: an instruction whose opcode is below [ϡopMax], with at most
    [ϡnMask] arguments that all fit in 16 bits, is encoded without error,
    and [decode] of the first word returns the opcode, the number of
    arguments and the first three arguments, 0 standing for an argument the
    instruction does not have. *)
Theorem encode_decode_first_word (op : Z) (args : list Z) :
  0 ≤ op < ϡopMax → Z.of_nat (length args) ≤ ϡnMask →
  Forall (λ a, 0 ≤ a ≤ ϡlMask) args →
  ∃ w rest, ϡencodeInstr op args = EncOk (w :: rest) ∧
    decode w = (op, Z.of_nat (length args), default 0 (args !! 0%nat),
                default 0 (args !! 1%nat), default 0 (args !! 2%nat)).
Proof.
  intros Hop Hn Hall.
  destruct (encodeInstr_slots op args Hop Hn Hall) as (w & rest & He & Htop & Hs).
  exists w, rest. split; [done|].
  rewrite decode_slots, Htop.
  change ϡopMax with 20 in Hop. change ϡnMask with 1023 in Hn.
  destruct (top_field_split op (Z.of_nat (length args))) as [-> ->]; [lia..|].
  rewrite <- !(slot_field_head w rest).
  rewrite (Hs 0%nat 1), (Hs 0%nat 2), (Hs 0%nat 3) by (done || lia).
  done.
Qed.

Lemma encode_decode_first_word_witness :
  ∃ w rest, ϡencodeInstr 12 [2; 4; 9; 12; 16] = EncOk (w :: rest) ∧
    decode w = (12, 5, 2, 4, 9).
Proof.
  apply (encode_decode_first_word 12 [2; 4; 9; 12; 16]).
  - vm_compute. split; [discriminate|reflexivity].
  - vm_compute. discriminate.
  - repeat constructor; vm_compute; discriminate.
Defined.

(** X2: under the same conditions, [decodeLs] of the follow-up word of
    index [k] returns the arguments of index [4k-1] to [4k+2], 0 standing
    for an argument the instruction does not have. *)
Theorem encode_decodeLs_follow_up (op : Z) (args words : list Z) (k : nat) (w : Z) :
  0 ≤ op < ϡopMax → Z.of_nat (length args) ≤ ϡnMask →
  Forall (λ a, 0 ≤ a ≤ ϡlMask) args →
  ϡencodeInstr op args = EncOk words →
  (0 < k)%nat → words !! k = Some w →
  decodeLs w = (default 0 (args !! (4 * k - 1)%nat),
                default 0 (args !! (4 * k)%nat),
                default 0 (args !! (4 * k + 1)%nat),
                default 0 (args !! (4 * k + 2)%nat)).
Proof.
  intros Hop Hn Hall He Hk Hw.
  destruct (encodeInstr_slots op args Hop Hn Hall) as (w0 & rest & He' & _ & Hs).
  rewrite He in He'. injection He' as ->.
  rewrite decodeLs_slots.
  assert (∀ j, slot_field [w] 0 j = slot_field (w0 :: rest) k j) as Hj.
  { intros j. unfold slot_field. by rewrite Hw. }
  rewrite !Hj.
  rewrite (Hs k 0), (Hs k 1), (Hs k 2), (Hs k 3)
    by (lia || (intros [= ?]; lia)).
  repeat f_equal; lia.
Qed.

Lemma encode_decodeLs_follow_up_witness :
  decodeLs 3377768440004608 = (12, 16, 0, 0).
Proof.
  apply (encode_decodeLs_follow_up 12 [2; 4; 9; 12; 16]
           [3460171897294290953; 3377768440004608] 1 3377768440004608).
  - vm_compute. split; [discriminate|reflexivity].
  - vm_compute. discriminate.
  - repeat constructor; vm_compute; discriminate.
  - vm_compute. reflexivity.
  - lia.
  - reflexivity.
Defined.

(** X3: [ϡencodeInstr] returns words exactly when the opcode is below
    [ϡopMax], there are at most [ϡnMask] arguments and no argument is above
    [ϡlMask], and then it returns one word and one more for every four
    arguments; otherwise it returns the error of the first of the three
    checks that fails. It never indexes its words out of range. A negative
    argument is not refused. *)
Theorem encodeInstr_result (op : Z) (args : list Z) :
  match ϡencodeInstr op args with
  | EncOk words =>
    op < ϡopMax ∧ Z.of_nat (length args) ≤ ϡnMask ∧
    Forall (λ a, a ≤ ϡlMask) args ∧
    Z.of_nat (length words) = 1 + Z.of_nat (length args) / 4
  | EncErr msg =>
    (ϡopMax ≤ op ∧ msg = "invalid op value") ∨
    (op < ϡopMax ∧ ϡnMask < Z.of_nat (length args) ∧
     msg = "too many arguments") ∨
    (op < ϡopMax ∧ Z.of_nat (length args) ≤ ϡnMask ∧
     Exists (λ a, ϡlMask < a) args ∧ msg = "argument value too big")
  | EncPanic => False
  end.
Proof.
  destruct (ϡencodeInstr op args) as [words|msg|] eqn:He.
  - pose proof (encodeInstr_length _ _ _ He) as Hlen.
    revert He. unfold ϡencodeInstr.
    destruct (ϡopMax <=? op) eqn:E1; [done|].
    destruct (ϡnMask <? _) eqn:E2; [done|].
    destruct (_ =? 0) eqn:E3.
    + intros _. apply Z.eqb_eq in E3. destruct args; [|simpl in E3; lia].
      split_and!; [lia|lia|constructor|done].
    + intros He.
      match type of He with
      | encode_args _ _ _ ?ws _ = _ =>
        pose proof (encode_args_result args 0 ws 0%nat) as Hr
      end.
      change (ϡiBits - ϡoBits - ϡnBits) with 48 in *. rewrite He in Hr.
      destruct Hr as [Hall _]; [done..|]. split_and!; [lia|lia|done|done].
  - revert He. unfold ϡencodeInstr.
    destruct (ϡopMax <=? op) eqn:E1; [intros [= <-]; left; split; [lia|done]|].
    destruct (ϡnMask <? _) eqn:E2;
      [intros [= <-]; right; left; split_and!; [lia|lia|done]|].
    destruct (_ =? 0) eqn:E3; [done|]. intros He.
    match type of He with
    | encode_args _ _ _ ?ws _ = _ =>
      pose proof (encode_args_result args 0 ws 0%nat) as Hr
    end.
    change (ϡiBits - ϡoBits - ϡnBits) with 48 in *. rewrite He in Hr.
    destruct Hr as [Hex ->]; [done..|].
    right; right. split_and!; [lia|lia|done|done].
  - revert He. unfold ϡencodeInstr.
    destruct (ϡopMax <=? op) eqn:E1; [done|].
    destruct (ϡnMask <? _) eqn:E2; [done|].
    destruct (_ =? 0) eqn:E3; [done|]. intros He.
    match type of He with
    | encode_args _ _ _ ?ws _ = _ =>
      pose proof (encode_args_result args 0 ws 0%nat) as Hr
    end.
    change (ϡiBits - ϡoBits - ϡnBits) with 48 in *. rewrite He in Hr.
    apply Hr; done.
Qed.

(** X4: the number [encodeSequence] adds to its jump targets is the number
    of follow-up words of the instruction that pushes the indices [ls] on
    the L stack, so that the targets are the positions of the instructions
    in the list of words. *)
Theorem encodeSequence_delta_follow_up_words (op : Z) (ls words : list Z) :
  ϡencodeInstr op (ϡlstackID :: ls) = EncOk words →
  Z.of_nat (length words) = 1 + encodeSequence_delta ls.
Proof.
  intros He. rewrite (encodeInstr_length _ _ _ He).
  unfold encodeSequence_delta. simpl length. rewrite Nat2Z.inj_succ.
  destruct (2 <? _) eqn:E; Z.div_mod_to_equations; lia.
Qed.

Lemma encodeSequence_delta_follow_up_words_witness :
  Z.of_nat (length [3460171897294290952; 3377768440004608])
  = 1 + encodeSequence_delta [4; 8; 12; 16].
Proof.
  apply (encodeSequence_delta_follow_up_words 12 [4; 8; 12; 16]).
  vm_compute. reflexivity.
Defined.

End Encoding.


(** ** The stacks *)


Section Stacks.
Context {A : Type}.
Implicit Types (s : ϡstack A) (x : A).

Lemma stack_push_items x s :
  stack_wf s →
  ∃ s1, stack_push x s = Some s1 ∧ stack_wf s1 ∧ sp s1 = sp s + 1 ∧
        ar s1 !! Z.to_nat (sp s) = Some x ∧
        take (Z.to_nat (sp s)) (ar s1) = take (Z.to_nat (sp s)) (ar s) ∧
        stack_items s1 = x :: stack_items s.
Proof.
  destruct s as [a p]. unfold stack_wf, stack_push, stack_items. simpl.
  intros Hwf. destruct (decide (Z.of_nat (length a) ≤ p)).
  - eexists. split; [done|]. simpl. rewrite length_app. simpl.
    split_and!; try lia.
    + rewrite lookup_app_r by lia. by replace (Z.to_nat p - length a)%nat with 0%nat by lia.
    + by rewrite take_app_le by lia.
    + rewrite take_ge by (rewrite length_app; simpl; lia).
      rewrite take_ge by lia. by rewrite reverse_snoc.
  - rewrite decide_True by lia. eexists. split; [done|]. simpl.
    rewrite length_insert. split_and!; try lia.
    + apply list_lookup_insert_eq. lia.
    + by rewrite take_insert_ge by lia.
    + replace (Z.to_nat (p + 1)) with (S (Z.to_nat p)) by lia.
      erewrite take_S_r by (apply list_lookup_insert_eq; lia).
      rewrite take_insert_ge by lia. by rewrite reverse_snoc.
Qed.

Lemma stack_items_top s (n : nat) (y : A) :
  sp s = Z.of_nat (S n) → ar s !! n = Some y →
  stack_items s = y :: reverse (take n (ar s)).
Proof.
  intros Hsp Hy. unfold stack_items. rewrite Hsp.
  replace (Z.to_nat (Z.of_nat (S n))) with (S n) by lia.
  erewrite take_S_r by done. by rewrite reverse_snoc.
Qed.

(** X5: on a stack whose pointer is within its array, [push] does not
    panic and puts the value on top of the values of the stack, whether it
    appends to the array or writes over what an earlier value left; the
    [pop] that follows returns that value and leaves the values and the
    stack pointer as they were. *)
Theorem stack_push_then_pop x s :
  stack_wf s →
  ∃ s1, stack_push x s = Some s1 ∧ stack_wf s1 ∧
        stack_items s1 = x :: stack_items s ∧
        (stack_pop s1).1 = Some x ∧
        stack_items (stack_pop s1).2 = stack_items s ∧
        stack_len (stack_pop s1).2 = stack_len s.
Proof.
  intros Hwf.
  destruct (stack_push_items x s Hwf) as (s1 & Hp & Hwf1 & Hsp & Hx & Ht & Hi).
  exists s1. split_and!; try done.
  - unfold stack_pop. simpl. rewrite Hsp. unfold lookupZ.
    destruct Hwf. rewrite decide_True by lia.
    by replace (sp s + 1 - 1) with (sp s) by lia.
  - unfold stack_pop, stack_items. simpl. rewrite Hsp.
    replace (sp s + 1 - 1) with (sp s) by lia. by rewrite Ht.
  - unfold stack_pop, stack_len. simpl. lia.
Qed.

(** X6: on a stack whose pointer is within its array, [pop] returns the
    top value and leaves the values below it; on the empty stack it
    panics, on the index -1, and leaves the stack pointer at -1, where a
    [push] panics as well. *)
Theorem stack_pop_items s :
  stack_wf s →
  match stack_items s with
  | [] => (stack_pop s).1 = None ∧ sp (stack_pop s).2 = -1 ∧
          ∀ x, stack_push x (stack_pop s).2 = None
  | y :: rest => (stack_pop s).1 = Some y ∧ stack_wf (stack_pop s).2 ∧
                 stack_items (stack_pop s).2 = rest
  end.
Proof.
  intros [H0 Hl]. destruct (decide (sp s = 0)) as [Hz|Hnz].
  - unfold stack_items. rewrite Hz. simpl. unfold stack_pop, stack_push, lookupZ.
    cbn [ar sp fst snd]. rewrite Hz. split_and!; [done|done|]. intros x.
    repeat case_decide; (done || lia).
  - destruct (ar s !! Z.to_nat (sp s - 1)) as [y|] eqn:Hy;
      [|apply lookup_ge_None_1 in Hy; lia].
    rewrite (stack_items_top s (Z.to_nat (sp s - 1)) y) by (done || lia).
    unfold stack_pop, stack_wf, stack_items, lookupZ. simpl.
    rewrite decide_True by lia. split_and!; [done|lia|lia|done].
Qed.

End Stacks.

Lemma stack_push_then_pop_witness :
  ∃ s1, stack_push 7 {| ar := [1; 2; 3]; sp := 1 |} = Some s1 ∧ stack_wf s1 ∧
        stack_items s1 = 7 :: stack_items {| ar := [1; 2; 3]; sp := 1 |} ∧
        (stack_pop s1).1 = Some 7 ∧
        stack_items (stack_pop s1).2 = stack_items {| ar := [1; 2; 3]; sp := 1 |} ∧
        stack_len (stack_pop s1).2 = stack_len {| ar := [1; 2; 3]; sp := 1 |}.
Proof.
  apply (stack_push_then_pop (A := Z) 7 {| ar := [1; 2; 3]; sp := 1 |}).
  unfold stack_wf. simpl. lia.
Defined.

Lemma stack_pop_items_witness :
  (stack_pop {| ar := [1; 2; 3]; sp := 2 |}).1 = Some 2 ∧
  stack_wf (stack_pop {| ar := [1; 2; 3]; sp := 2 |}).2 ∧
  stack_items (stack_pop {| ar := [1; 2; 3]; sp := 2 |}).2 = [1].
Proof.
  apply (stack_pop_items (A := Z) {| ar := [1; 2; 3]; sp := 2 |}).
  unfold stack_wf. simpl. lia.
Defined.

(** X7: [take] on the L stack returns the first index of the list on top
    and leaves the rest of that list on the stack; when that list is empty
    it returns -1 and leaves the stack as it is; on the empty stack it
    panics. *)
Theorem lstack_take_items (l : ϡstack (list Z)) :
  stack_wf l →
  match stack_items l with
  | [] => lstack_take l = None
  | [] :: rest => lstack_take l = Some (-1, l)
  | (a0 :: a) :: rest =>
    ∃ l', lstack_take l = Some (a0, l') ∧ stack_wf l' ∧
          stack_items l' = a :: rest
  end.
Proof.
  intros [H0 Hl]. unfold lstack_take, lookupZ.
  destruct (decide (sp l = 0)) as [Hz|Hnz].
  - unfold stack_items. rewrite Hz. cbn [Z.to_nat take reverse].
    by rewrite decide_False by lia.
  - destruct (ar l !! Z.to_nat (sp l - 1)) as [y|] eqn:Hy;
      [|apply lookup_ge_None_1 in Hy; lia].
    rewrite (stack_items_top l (Z.to_nat (sp l - 1)) y) by (done || lia).
    rewrite decide_True by lia. simpl.
    destruct y as [|a0 a]; [done|].
    eexists. split; [done|]. split.
    + unfold stack_wf. simpl. rewrite length_insert. lia.
    + erewrite (stack_items_top _ (Z.to_nat (sp l - 1)) a); simpl.
      * by rewrite take_insert_ge by lia.
      * lia.
      * apply list_lookup_insert_eq. lia.
Qed.

Lemma lstack_take_items_witness :
  ∃ l', lstack_take {| ar := [[9]; [4; 8]]; sp := 2 |} = Some (4, l') ∧
        stack_wf l' ∧ stack_items l' = [8] :: [[9]].
Proof.
  apply (lstack_take_items {| ar := [[9]; [4; 8]]; sp := 2 |}).
  unfold stack_wf. simpl. lia.
Defined.

(** X8: on the A stack, the frame [push] adds is empty whatever the array
    holds at that place, such as the labels of a frame popped before: the
    [peek] that follows returns the empty map, and the frames below are
    unchanged. *)
Theorem astack_push_fresh_frame (a : ϡastack) :
  stack_wf a →
  ∃ a1 a2, astack_push_ar a = Some a1 ∧ astack_peek a1 = Some (∅, a2) ∧
           astack_frames a1 = ∅ :: astack_frames a ∧
           astack_frames a2 = astack_frames a1.
Proof.
  intros Hwf. unfold astack_push_ar.
  destruct (stack_push_items None a Hwf) as (a1 & Hp & Hwf1 & Hsp & Hx & Ht & Hi).
  destruct Hwf as [H0 Hl]. destruct Hwf1 as [_ Hl1].
  exists a1. eexists. split; [done|]. unfold astack_peek, lookupZ.
  rewrite Hsp. replace (sp a + 1 - 1) with (sp a) by lia.
  rewrite decide_True by lia. rewrite Hx. simpl. split; [done|].
  unfold astack_frames. rewrite Hi. split; [done|].
  rewrite <- Hi. unfold stack_items. simpl. rewrite Hsp.
  replace (Z.to_nat (sp a + 1)) with (S (Z.to_nat (sp a))) by lia.
  erewrite take_S_r by (apply list_lookup_insert_eq; lia).
  erewrite (take_S_r (ar a1)) by done.
  rewrite take_insert_ge by lia. by rewrite !reverse_snoc.
Qed.

Lemma astack_push_fresh_frame_witness :
  ∃ a1 a2,
    astack_push_ar {| ar := [None; Some {["x" := VNil]}]; sp := 1 |} = Some a1 ∧
    astack_peek a1 = Some (∅, a2) ∧
    astack_frames a1
    = ∅ :: astack_frames {| ar := [None; Some {["x" := VNil]}]; sp := 1 |} ∧
    astack_frames a2 = astack_frames a1.
Proof.
  apply (astack_push_fresh_frame {| ar := [None; Some {["x" := VNil]}]; sp := 1 |}).
  unfold stack_wf. simpl. lia.
Defined.


(** ** The error list, the parser and the matchers: further properties *)


Section ErrListMore.
Variable lib : golib.

Lemma first_occurrences_NoDup_id (e : errList) :
  NoDup (Error lib <$> e) → first_occurrences lib e = e.
Proof.
  induction e as [|x e IH] using rev_ind; [done|].
  rewrite fmap_app. intros (Hnd & Hx & _)%NoDup_app.
  rewrite first_occurrences_snoc, IH by done.
  rewrite decide_False; [done|]. intros Hin. apply (Hx _ Hin). simpl. left.
Qed.

(** X9: [ϡdedupe] leaves a list whose messages are pairwise distinct as
    it is. *)
Theorem dedupe_distinct_unchanged (e : errList) :
  NoDup (Error lib <$> e) → ϡdedupe lib e = e.
Proof.
  intros H. rewrite dedupe_first_occurrences. by apply first_occurrences_NoDup_id.
Qed.

Lemma first_occurrences_sublist (e : errList) :
  sublist (first_occurrences lib e) e.
Proof.
  induction e as [|x e IH] using rev_ind; [done|].
  rewrite first_occurrences_snoc. apply sublist_app; [done|].
  case_decide; [apply sublist_nil_l|done].
Qed.

(** X10: [ϡdedupe] only removes elements, keeps the order of those it
    leaves, loses no message, and is idempotent. *)
Theorem dedupe_sublist_messages (e : errList) :
  sublist (ϡdedupe lib e) e ∧
  (∀ m, m ∈ Error lib <$> ϡdedupe lib e ↔ m ∈ Error lib <$> e) ∧
  ϡdedupe lib (ϡdedupe lib e) = ϡdedupe lib e.
Proof.
  rewrite !dedupe_first_occurrences. split_and!.
  - apply first_occurrences_sublist.
  - apply first_occurrences_msgs.
  - apply first_occurrences_NoDup_id, first_occurrences_NoDup.
Qed.

End ErrListMore.

Lemma dedupe_distinct_unchanged_witness :
  ϡdedupe ascii_lib
    [{| Inner := errNoMatch; ϡpos := zero_position; ϡprefix := "1:1 (0)" |};
     {| Inner := errInvalidEncoding; ϡpos := zero_position; ϡprefix := "1:1 (0)" |}]
  = [{| Inner := errNoMatch; ϡpos := zero_position; ϡprefix := "1:1 (0)" |};
     {| Inner := errInvalidEncoding; ϡpos := zero_position; ϡprefix := "1:1 (0)" |}].
Proof.
  apply (dedupe_distinct_unchanged ascii_lib).
  apply (bool_decide_unpack _). vm_compute. exact I.
Defined.

Section ParserMore.
Variable lib : golib.
Variable data : list byte.

Lemma read_ok_rune_error (pt0 pt : ϡsvpt) :
  read data pt0 = ReadOk pt → rn pt = RuneError → w pt = 0.
Proof.
  unfold read. intros H Hrn.
  case_decide as Hb; [|done].
  destruct (DecodeRune _) as [r n] eqn:Hd.
  apply DecodeRune_width in Hd as [Hn _].
  repeat case_match; simplify_eq/=; lia.
Qed.

Lemma canon_rune_error (pt : ϡsvpt) :
  canon data pt → (rn pt = RuneError ↔ at_eof data pt).
Proof.
  intros Hc. split; [|by intros (_ & ? & _)].
  intros Hrn. assert (w pt = 0) as Hw.
  { destruct Hc; by eapply read_ok_rune_error. }
  destruct (canon_decoded _ _ Hc) as [Hb Hd].
  apply DecodeRune_width in Hd as [_ Hz]. destruct (Hz Hw) as [Hnil _].
  split_and!; [|done..].
  apply (f_equal length) in Hnil. rewrite length_drop in Hnil. simpl in Hnil. lia.
Qed.

(** X11: a savepoint the parser reaches from the start of the input is
    within the input, holds the code point decoded at its offset and the
    width of that code point, and is determined by its offset: two
    savepoints reached at the same offset have the same line, column, code
    point and width. *)
Theorem savepoint_determined_by_offset (s t : ϡsvpt) :
  canon data s → canon data t →
  offset (pos s) = offset (pos t) →
  s = t ∧ 0 ≤ offset (pos s) ≤ Z.of_nat (length data) ∧
  DecodeRune (drop (Z.to_nat (offset (pos s))) data) = (rn s, w s).
Proof.
  intros Hs Ht Ho. split; [by apply (canon_unique data)|].
  apply (canon_decoded _ _ Hs).
Qed.

(** X12: a matcher that returns leaves the parser at a savepoint reached by
    reading on from where it was: never before it, never beyond the end of
    the input. *)
Theorem matcher_match_forward (m : ϡmatcher) (pt pt' : ϡsvpt) (ok : bool) :
  canon data pt →
  matcher_match lib m data pt = MatchRet ok pt' →
  canon data pt' ∧
  offset (pos pt) ≤ offset (pos pt') ≤ Z.of_nat (length data).
Proof.
  intros Hc Hm. apply matcher_match_reads in Hm.
  pose proof (canon_reads_canon _ _ _ Hc Hm) as Hc'.
  destruct (reads_offset _ _ _ (canon_decoded _ _ Hc) Hm) as (Hle & _ & [Hb _]).
  split; [done|lia].
Qed.

(** X13: the matcher of any character, at a savepoint the parser reaches:
    it fails exactly at the end of the input, and then leaves the parser
    where it is; when it succeeds the parser has moved by the width of one
    code point, which is positive; and it panics only on an invalid
    encoding of the code point that follows. *)
Theorem any_match_canon (pt : ϡsvpt) :
  canon data pt →
  match any_match data pt with
  | MatchRet ok pt' =>
    (ok = false ↔ at_eof data pt) ∧ (ok = false → pt' = pt) ∧
    (ok = true → offset (pos pt') = offset (pos pt) + w pt ∧ 0 < w pt)
  | MatchPanic e _ => e = errInvalidEncoding ∧ ¬ at_eof data pt
  end.
Proof.
  intros Hc. pose proof (canon_rune_error _ Hc) as Heof.
  pose proof (canon_decoded _ _ Hc) as Hdec.
  unfold any_match. destruct (read data pt) as [pt'|e pt'] eqn:Hr.
  - split_and!.
    + rewrite <- Heof. rewrite negb_false_iff. apply Z.eqb_eq.
    + rewrite negb_false_iff. intros Hrn%Z.eqb_eq. apply Heof in Hrn.
      rewrite read_at_eof in Hr by done. by simplify_eq.
    + rewrite negb_true_iff. intros Hrn%Z.eqb_neq.
      split; [by apply (read_offset data)|].
      destruct Hdec as [Hb Hd]. apply DecodeRune_width in Hd as [Hn Hz].
      destruct (decide (w pt = 0)) as [Hw|]; [|lia].
      destruct (Hz Hw) as [_ ?]. done.
  - split.
    + destruct Hdec as [Hb Hd]. apply DecodeRune_width in Hd as [Hn _].
      rewrite length_drop in Hn.
      unfold read in Hr. rewrite decide_True in Hr by lia.
      repeat case_match; by simplify_eq.
    + intros Hat. by rewrite read_at_eof in Hr.
Qed.

Lemma ranges_match_spec (rs : list Z) (r : Z) :
  Nat.even (length rs) = true →
  ∃ b, ranges_match rs r = Some b ∧
       (b = true ↔ Exists (λ '(lo, hi), lo ≤ r ≤ hi) (range_pairs rs)).
Proof.
  induction rs as [rs IH] using (induction_ltof1 _ (@length Z)).
  unfold ltof in IH.
  destruct rs as [|lo [|hi rest]]; simpl; [|done|].
  - intros _. exists false. split; [done|]. split; [done|]. by intros ?%Exists_nil.
  - intros Hev. destruct (IH rest) as (b & Hb & Hiff); [simpl; lia|done|].
    destruct (Z.leb_spec lo r), (Z.leb_spec r hi); simpl.
    + exists true. split; [done|]. split; [|done]. intros _. left. lia.
    + exists b. split; [done|]. rewrite Hiff, Exists_cons. intuition lia.
    + exists b. split; [done|]. rewrite Hiff, Exists_cons. intuition lia.
    + exists b. split; [done|]. rewrite Hiff, Exists_cons. intuition lia.
Qed.

(** X14: a character class whose list of ranges has an even length, when
    the [read] it starts with does not panic, returns with the parser after
    one code point, and does not panic; without the inverted flag it
    returns true exactly when the code point, lowered if the class ignores
    case, is one of the characters, lies in one of the ranges or belongs to
    one of the Unicode classes, and with the flag it returns the
    opposite. *)
Theorem charClass_match_spec (chars ranges : list Z)
    (classes : list RangeTable) (ignoreCase inverted : bool) (pt pt' : ϡsvpt) :
  read data pt = ReadOk pt' →
  Nat.even (length ranges) = true →
  ∃ ok, charClass_match lib chars ranges classes ignoreCase inverted data pt
        = MatchRet ok pt' ∧
    let r := if ignoreCase then ToLower lib (rn pt) else rn pt in
    (ok = negb inverted ↔
     r ∈ chars ∨ Exists (λ '(lo, hi), lo ≤ r ≤ hi) (range_pairs ranges) ∨
     Exists (λ cl, unicode_Is cl r = true) classes).
Proof.
  intros Hr Hev. unfold charClass_match. rewrite Hr.
  set (r := if ignoreCase then ToLower lib (rn pt) else rn pt).
  destruct (existsb (λ ch, r =? ch) chars) eqn:Hch.
  { eexists. split; [done|]. split; [|done]. intros _. left.
    apply existsb_exists in Hch as (ch & Hin & ->%Z.eqb_eq).
    by apply list_elem_of_In. }
  assert (r ∉ chars) as Hnch.
  { intros Hin%list_elem_of_In.
    assert (existsb (λ ch, r =? ch) chars = true) as E; [|congruence].
    apply existsb_exists. exists r. split; [done|]. apply Z.eqb_refl. }
  destruct (ranges_match_spec ranges r Hev) as (b & -> & Hb).
  destruct b.
  { eexists. split; [done|]. split; [|done]. intros _. right. left. by apply Hb. }
  assert (¬ Exists (λ '(lo, hi), lo ≤ r ≤ hi) (range_pairs ranges)) as Hnr.
  { intros H. by apply Hb in H. }
  destruct (existsb (λ cl, unicode_Is cl r) classes) eqn:Hcl.
  { eexists. split; [done|]. split; [|done]. intros _. right. right.
    apply existsb_exists in Hcl as (cl & Hin & Hcl').
    apply Exists_exists. exists cl. split; [by apply list_elem_of_In|done]. }
  eexists. split; [done|]. split; [by destruct inverted|].
  intros [?|[?|Hex]]; [done..|].
  apply Exists_exists in Hex as (cl & Hin%list_elem_of_In & Hcl').
  assert (existsb (λ cl, unicode_Is cl r) classes = true) as E; [|congruence].
  apply existsb_exists. by exists cl.
Qed.


(** X16: [sliceFrom] returns the bytes between the two offsets, as many as
    their difference, and the slices of two stretches that follow each
    other make up the slice of the whole. *)
Theorem sliceFrom_append (a b c : ϡsvpt) (x y : list byte) :
  sliceFrom data b a = Some x → sliceFrom data c b = Some y →
  sliceFrom data c a = Some (x ++ y) ∧
  Z.of_nat (length x) = offset (pos b) - offset (pos a).
Proof.
  unfold sliceFrom. intros Hx Hy.
  case_decide as H1; [|done]. case_decide as H2; [|done]. simplify_eq.
  rewrite decide_True by lia. split.
  - f_equal.
    replace (Z.to_nat (offset (pos c) - offset (pos a)))
      with (Z.to_nat (offset (pos b) - offset (pos a))
            + Z.to_nat (offset (pos c) - offset (pos b)))%nat by lia.
    rewrite <- take_take_drop. f_equal. rewrite drop_drop. do 2 f_equal. lia.
  - rewrite length_take, length_drop. lia.
Qed.

Lemma read_line (pt pt' : ϡsvpt) :
  read data pt = ReadOk pt' →
  line (pos pt') = line (pos pt) + (if decide (rn pt' = 10) then 1 else 0).
Proof.
  unfold read. intros H. case_decide; [|done].
  destruct (DecodeRune _) as [r n].
  destruct (r =? RuneError) eqn:E1.
  { destruct (0 <? n); simplify_eq/=. apply Z.eqb_eq in E1. subst r.
    rewrite decide_False by done. lia. }
  destruct (r =? 10) eqn:E2; simplify_eq/=.
  - apply Z.eqb_eq in E2. by rewrite decide_True.
  - apply Z.eqb_neq in E2. rewrite decide_False by done. lia.
Qed.

Lemma read_runes_head (n : nat) (pt pt' : ϡsvpt) (rs : list Z) :
  read_runes n data pt = Some (rs, pt') →
  rs ++ [rn pt'] = rn pt :: drop 1 (rs ++ [rn pt']).
Proof.
  destruct n as [|n]; simpl.
  - by intros [= <- <-].
  - destruct (read data pt); [|done].
    destruct (read_runes _ _ _) as [[??]|]; simpl; [|done]. by intros [= <- <-].
Qed.

(** X17: the line of the savepoint after a number of [read]s is the line
    before them plus the number of line feeds among the code points the
    parser came to, the one it is at included: a line feed is itself
    counted on the line it opens. *)
Theorem read_runes_line (n : nat) (pt pt' : ϡsvpt) (rs : list Z) :
  read_runes n data pt = Some (rs, pt') →
  line (pos pt')
  = line (pos pt)
    + Z.of_nat (length (filter (λ r, r = 10) (drop 1 (rs ++ [rn pt'])))).
Proof.
  revert pt rs. induction n as [|n IH]; intros pt rs; simpl.
  - intros [= <- <-]. simpl. lia.
  - destruct (read data pt) as [pt1|] eqn:Hr; [|done].
    destruct (read_runes n data pt1) as [[rs1 pt2]|] eqn:Hrs; simpl; [|done].
    intros [= <- <-]. simpl. rewrite drop_0.
    rewrite (IH _ _ Hrs), (read_line _ _ Hr).
    rewrite (read_runes_head _ _ _ _ Hrs) at 2.
    rewrite filter_cons. case_decide; simpl; lia.
Qed.

End ParserMore.

Lemma canon_savepoint_after_1 : canon (bytes "ab") (savepoint_after "ab" 1).
Proof. apply canon_first. vm_compute. reflexivity. Qed.

Lemma canon_savepoint_after_2 : canon (bytes "ab") (savepoint_after "ab" 2).
Proof.
  eapply canon_next; [apply canon_savepoint_after_1|]. vm_compute. reflexivity.
Qed.

Lemma savepoint_determined_by_offset_witness :
  savepoint_after "ab" 2 = savepoint_after "ab" 2 ∧
  0 ≤ offset (pos (savepoint_after "ab" 2)) ≤ Z.of_nat (length (bytes "ab")) ∧
  DecodeRune (drop (Z.to_nat (offset (pos (savepoint_after "ab" 2)))) (bytes "ab"))
  = (rn (savepoint_after "ab" 2), w (savepoint_after "ab" 2)).
Proof.
  apply (savepoint_determined_by_offset (bytes "ab")).
  - apply canon_savepoint_after_2.
  - apply canon_savepoint_after_2.
  - reflexivity.
Defined.

Lemma matcher_match_forward_witness :
  canon (bytes "ab") (savepoint_after "ab" 2) ∧
  offset (pos (savepoint_after "ab" 1)) ≤ offset (pos (savepoint_after "ab" 2))
    ≤ Z.of_nat (length (bytes "ab")).
Proof.
  apply (matcher_match_forward ascii_lib (bytes "ab") (ϡstringMatcher false "a")
           (savepoint_after "ab" 1) (savepoint_after "ab" 2) true).
  - apply canon_savepoint_after_1.
  - vm_compute. reflexivity.
Defined.

Lemma any_match_canon_witness :
  match any_match (bytes "ab") (savepoint_after "ab" 1) with
  | MatchRet ok pt' =>
    (ok = false ↔ at_eof (bytes "ab") (savepoint_after "ab" 1)) ∧
    (ok = false → pt' = savepoint_after "ab" 1) ∧
    (ok = true →
     offset (pos pt') = offset (pos (savepoint_after "ab" 1))
                        + w (savepoint_after "ab" 1) ∧
     0 < w (savepoint_after "ab" 1))
  | MatchPanic e _ =>
    e = errInvalidEncoding ∧ ¬ at_eof (bytes "ab") (savepoint_after "ab" 1)
  end.
Proof.
  apply (any_match_canon (bytes "ab") (savepoint_after "ab" 1)).
  apply canon_savepoint_after_1.
Defined.

Lemma sliceFrom_append_witness :
  sliceFrom (bytes "ab") (savepoint_after "ab" 3) (savepoint_after "ab" 1)
  = Some (bytes "a" ++ bytes "b") ∧
  Z.of_nat (length (bytes "a"))
  = offset (pos (savepoint_after "ab" 2)) - offset (pos (savepoint_after "ab" 1)).
Proof.
  apply (sliceFrom_append (bytes "ab") (savepoint_after "ab" 1)
           (savepoint_after "ab" 2) (savepoint_after "ab" 3)).
  - vm_compute. reflexivity.
  - vm_compute. reflexivity.
Defined.

Lemma read_runes_line_witness :
  line (pos {| pos := {| line := 2; col := 0; offset := 1 |}; rn := 10; w := 1 |})
  = line (pos start_pt)
    + Z.of_nat (length (filter (λ r, r = 10) (drop 1 ([0; 97] ++ [10])))).
Proof.
  apply (read_runes_line [Byte.x61; Byte.x0a; Byte.x62] 2 start_pt
           {| pos := {| line := 2; col := 0; offset := 1 |}; rn := 10; w := 1 |}
           [0; 97]).
  vm_compute. reflexivity.
Defined.

Lemma charClass_match_spec_witness :
  ∃ ok, charClass_match ascii_lib [95] [97; 122] [] true false (bytes "Ab")
          (savepoint_after "Ab" 1)
        = MatchRet ok (savepoint_after "Ab" 2) ∧
    let r := if true then ToLower ascii_lib (rn (savepoint_after "Ab" 1))
             else rn (savepoint_after "Ab" 1) in
    (ok = negb false ↔
     r ∈ [95] ∨ Exists (λ '(lo, hi), lo ≤ r ≤ hi) (range_pairs [97; 122]) ∨
     Exists (λ cl, unicode_Is cl r = true) []).
Proof.
  apply (charClass_match_spec ascii_lib (bytes "Ab") [95] [97; 122] [] true false
           (savepoint_after "Ab" 1) (savepoint_after "Ab" 2)).
  - vm_compute. reflexivity.
  - reflexivity.
Defined.


(** ** The machine: further properties *)


(** X18: what [memoizeMatch] records for an instruction and a savepoint is
    what [fromMemo] finds for them: after a failed match the failure and
    the savepoint itself, after a match the bytes matched and the savepoint
    the parser was at; the entries of the other instructions and offsets
    are as they were. *)
Theorem memoizeMatch_then_fromMemo (ix : Z) (pt : ϡsvpt) (ok : bool)
    (st st1 : ϡvm) :
  memoizeMatch ix pt ok st = Some st1 →
  (∃ st2, fromMemo ix pt st1 = Some st2 ∧
     if ok then
       ∃ b, sliceFrom (parser_data st) (parser_pt st) pt = Some b ∧
            vm_v st2 = VBytes b :: vm_v st ∧ parser_pt st2 = parser_pt st
     else vm_v st2 = VFailed :: vm_v st ∧ parser_pt st2 = pt) ∧
  ∀ ix' off', (ix', off') ≠ (ix, offset (pos pt)) →
    memo st1 !! ix' ≫= (.!! off') = memo st !! ix' ≫= (.!! off').
Proof.
  unfold memoizeMatch, fromMemo. intros H.
  assert (∃ r, st1 = set_memo (<[ix := <[offset (pos pt) := r]>
                                          (default ∅ (memo st !! ix))]> (memo st)) st ∧
               if ok then ∃ b, sliceFrom (parser_data st) (parser_pt st) pt = Some b ∧
                               r = {| mr_v := VBytes b; mr_pt := parser_pt st |}
               else r = {| mr_v := VFailed; mr_pt := pt |}) as (r & -> & Hr).
  { destruct ok.
    - destruct (sliceFrom _ _ _) as [b|]; [|done]. simpl in H. simplify_eq.
      eexists. split; [done|]. by exists b.
    - simplify_eq. by eexists. }
  split.
  - destruct st; simpl in *. rewrite lookup_insert_eq. simpl.
    rewrite lookup_insert_eq. simpl. eexists. split; [done|]. simpl.
    destruct ok.
    + destruct Hr as (b & Hb & ->). by exists b.
    + by subst r.
  - intros ix' off' Hne.
    destruct st as [fn pd ppt mz rc pc0 cu sp sl sv si sa san mm ff mc cc ac pc1 er].
    simpl in *.
    destruct (decide (ix' = ix)) as [->|Hix].
    + rewrite lookup_insert_eq. simpl.
      rewrite lookup_insert_ne by congruence.
      by destruct (mm !! ix).
    + by rewrite lookup_insert_ne.
Qed.

Lemma memoizeMatch_then_fromMemo_witness :
  let st := machine_after prog_lit_a "a" 5 in
  let pt := savepoint_after "a" 1 in
  let st1 := set_memo {[5 := {[0 := {| mr_v := VBytes (bytes "a");
                                       mr_pt := parser_pt st |}]}]} st in
  (∃ st2, fromMemo 5 pt st1 = Some st2 ∧
     ∃ b, sliceFrom (parser_data st) (parser_pt st) pt = Some b ∧
          vm_v st2 = VBytes b :: vm_v st ∧ parser_pt st2 = parser_pt st) ∧
  ∀ ix' off', (ix', off') ≠ (5, offset (pos pt)) →
    memo st1 !! ix' ≫= (.!! off') = memo st !! ix' ≫= (.!! off').
Proof.
  apply (memoizeMatch_then_fromMemo 5 (savepoint_after "a" 1) true
           (machine_after prog_lit_a "a" 5)).
  vm_compute. reflexivity.
Defined.

Section MachineMore.
Variable lib : golib.
Variable pg : ϡprogram.

(** One instruction keeps the errors recorded, the input and the options. *)
Lemma step_keeps (st : ϡvm) :
  errs st `prefix_of` errs (outcome_state (step lib pg st)) ∧
  parser_data (outcome_state (step lib pg st)) = parser_data st ∧
  memoize (outcome_state (step lib pg st)) = memoize st.
Proof.
  unfold step. destruct (lookupZ (instrs pg) (pc st)) as [instr|]; [|done].
  destruct (op instr); unfold_ops; unfold do_Match, fromMemo, memoizeMatch, ϡadd;
    destruct st; simpl; try done;
    repeat (case_match; simplify_option_eq; try done);
    split_and!; try done; by apply prefix_app_r.
Qed.

Lemma step_ffp (st : ϡvm) :
  offset (ffp_pos (ffp st))
  ≤ offset (ffp_pos (ffp (outcome_state (step lib pg st)))) ∧
  (offset (pos (parser_pt st)) ≤ Z.of_nat (length (parser_data st)) →
   offset (ffp_pos (ffp st)) ≤ Z.of_nat (length (parser_data st)) →
   offset (ffp_pos (ffp (outcome_state (step lib pg st))))
   ≤ Z.of_nat (length (parser_data st))).
Proof.
  unfold step. destruct (lookupZ (instrs pg) (pc st)) as [instr|]; [|done].
  destruct (op instr); unfold_ops;
    unfold do_Match, fromMemo, memoizeMatch, ffp_update, ϡadd;
    destruct st; simpl; try done;
    repeat (case_match; simplify_option_eq; try done); simpl; lia.
Qed.

Lemma steps_keeps (n : nat) (st st' : ϡvm) :
  steps lib pg n st = Some st' →
  errs st `prefix_of` errs st' ∧ parser_data st' = parser_data st ∧
  memoize st' = memoize st ∧ recover st' = recover st ∧
  filename st' = filename st.
Proof.
  revert st. induction n as [|n IH]; intros st; simpl.
  - by intros [= <-].
  - pose proof (step_keeps st) as (He & Hd & Hm).
    pose proof (step_options lib pg st) as (Hr & Hf).
    destruct (step lib pg st) as [s1| |]; [|done..]. simpl in *.
    intros H. destruct (IH _ H) as (He' & Hd' & Hm' & Hr' & Hf').
    split_and!; try congruence. by etrans.
Qed.

Lemma steps_ffp (n : nat) (st st' : ϡvm) :
  uint16_program pg →
  inv_uint16 st → inv_canon st → inv_memo lib pg st →
  steps lib pg n st = Some st' →
  offset (ffp_pos (ffp st)) ≤ offset (ffp_pos (ffp st')) ∧
  (offset (ffp_pos (ffp st)) ≤ Z.of_nat (length (parser_data st)) →
   offset (ffp_pos (ffp st')) ≤ Z.of_nat (length (parser_data st))).
Proof.
  intros Hpg. revert st. induction n as [|n IH]; intros st Hu Hc Hm; simpl.
  - by intros [= <-].
  - pose proof (step_ffp st) as (Hle & Hb).
    pose proof (step_keeps st) as (_ & Hd & _).
    destruct (step_sim lib pg 0 st Hpg Hu Hc Hm) as [_ Hinv].
    destruct (step lib pg st) as [s1| |]; [|done..]. simpl in *.
    destruct (Hinv _ eq_refl) as (Hu1 & Hc1 & Hm1).
    intros H. destruct (IH _ Hu1 Hc1 Hm1 H) as (Hle' & Hb').
    rewrite Hd in Hb'. split; [lia|]. intros Hlen. apply Hb', Hb; [|done].
    destruct Hc as [Hpt _]. apply canon_decoded in Hpt as [? _]. lia.
Qed.

(** X19: in a run of [Parse], the offset of the farthest failure position
    starts at -1, never decreases from one state of the machine to a later
    one, and is never beyond the end of the input. *)
Theorem ffp_monotone_bounded (f : string) (b : list byte)
    (opts : list ParseOption) (n k : nat) (s0 st st' : ϡvm) :
  uint16_program pg →
  primed (setOptions opts (new_vm f b)) = Some s0 →
  steps lib pg n s0 = Some st →
  steps lib pg k st = Some st' →
  -1 ≤ offset (ffp_pos (ffp st)) ∧
  offset (ffp_pos (ffp st)) ≤ offset (ffp_pos (ffp st')) ∧
  offset (ffp_pos (ffp st')) ≤ Z.of_nat (length b).
Proof.
  intros Hpg Hprimed Hn Hk.
  destruct (fresh_setOptions opts f b) as (mz & rc & Hfresh).
  rewrite Hfresh in Hprimed.
  assert (uint16 (pc (fresh f b mz rc))) as Hpc0 by done.
  destruct (primed_inv lib pg _ _ Hpc0 eq_refl eq_refl Hprimed)
    as (Hu & Hc & Hm & Hffp & _).
  assert (parser_data s0 = b) as Hd0.
  { unfold primed in Hprimed. destruct (read _ _); by simplify_eq. }
  destruct (steps_inv lib pg _ _ _ Hpg Hu Hc Hm Hn) as (Hu' & Hc' & Hm').
  destruct (steps_ffp _ _ _ Hpg Hu Hc Hm Hn) as (H1 & H2).
  destruct (steps_ffp _ _ _ Hpg Hu' Hc' Hm' Hk) as (H3 & H4).
  destruct (steps_keeps _ _ _ Hn) as (_ & Hd & _).
  rewrite Hd, Hd0 in H4. rewrite Hd0 in H2.
  split_and!; [lia|lia|]. apply H4, H2. lia.
Qed.

(** X20: the machine never drops an error it has recorded, and never
    changes its input, the name of its file or its two options: a later
    state has the errors of an earlier one at the head of its list. *)
Theorem steps_keep_errors_input_options (n : nat) (st st' : ϡvm) :
  steps lib pg n st = Some st' →
  errs st `prefix_of` errs st' ∧ parser_data st' = parser_data st ∧
  filename st' = filename st ∧
  memoize st' = memoize st ∧ recover st' = recover st.
Proof.
  intros H. destruct (steps_keeps _ _ _ H) as (? & ? & ? & ? & ?). done.
Qed.

(** A match instruction of the machine without memoization that goes
    on. *)
Lemma do_Match_plain_result (c : Z) (instr : ϡinstr) (st sp : ϡvm) :
  do_Match lib pg instr (plain c st) = Running sp →
  (∃ bs, vm_v sp = VBytes bs :: vm_v st ∧
         sliceFrom (parser_data st) (parser_pt sp) (parser_pt st) = Some bs) ∨
  (vm_v sp = VFailed :: vm_v st ∧ parser_pt sp = parser_pt st).
Proof.
  unfold do_Match. cbn [memoize plain].
  destruct (args instr !! 0%nat) as [a0|] eqn:Ha0; [|done].
  destruct (thunk_at (ms pg) a0) as [m|] eqn:Hm; [|done].
  cbn [parser_data parser_pt plain].
  destruct (matcher_match lib m (parser_data st) (parser_pt st)) as [ok pt'|];
    [|done].
  cbn [memoize set_parser_pt plain]. destruct ok.
  - cbn [parser_data parser_pt set_matchCnt set_parser_pt plain].
    destruct (sliceFrom _ _ _) as [bs|] eqn:Hs; [|done].
    intros [= <-]. left. exists bs. done.
  - intros [= <-]. by right.
Qed.

(** X21: in any state a parse reaches, with or without memoization, a
    match instruction that goes on either pushes the bytes of the input
    between the savepoint it started at and the savepoint it leaves the
    parser at, or pushes [ϡmatchFailed] and leaves the parser at the
    savepoint it started at. *)
Theorem match_consumes_only_on_success (f : string) (b : list byte)
    (opts : list ParseOption) (n : nat) (s0 st st' : ϡvm) (instr : ϡinstr) :
  uint16_program pg →
  primed (setOptions opts (new_vm f b)) = Some s0 →
  steps lib pg n s0 = Some st →
  lookupZ (instrs pg) (pc st) = Some instr → op instr = ϡopMatch →
  step lib pg st = Running st' →
  (∃ bs, vm_v st' = VBytes bs :: vm_v st ∧
         sliceFrom b (parser_pt st') (parser_pt st) = Some bs) ∨
  (vm_v st' = VFailed :: vm_v st ∧ parser_pt st' = parser_pt st).
Proof.
  intros Hpg Hprimed Hsteps Hf Hop Hstep.
  destruct (fresh_setOptions opts f b) as (mz & rc & Hfresh).
  rewrite Hfresh in Hprimed.
  assert (uint16 (pc (fresh f b mz rc))) as Hpc0 by done.
  destruct (primed_inv lib pg _ _ Hpc0 eq_refl eq_refl Hprimed)
    as (Hu & Hc & Hm & Hffp & _).
  assert (parser_data s0 = b) as Hd0.
  { unfold primed in Hprimed. destruct (read _ _); by simplify_eq. }
  destruct (steps_keeps _ _ _ Hsteps) as (_ & Hd & _).
  destruct (steps_inv lib pg _ _ _ Hpg Hu Hc Hm Hsteps) as (Hu' & Hc' & Hm').
  assert (step lib pg st = do_Match lib pg instr (set_pc (pc_incr (pc st)) st))
    as Hs by (unfold step; by rewrite Hf, Hop).
  destruct (do_Match_sim lib pg 0 instr (set_pc (pc_incr (pc st)) st))
    as [Hsim _]; try done.
  { cbn [pc set_pc]. rewrite pc_decr_incr; [done|apply Hu']. }
  { by destruct Hc'. }
  rewrite <- Hs, Hstep in Hsim.
  destruct (do_Match lib pg instr (plain 0 (set_pc (pc_incr (pc st)) st)))
    as [sp| |] eqn:Hplain; try done.
  destruct Hsim as [c' ->].
  apply do_Match_plain_result in Hplain.
  cbn [vm_v parser_pt parser_data plain set_pc] in Hplain.
  by rewrite Hd, Hd0 in Hplain.
Qed.

Lemma dedupe_nonempty (e : errList) : e ≠ [] → ϡdedupe lib e ≠ [].
Proof.
  intros He Hd. destruct e as [|x e]; [done|].
  pose proof (first_occurrences_msgs lib (x :: e) (Error lib x)) as [_ Hin].
  rewrite <- dedupe_first_occurrences, Hd in Hin.
  apply elem_of_nil in Hin; [done|]. simpl. left.
Qed.

(** X22: when [run] returns a nil error, [dispatch] has returned the value
    [run] returns, this value is not [ϡmatchFailed], and no error was
    recorded. *)
Theorem run_nil_error (fuel : nat) (st : ϡvm) (ret : value) :
  run lib pg fuel st = Returned ret None →
  ∃ st', dispatch lib pg fuel (run_init st) = DReturn ret st' ∧
         ret ≠ VFailed ∧ errs st' = [].
Proof.
  unfold run. destruct (dispatch lib pg fuel (run_init st)) as [ret0 st0| |];
    [|done..].
  unfold run_finish. destruct (is_failed ret0) eqn:Hf.
  - destruct (decide (length (errs st0) = 0%nat)) as [He|He]; unfold ϡerr.
    + rewrite decide_False; [done|].
      destruct (ffp_err _); unfold addErr, addErrAt, ϡadd; simpl;
        rewrite length_app; simpl; lia.
    + by rewrite decide_False.
  - unfold ϡerr. case_decide as He; [|done]. intros [= <-]. exists st0.
    split_and!; [done| |by apply nil_length_inv]. by intros ->.
Qed.

(** X23: when [dispatch] returns [ϡmatchFailed], [run] returns nil and an
    error list that is not empty; when no error was recorded, the list is
    the single error of the farthest failure position, at that position
    and under its rule, or [errNoMatch] at the position of the parser when
    no match instruction failed. *)
Theorem run_failed_match (fuel : nat) (st st' : ϡvm) :
  dispatch lib pg fuel (run_init st) = DReturn VFailed st' →
  ∃ el, run lib pg fuel st = Returned VNil (Some el) ∧ el ≠ [] ∧
    (errs st' = [] →
     el = errs (if decide (0 ≤ offset (ffp_pos (ffp st'))) then
                  addErrAt pg (ErrFfp (ffp st')) (ffp_ruleNmIx (ffp st'))
                    (ffp_pos (ffp st')) st'
                else addErr pg errNoMatch st')).
Proof.
  intros Hd. unfold run. rewrite Hd. unfold run_finish. simpl is_failed. cbv iota.
  destruct (decide (length (errs st') = 0%nat)) as [He|He].
  - apply nil_length_inv in He. unfold ffp_err.
    assert (∀ s, errs s ≠ [] → NoDup (Error lib <$> errs s) →
              ∃ el, Returned VNil (ϡerr lib (errs s)) = Returned VNil (Some el) ∧
                    el ≠ [] ∧ (errs st' = [] → el = errs s)) as Hgen.
    { intros s Hs Hnd. exists (ϡdedupe lib (errs s)). unfold ϡerr.
      rewrite decide_False by (by destruct (errs s)).
      split_and!; [done|by apply dedupe_nonempty|].
      intros _. rewrite dedupe_first_occurrences.
      by apply first_occurrences_NoDup_id. }
    case_decide.
    + apply Hgen; unfold addErrAt, ϡadd; simpl; rewrite He; [done|].
      simpl. apply NoDup_singleton.
    + apply Hgen; unfold addErr, addErrAt, ϡadd; simpl; rewrite He; [done|].
      simpl. apply NoDup_singleton.
  - exists (ϡdedupe lib (errs st')). unfold ϡerr. rewrite decide_False by done.
    split_and!; [done| |].
    + apply dedupe_nonempty. by destruct (errs st').
    + intros E. by rewrite E in He.
Qed.

End MachineMore.

Lemma ffp_monotone_bounded_witness :
  -1 ≤ offset (ffp_pos (ffp (machine_after prog_lit_a "b" 4))) ∧
  offset (ffp_pos (ffp (machine_after prog_lit_a "b" 4)))
  ≤ offset (ffp_pos (ffp (machine_after prog_lit_a "b" 6))) ∧
  offset (ffp_pos (ffp (machine_after prog_lit_a "b" 6)))
  ≤ Z.of_nat (length (bytes "b")).
Proof.
  apply (ffp_monotone_bounded ascii_lib prog_lit_a "" (bytes "b") [] 4 2
           (machine_after prog_lit_a "b" 0) (machine_after prog_lit_a "b" 4)
           (machine_after prog_lit_a "b" 6)).
  - apply (bool_decide_unpack _). vm_compute. exact I.
  - vm_compute. reflexivity.
  - vm_compute. reflexivity.
  - vm_compute. reflexivity.
Defined.

Lemma steps_keep_errors_input_options_witness :
  errs (machine_after prog_action "a" 0)
    `prefix_of` errs (machine_after prog_action "a" 12) ∧
  parser_data (machine_after prog_action "a" 12)
  = parser_data (machine_after prog_action "a" 0) ∧
  filename (machine_after prog_action "a" 12)
  = filename (machine_after prog_action "a" 0) ∧
  memoize (machine_after prog_action "a" 12)
  = memoize (machine_after prog_action "a" 0) ∧
  recover (machine_after prog_action "a" 12)
  = recover (machine_after prog_action "a" 0).
Proof.
  apply (steps_keep_errors_input_options ascii_lib prog_action 12
           (machine_after prog_action "a" 0) (machine_after prog_action "a" 12)).
  vm_compute. reflexivity.
Defined.

Lemma match_consumes_only_on_success_witness :
  (∃ bs, vm_v (machine_after prog_lit_a "a" 5)
         = VBytes bs :: vm_v (machine_after prog_lit_a "a" 4) ∧
         sliceFrom (bytes "a") (parser_pt (machine_after prog_lit_a "a" 5))
           (parser_pt (machine_after prog_lit_a "a" 4)) = Some bs) ∨
  (vm_v (machine_after prog_lit_a "a" 5)
   = VFailed :: vm_v (machine_after prog_lit_a "a" 4) ∧
   parser_pt (machine_after prog_lit_a "a" 5)
   = parser_pt (machine_after prog_lit_a "a" 4)).
Proof.
  apply (match_consumes_only_on_success ascii_lib prog_lit_a "" (bytes "a") [] 4
           (machine_after prog_lit_a "a" 0) (machine_after prog_lit_a "a" 4)
           (machine_after prog_lit_a "a" 5)
           {| op := ϡopMatch; ruleNmIx := 0; args := [0] |}).
  - apply (bool_decide_unpack _). vm_compute. exact I.
  - vm_compute. reflexivity.
  - vm_compute. reflexivity.
  - vm_compute. reflexivity.
  - reflexivity.
  - vm_compute. reflexivity.
Defined.

Lemma run_nil_error_witness :
  ∃ st', dispatch ascii_lib prog_lit_a 100 (run_init (new_vm "" (bytes "a")))
         = DReturn (VBytes (bytes "a")) st' ∧
         VBytes (bytes "a") ≠ VFailed ∧ errs st' = [].
Proof.
  apply (run_nil_error ascii_lib prog_lit_a 100 (new_vm "" (bytes "a"))
           (VBytes (bytes "a"))).
  vm_compute. reflexivity.
Defined.

Lemma run_failed_match_witness :
  let st' := machine_returned prog_lit_a "b" 100 in
  ∃ el, run ascii_lib prog_lit_a 100 (new_vm "" (bytes "b"))
        = Returned VNil (Some el) ∧ el ≠ [] ∧
    (errs st' = [] →
     el = errs (if decide (0 ≤ offset (ffp_pos (ffp st'))) then
                  addErrAt prog_lit_a (ErrFfp (ffp st')) (ffp_ruleNmIx (ffp st'))
                    (ffp_pos (ffp st')) st'
                else addErr prog_lit_a errNoMatch st')).
Proof.
  apply (run_failed_match ascii_lib prog_lit_a 100 (new_vm "" (bytes "b"))
           (machine_returned prog_lit_a "b" 100)).
  vm_compute. reflexivity.
Defined.


(** ** The blocks of an option, a predicate, an action, a label and a repetition *)


(** [vm_step_rw I H]: as [vm_step I], for an instruction that tests a value
    whose test is the equation [H]. *)
Ltac vm_step_rw I H :=
  erewrite steps_S;
  [| unfold step; vm_norm; rewrite I; cbn [op]; unfold_ops;
     cbn [args lookup list_lookup]; repeat (simpl decide); vm_norm;
     rewrite ?H; cbn [args lookup list_lookup]; vm_norm;
     rewrite ?pc_incr_small by lia; reflexivity ];
  vm_norm.

Ltac block_instr Hblk k I :=
  pose proof (Hblk k _ eq_refl) as I;
  let z := eval vm_compute in (Z.of_nat k) in
  change (Z.of_nat k) with z in I.

Section OptionBlock.
Variable lib : golib.
Variable pg : ϡprogram.
Variables (start rule ix : Z).
Hypothesis Hblk : block_at pg start rule (encodeOption start ix).
Hypothesis H0 : 0 ≤ start.
Hypothesis H8 : start + 7 < 65536.

(** X24: in the block of an option, once the expression has returned, the
    block returns to its caller with the value of the expression, or with
    nil in place of [ϡmatchFailed]: an option does not fail. The parser
    stays where the expression left it. *)
Theorem option_block_never_fails (st : ϡvm) (val : value) (vs : list value)
    (ret : Z) (istk : list Z) :
  pc st = start + 3 →
  vm_v st = val :: vs →
  vm_i st = ret :: istk →
  ∃ st', steps lib pg (if is_failed val then 4 else 3) st = Some st' ∧
         pc st' = ret ∧ vm_i st' = istk ∧
         vm_v st' = (if is_failed val then VNil else val) :: vs ∧
         vm_l st' = vm_l st ∧ vm_p st' = vm_p st ∧
         parser_pt st' = parser_pt st.
Proof.
  intros Hpc Hv Hi.
  block_instr Hblk 3%nat I3. block_instr Hblk 4%nat I4.
  block_instr Hblk 5%nat I5. block_instr Hblk 6%nat I6.
  block_instr Hblk 7%nat I7.
  destruct st as [fn pd ppt mz rc pc0 cu sp sl sv si sa san mm ff mc cc ac pc1 er].
  vm_norm. cbn [pc vm_v vm_i] in Hpc, Hv, Hi. subst pc0 sv si.
  destruct (is_failed val) eqn:Hf.
  - destruct sa as [|fr sa].
    + eexists. split.
      { vm_step I3. replace (start + 3 + 1) with (start + 4) by lia.
        vm_step_rw I4 Hf. vm_step I6.
        replace (start + 6 + 1) with (start + 7) by lia.
        vm_step I7. reflexivity. }
      by split_and!.
    + eexists. split.
      { vm_step I3. replace (start + 3 + 1) with (start + 4) by lia.
        vm_step_rw I4 Hf. vm_step I6.
        replace (start + 6 + 1) with (start + 7) by lia.
        vm_step I7. reflexivity. }
      by split_and!.
  - destruct sa as [|fr sa].
    + eexists. split.
      { vm_step I3. replace (start + 3 + 1) with (start + 4) by lia.
        vm_step_rw I4 Hf. replace (start + 4 + 1) with (start + 5) by lia.
        vm_step I5. reflexivity. }
      by split_and!.
    + eexists. split.
      { vm_step I3. replace (start + 3 + 1) with (start + 4) by lia.
        vm_step_rw I4 Hf. replace (start + 4 + 1) with (start + 5) by lia.
        vm_step I5. reflexivity. }
      by split_and!.
Qed.

End OptionBlock.

Section PredicateBlock.
Variable lib : golib.
Variable pg : ϡprogram.
Variables (start rule ix : Z) (and : bool).
Hypothesis Hblk : block_at pg start rule (encodePredicate and ix).
Hypothesis H0 : 0 ≤ start.
Hypothesis H8 : start + 7 < 65536.

(** X25: in the block of a predicate, once the expression has returned, the
    block puts the parser back at the savepoint it pushed on the P stack
    when it was entered, whatever the expression consumed, and returns nil
    or [ϡmatchFailed]: for [&], nil when the expression matched; for [!],
    nil when it failed. *)
Theorem predicate_block_restores (st : ϡvm) (val : value) (vs : list value)
    (pt0 : ϡsvpt) (ps : list ϡsvpt) (ret : Z) (istk : list Z) :
  pc st = start + 4 →
  vm_v st = val :: vs →
  vm_p st = pt0 :: ps →
  vm_i st = ret :: istk →
  ∃ st', steps lib pg 4 st = Some st' ∧
         pc st' = ret ∧ vm_i st' = istk ∧ vm_p st' = ps ∧
         parser_pt st' = pt0 ∧
         vm_v st' = (if and then (if is_failed val then VFailed else VNil)
                     else (if is_failed val then VNil else VFailed)) :: vs.
Proof.
  intros Hpc Hv Hp Hi.
  block_instr Hblk 4%nat I4. block_instr Hblk 5%nat I5.
  block_instr Hblk 6%nat I6. block_instr Hblk 7%nat I7.
  destruct st as [fn pd ppt mz rc pc0 cu sp sl sv si sa san mm ff mc cc ac pc1 er].
  vm_norm. cbn [pc vm_v vm_p vm_i] in Hpc, Hv, Hp, Hi. subst pc0 sv sp si.
  destruct (is_failed val) eqn:Hf; destruct and; destruct sa as [|fr sa];
    (eexists; split;
     [ vm_step I4; replace (start + 4 + 1) with (start + 5) by lia;
       vm_step_rw I5 Hf; replace (start + 5 + 1) with (start + 6) by lia;
       vm_step I6; replace (start + 6 + 1) with (start + 7) by lia;
       vm_step I7; reflexivity
     | by split_and! ]).
Qed.

End PredicateBlock.

Section ActionBlock.
Variable lib : golib.
Variable pg : ϡprogram.
Variables (start rule actIx ix : Z).
Hypothesis Hblk : block_at pg start rule (encodeAction start actIx ix).
Hypothesis H0 : 0 ≤ start.
Hypothesis H8 : start + 7 < 65536.

(** X26: in the block of an action, once the expression has returned
    [ϡmatchFailed], the block drops the savepoint it pushed on the P stack
    and returns the failure to its caller: the code of the action is not
    called, no error is recorded, and the parser stays where it is. *)
Theorem action_block_skips_on_failure (st : ϡvm) (vs : list value)
    (pt0 : ϡsvpt) (ps : list ϡsvpt) (ret : Z) (istk : list Z) :
  pc st = start + 3 →
  vm_v st = VFailed :: vs →
  vm_p st = pt0 :: ps →
  vm_i st = ret :: istk →
  instrPath lib pg 3 st = [start + 3; start + 6; start + 7] ∧
  ∃ st', steps lib pg 3 st = Some st' ∧
         pc st' = ret ∧ vm_i st' = istk ∧ vm_p st' = ps ∧
         vm_v st' = VFailed :: vs ∧
         actionCnt st' = actionCnt st ∧ errs st' = errs st ∧
         cur st' = cur st ∧ parser_pt st' = parser_pt st.
Proof.
  intros Hpc Hv Hp Hi.
  block_instr Hblk 3%nat I3. block_instr Hblk 6%nat I6.
  block_instr Hblk 7%nat I7.
  destruct st as [fn pd ppt mz rc pc0 cu sp sl sv si sa san mm ff mc cc ac pc1 er].
  vm_norm. cbn [pc vm_v vm_p vm_i] in Hpc, Hv, Hp, Hi. subst pc0 sv sp si.
  split.
  { vm_path I3. vm_path I6. replace (start + 6 + 1) with (start + 7) by lia.
    vm_path I7. reflexivity. }
  eexists. split.
  { vm_step I3. vm_step I6. replace (start + 6 + 1) with (start + 7) by lia.
    vm_step I7. reflexivity. }
  by split_and!.
Qed.

End ActionBlock.

Section LabelBlock.
Variable lib : golib.
Variable pg : ϡprogram.
Variables (start rule lblIx ix : Z).
Hypothesis Hblk : block_at pg start rule (encodeLabel lblIx ix).
Hypothesis H0 : 0 ≤ start.
Hypothesis H8 : start + 5 < 65536.

(** X27: in the block of a labeled expression, once the expression has
    returned, the block drops the frame of labels it pushed for the
    expression and, when the value is not [ϡmatchFailed], binds the label
    to the value in the frame below, the frame of its caller; after a
    failure it binds nothing. The value stays on the V stack. *)
Theorem label_block_binds_in_caller_frame (st : ϡvm) (val : value)
    (vs : list value) (inner frame : gmap string value)
    (fs : list (gmap string value)) (lbl : string) (ret : Z) (istk : list Z) :
  pc st = start + 3 →
  vm_v st = val :: vs →
  vm_a st = inner :: frame :: fs →
  vm_i st = ret :: istk →
  thunk_at (ss pg) lblIx = Some lbl →
  ∃ st', steps lib pg 3 st = Some st' ∧
         pc st' = ret ∧ vm_i st' = istk ∧ vm_v st' = val :: vs ∧
         vm_a st' = (if is_failed val then frame else <[lbl := val]> frame) :: fs ∧
         parser_pt st' = parser_pt st.
Proof.
  intros Hpc Hv Ha Hi Hlbl.
  block_instr Hblk 3%nat I3. block_instr Hblk 4%nat I4.
  block_instr Hblk 5%nat I5.
  destruct st as [fn pd ppt mz rc pc0 cu sp sl sv si sa san mm ff mc cc ac pc1 er].
  vm_norm. cbn [pc vm_v vm_a vm_i] in Hpc, Hv, Ha, Hi. subst pc0 sv sa si.
  destruct (is_failed val) eqn:Hf.
  - eexists. split.
    { vm_step I3. replace (start + 3 + 1) with (start + 4) by lia.
      vm_step_rw I4 Hf. replace (start + 4 + 1) with (start + 5) by lia.
      vm_step I5. reflexivity. }
    by split_and!.
  - eexists. split.
    { vm_step I3. replace (start + 3 + 1) with (start + 4) by lia.
      erewrite steps_S;
        [| unfold step; vm_norm; rewrite I4; cbn [op]; unfold do_StoreIfT;
           vm_norm; rewrite Hf; cbn [negb args lookup list_lookup];
           rewrite Hlbl; vm_norm; rewrite ?pc_incr_small by lia; reflexivity ].
      vm_norm. replace (start + 4 + 1) with (start + 5) by lia.
      vm_step I5. reflexivity. }
    by split_and!.
Qed.

End LabelBlock.

Section RepetitionBlock.
Variable lib : golib.
Variable pg : ϡprogram.
Variables (start rule vVal ix : Z).
Hypothesis Hblk : block_at pg start rule (encodeRepetition start vVal ix).
Hypothesis H0 : 0 ≤ start.
Hypothesis H8 : start + 8 < 65536.

(** X28: in the block of a repetition, once the expression has returned:
    after [ϡmatchFailed] the block drops the failure and returns to its
    caller with what it has accumulated, the list of the values so far, or
    the value it started from when there is none; after a value it appends
    the value to the list, or starts the list with it, and goes back to
    call the expression again. *)
Theorem repetition_block_after_child (st : ϡvm) (val acc : value)
    (vs : list value) (ret : Z) (istk : list Z) :
  pc st = start + 4 →
  vm_v st = val :: acc :: vs →
  vm_i st = ret :: istk →
  (∃ l, acc = VList l) ∨ acc = VFailed →
  ∃ st', steps lib pg (if is_failed val then 3 else 4) st = Some st' ∧
         vm_l st' = vm_l st ∧ vm_p st' = vm_p st ∧
         parser_pt st' = parser_pt st ∧
         if is_failed val then
           pc st' = ret ∧ vm_i st' = istk ∧ vm_v st' = acc :: vs
         else
           pc st' = start + 1 ∧ vm_i st' = ret :: istk ∧
           vm_v st' = VList (match acc with VList l => l | _ => [] end ++ [val])
                      :: vs.
Proof.
  intros Hpc Hv Hi Hacc.
  block_instr Hblk 4%nat I4. block_instr Hblk 5%nat I5.
  block_instr Hblk 6%nat I6. block_instr Hblk 7%nat I7.
  block_instr Hblk 8%nat I8.
  destruct st as [fn pd ppt mz rc pc0 cu sp sl sv si sa san mm ff mc cc ac pc1 er].
  vm_norm. cbn [pc vm_v vm_i] in Hpc, Hv, Hi. subst pc0 sv si.
  destruct (is_failed val) eqn:Hf.
  - destruct sa as [|fr sa];
      (eexists; split;
       [ vm_step I4; replace (start + 4 + 1) with (start + 5) by lia;
         vm_step_rw I5 Hf; vm_step I8; reflexivity
       | by split_and! ]).
  - destruct Hacc as [[l ->]| ->]; destruct sa as [|fr sa];
      (eexists; split;
       [ vm_step I4; replace (start + 4 + 1) with (start + 5) by lia;
         vm_step_rw I5 Hf; replace (start + 5 + 1) with (start + 6) by lia;
         vm_step_rw I6 Hf; replace (start + 6 + 1) with (start + 7) by lia;
         vm_step I7; reflexivity
       | by split_and! ]).
Qed.

End RepetitionBlock.

(** The blocks of the programs of the examples. *)
Ltac block_at_tac :=
  intros k instr; do 9 (destruct k as [|k]; [intros [= <-]; reflexivity|]);
  discriminate.

Lemma option_block_never_fails_witness :
  ∃ st', steps ascii_lib prog_option (if is_failed VFailed then 4 else 3)
           (machine_after prog_option "b" 10) = Some st' ∧
         pc st' = 3 ∧ vm_i st' = [] ∧
         vm_v st' = (if is_failed VFailed then VNil else VFailed) :: [] ∧
         vm_l st' = vm_l (machine_after prog_option "b" 10) ∧
         vm_p st' = vm_p (machine_after prog_option "b" 10) ∧
         parser_pt st' = parser_pt (machine_after prog_option "b" 10).
Proof.
  assert (block_at prog_option 8 0 (encodeOption 8 4)) as Hblk by block_at_tac.
  apply (option_block_never_fails ascii_lib prog_option 8 0 4 Hblk
           ltac:(lia) ltac:(lia)
           (machine_after prog_option "b" 10) VFailed [] 3 []).
  - vm_compute. reflexivity.
  - vm_compute. reflexivity.
  - vm_compute. reflexivity.
Defined.

Lemma predicate_block_restores_witness :
  ∃ st', steps ascii_lib prog_and 4 (machine_after prog_and "a" 11) = Some st' ∧
         pc st' = 3 ∧ vm_i st' = [] ∧ vm_p st' = [] ∧
         parser_pt st' = savepoint_after "a" 1 ∧
         vm_v st' = (if is_failed (VBytes (bytes "a")) then VFailed else VNil) :: [].
Proof.
  assert (block_at prog_and 8 0 (encodePredicate true 4)) as Hblk by block_at_tac.
  apply (predicate_block_restores ascii_lib prog_and 8 0 4 true Hblk
           ltac:(lia) ltac:(lia)
           (machine_after prog_and "a" 11) (VBytes (bytes "a")) []
           (savepoint_after "a" 1) [] 3 []).
  - vm_compute. reflexivity.
  - vm_compute. reflexivity.
  - vm_compute. reflexivity.
  - vm_compute. reflexivity.
Defined.

Lemma action_block_skips_on_failure_witness :
  instrPath ascii_lib prog_action 3 (machine_after prog_action "b" 10)
  = [8 + 3; 8 + 6; 8 + 7] ∧
  ∃ st', steps ascii_lib prog_action 3 (machine_after prog_action "b" 10) = Some st' ∧
         pc st' = 3 ∧ vm_i st' = [] ∧ vm_p st' = [] ∧
         vm_v st' = VFailed :: [] ∧
         actionCnt st' = actionCnt (machine_after prog_action "b" 10) ∧
         errs st' = errs (machine_after prog_action "b" 10) ∧
         cur st' = cur (machine_after prog_action "b" 10) ∧
         parser_pt st' = parser_pt (machine_after prog_action "b" 10).
Proof.
  assert (block_at prog_action 8 0 (encodeAction 8 0 4)) as Hblk by block_at_tac.
  apply (action_block_skips_on_failure ascii_lib prog_action 8 0 0 4 Hblk
           ltac:(lia) ltac:(lia)
           (machine_after prog_action "b" 10) [] (savepoint_after "b" 1) [] 3 []).
  - vm_compute. reflexivity.
  - vm_compute. reflexivity.
  - vm_compute. reflexivity.
  - vm_compute. reflexivity.
Defined.

Lemma label_block_binds_in_caller_frame_witness :
  ∃ st', steps ascii_lib prog_label 3 (machine_after prog_label "a" 10) = Some st' ∧
         pc st' = 3 ∧ vm_i st' = [] ∧ vm_v st' = VBytes (bytes "a") :: [] ∧
         vm_a st' = (if is_failed (VBytes (bytes "a")) then ∅
                     else <["x" := VBytes (bytes "a")]> ∅) :: [] ∧
         parser_pt st' = parser_pt (machine_after prog_label "a" 10).
Proof.
  assert (block_at prog_label 8 0 (encodeLabel 1 4)) as Hblk by block_at_tac.
  apply (label_block_binds_in_caller_frame ascii_lib prog_label 8 0 1 4 Hblk
           ltac:(lia) ltac:(lia)
           (machine_after prog_label "a" 10) (VBytes (bytes "a")) [] ∅ ∅ []
           "x" 3 []).
  - vm_compute. reflexivity.
  - vm_compute. reflexivity.
  - vm_compute. reflexivity.
  - vm_compute. reflexivity.
  - vm_compute. reflexivity.
Defined.

Lemma repetition_block_after_child_witness :
  ∃ st', steps ascii_lib prog_star
           (if is_failed (VBytes (bytes "a")) then 3 else 4)
           (machine_after prog_star "a" 11) = Some st' ∧
         vm_l st' = vm_l (machine_after prog_star "a" 11) ∧
         vm_p st' = vm_p (machine_after prog_star "a" 11) ∧
         parser_pt st' = parser_pt (machine_after prog_star "a" 11) ∧
         if is_failed (VBytes (bytes "a")) then
           pc st' = 3 ∧ vm_i st' = [] ∧ vm_v st' = VList [] :: []
         else
           pc st' = 8 + 1 ∧ vm_i st' = 3 :: [] ∧
           vm_v st' = VList ([] ++ [VBytes (bytes "a")]) :: [].
Proof.
  assert (block_at prog_star 8 0 (encodeRepetition 8 ϡvValEmpty 4)) as Hblk
    by block_at_tac.
  apply (repetition_block_after_child ascii_lib prog_star 8 0 ϡvValEmpty 4 Hblk
           ltac:(lia) ltac:(lia)
           (machine_after prog_star "a" 11) (VBytes (bytes "a")) (VList []) [] 3 []).
  - vm_compute. reflexivity.
  - vm_compute. reflexivity.
  - vm_compute. reflexivity.
  - left. by exists [].
Defined.

Lemma choice_block_after_failure_witness :
  ∃ st', steps ascii_lib prog_choice 3 (machine_after prog_choice "b" 11) = Some st' ∧
         pc st' = 12 + 1 ∧ vm_i st' = vm_i (machine_after prog_choice "b" 11) ∧
         vm_l st' = vm_l (machine_after prog_choice "b" 11) ∧
         vm_v st' = VFailed :: [] ∧
         callCnt st' = callCnt (machine_after prog_choice "b" 11) ∧
         parser_pt st' = parser_pt (machine_after prog_choice "b" 11).
Proof.
  assert (block_at prog_choice 12 0 (encodeChoice 12 [4; 8])) as Hblk
    by block_at_tac.
  apply (choice_block_after_failure ascii_lib prog_choice 12 0 [4; 8] Hblk
           ltac:(lia) ltac:(lia) (machine_after prog_choice "b" 11) []).
  - vm_compute. reflexivity.
  - vm_compute. reflexivity.
Defined.

Lemma matcher_block_failed_restores_witness :
  parser_pt (machine_after prog_lit_a "b" 7) = parser_pt (machine_after prog_lit_a "b" 3) ∧
  vm_p (machine_after prog_lit_a "b" 7) = vm_p (machine_after prog_lit_a "b" 3).
Proof.
  assert (block_at prog_lit_a 4 0 (encodeMatcher 0)) as Hblk by block_at_tac.
  apply (matcher_block_failed_restores ascii_lib prog_lit_a 4 0 0
           (machine_after prog_lit_a "b" 3) (machine_after prog_lit_a "b" 7) Hblk).
  - lia.
  - lia.
  - vm_compute. reflexivity.
  - vm_compute. reflexivity.
  - vm_compute. reflexivity.
Defined.

